(** * PlatinumBot: achievement reconciliation, size guardrail and batch runner

    A shallow embedding of [src/index.mjs] (the current handler) and of
    [src/unnamed/part_000] (its earlier variant), with the properties of the
    reconciliation core stated over it.

    Conventions of the embedding.
    - JavaScript numbers that the code only uses as integers (counts, Unix
      seconds, byte sizes) are [Z]; [percent] is the one place where the code
      divides, and it is evaluated on IEEE-754 doubles as JavaScript does.
    - JavaScript strings are [string], read as the UTF-8 encoding of
      well-formed text, so that [String.length] is [Buffer.byteLength];
      [String.prototype.trim] removes the encodings of the white space and
      line terminators of the language.
    - What the engine or a remote service decides is an oracle of the world:
      the answers of Steam, Discord and DynamoDB, and the text (or the
      [RangeError]) of [toLocaleString].
    - [undefined] / missing properties are [None].
    - [console.log] calls are not modelled; a function whose only use of an
      argument is logging loses that argument.
    - An [async] function is a computation in the monad [M]: it reads the
      external world ([World.t]), changes the observable state ([State.t])
      and either returns or throws. *)

From Stdlib Require Import ZArith String Ascii List Lia Bool Sorted.
From Stdlib Require Import Floats Uint63.
From Stdlib Require DecimalString.
From stdpp Require Import gmap strings list.

Local Open Scope Z_scope.

(* ------------------------------------------------------------------ *)
(** ** JavaScript primitives used by the handler *)

(** [Number(x) || d] on an environment value: [None] is [NaN]. *)
Definition number_or (x : option Z) (d : Z) : Z :=
  match x with
  | Some n => if n =? 0 then d else n
  | None => d
  end.

(** [String(n)] for an integer [n]. *)
Definition String_of_Z (n : Z) : string :=
  DecimalString.NilZero.string_of_int (Z.to_int n).

(** The double nearest to an integer (exact below 2^53). *)
Definition Number_of_Z (z : Z) : float :=
  if z <? 0 then PrimFloat.opp (PrimFloat.of_uint63 (Uint63.of_Z (- z)))
  else PrimFloat.of_uint63 (Uint63.of_Z z).

(** [Math.floor] of a finite double. *)
Definition Math_floor (f : float) : Z :=
  match Prim2SF f with
  | S754_finite s m e =>
      let v := if s then Z.neg m else Z.pos m in
      if e <? 0 then v / 2 ^ (- e) else v * 2 ^ e
  | _ => 0
  end.

(** [percent(numer, denom)]: [Math.floor((numer / denom) * 100)], or 0 when
    [denom] is falsy. *)
Definition percent (numer denom : Z) : Z :=
  if denom =? 0 then 0
  else Math_floor
         (PrimFloat.mul (PrimFloat.div (Number_of_Z numer) (Number_of_Z denom))
                        (Number_of_Z 100)).

(** JavaScript truthiness of a string. *)
Definition truthy (s : string) : bool :=
  match s with EmptyString => false | _ => true end.

(** [a || b] on strings. *)
Definition str_or (a b : string) : string := if truthy a then a else b.

(** The white space and line terminators [String.prototype.trim] removes,
    by their UTF-8 encodings. One byte: U+0009 to U+000D and U+0020. *)
Definition is_space (c : ascii) : bool :=
  let n := N_of_ascii c in
  ((n =? 32) || (n =? 9) || (n =? 10) || (n =? 11) || (n =? 12) || (n =? 13))%N.

(** Two bytes: U+00A0 (C2 A0). *)
Definition is_space2 (a b : ascii) : bool :=
  ((N_of_ascii a =? 194) && (N_of_ascii b =? 160))%N.

(** Three bytes: U+1680 (E1 9A 80), U+2000 to U+200A (E2 80 80 to E2 80 8A),
    U+2028 and U+2029 (E2 80 A8, E2 80 A9), U+202F (E2 80 AF), U+205F
    (E2 81 9F), U+3000 (E3 80 80) and U+FEFF (EF BB BF). *)
Definition is_space3 (a b c : ascii) : bool :=
  let x := N_of_ascii a in
  let y := N_of_ascii b in
  let z := N_of_ascii c in
  (((x =? 225) && (y =? 154) && (z =? 128)) ||
   ((x =? 226) && (y =? 128) &&
    (((128 <=? z) && (z <=? 138)) || (z =? 168) || (z =? 169) || (z =? 175))) ||
   ((x =? 226) && (y =? 129) && (z =? 159)) ||
   ((x =? 227) && (y =? 128) && (z =? 128)) ||
   ((x =? 239) && (y =? 187) && (z =? 191)))%N.

Fixpoint trim_start (s : string) : string :=
  match s with
  | EmptyString => EmptyString
  | String a s1 =>
      if is_space a then trim_start s1
      else
        match s1 with
        | EmptyString => s
        | String b s2 =>
            if is_space2 a b then trim_start s2
            else
              match s2 with
              | EmptyString => s
              | String c s3 => if is_space3 a b c then trim_start s3 else s
              end
        end
  end.

Fixpoint string_rev_onto (s acc : string) : string :=
  match s with
  | String c s' => string_rev_onto s' (String c acc)
  | EmptyString => acc
  end.

(** [trim_start] on a string read from its end: the bytes of a character
    come last byte first. In well-formed UTF-8 a lead byte starts a
    character wherever it stands, so the test is the same. *)
Fixpoint trim_start_reversed (s : string) : string :=
  match s with
  | EmptyString => EmptyString
  | String a s1 =>
      if is_space a then trim_start_reversed s1
      else
        match s1 with
        | EmptyString => s
        | String b s2 =>
            if is_space2 b a then trim_start_reversed s2
            else
              match s2 with
              | EmptyString => s
              | String c s3 => if is_space3 c b a then trim_start_reversed s3 else s
              end
        end
  end.

Definition trim_end (s : string) : string :=
  string_rev_onto (trim_start_reversed (string_rev_onto s EmptyString)) EmptyString.

(** [String.prototype.trim]. *)
Definition trim (s : string) : string := trim_end (trim_start s).

(* ------------------------------------------------------------------ *)
(** ** JSON.stringify and the UTF-8 byte count *)

Definition dquote : ascii := ascii_of_nat 34.
Definition backslash : ascii := ascii_of_nat 92.

Definition hex_digit (n : N) : ascii :=
  if (n <? 10)%N then ascii_of_N (48 + n) else ascii_of_N (87 + n).

(** The escape of one byte inside a JSON string literal. *)
Definition JSON_escape (c : ascii) : string :=
  let n := N_of_ascii c in
  if (n =? 34)%N then String backslash (String dquote EmptyString)
  else if (n =? 92)%N then String backslash (String backslash EmptyString)
  else if (n =? 8)%N then String backslash "b"
  else if (n =? 12)%N then String backslash "f"
  else if (n =? 10)%N then String backslash "n"
  else if (n =? 13)%N then String backslash "r"
  else if (n =? 9)%N then String backslash "t"
  else if (n <? 32)%N then
    String backslash
      (String "u" (String "0" (String "0"
         (String (hex_digit (n / 16)) (String (hex_digit (n mod 16)) EmptyString)))))
  else String c EmptyString.

Fixpoint JSON_escape_all (s : string) : string :=
  match s with
  | String c s' => (JSON_escape c ++ JSON_escape_all s')%string
  | EmptyString => EmptyString
  end.

Definition JSON_string (s : string) : string :=
  String dquote (JSON_escape_all s ++ String dquote EmptyString)%string.

Definition JSON_bool (b : bool) : string := if b then "true"%string else "false"%string.

Definition JSON_array (l : list string) : string :=
  ("[" ++ String.concat "," (map JSON_string l) ++ "]")%string.

(** One [key:value] member; a property that is absent is not printed. *)
Definition JSON_member {A} (key : string) (print : A → string) (v : option A)
  : list string :=
  match v with
  | Some a => [(JSON_string key ++ ":" ++ print a)%string]
  | None => []
  end.

Definition JSON_object (members : list (list string)) : string :=
  ("{" ++ String.concat "," (concat members) ++ "}")%string.

(* ------------------------------------------------------------------ *)
(** ** The ledger record *)

(** The state-table item. The first fifteen properties are the ones
    [processOneUser] writes, in its order; the next three are added by the
    guardrail; [announced] is the legacy name [getState] still reads. *)
Module Item.
Record t := mk {
  PK : string;
  name : string;
  steamId : string;
  appid : string;
  gameTitle : string;
  totalAchievements : Z;
  unlockedCount : Z;
  lockedCount : Z;
  progressText : string;
  unlockedApiNames : option (list string);
  lockedApiNames : option (list string);
  announcedApiNames : option (list string);
  unannouncedUnlockedApiNames : option (list string);
  platinumAnnounced : bool;
  updatedAt : Z;
  arraysTruncated : option bool;
  approxBytesBeforeTruncate : option Z;
  announcedDropped : option bool;
  announced : option (list string)
}.
End Item.

Definition JSON_stringify (i : Item.t) : string :=
  JSON_object
    [ JSON_member "PK" JSON_string (Some (Item.PK i));
      JSON_member "name" JSON_string (Some (Item.name i));
      JSON_member "steamId" JSON_string (Some (Item.steamId i));
      JSON_member "appid" JSON_string (Some (Item.appid i));
      JSON_member "gameTitle" JSON_string (Some (Item.gameTitle i));
      JSON_member "totalAchievements" String_of_Z (Some (Item.totalAchievements i));
      JSON_member "unlockedCount" String_of_Z (Some (Item.unlockedCount i));
      JSON_member "lockedCount" String_of_Z (Some (Item.lockedCount i));
      JSON_member "progressText" JSON_string (Some (Item.progressText i));
      JSON_member "unlockedApiNames" JSON_array (Item.unlockedApiNames i);
      JSON_member "lockedApiNames" JSON_array (Item.lockedApiNames i);
      JSON_member "announcedApiNames" JSON_array (Item.announcedApiNames i);
      JSON_member "unannouncedUnlockedApiNames" JSON_array
        (Item.unannouncedUnlockedApiNames i);
      JSON_member "platinumAnnounced" JSON_bool (Some (Item.platinumAnnounced i));
      JSON_member "updatedAt" String_of_Z (Some (Item.updatedAt i));
      JSON_member "arraysTruncated" JSON_bool (Item.arraysTruncated i);
      JSON_member "approxBytesBeforeTruncate" String_of_Z
        (Item.approxBytesBeforeTruncate i);
      JSON_member "announcedDropped" JSON_bool (Item.announcedDropped i);
      JSON_member "announced" JSON_array (Item.announced i) ].

(** [approxUtf8Bytes(obj)]: byte length of the serialized record. *)
Definition approxUtf8Bytes (obj : Item.t) : Z :=
  Z.of_nat (String.length (JSON_stringify obj)).

(** [MAX_ITEM_BYTES = Math.max(100000, Number(DDB_ITEM_MAX_BYTES) || 350000)]. *)
Definition MAX_ITEM_BYTES_of (DDB_ITEM_MAX_BYTES : option Z) : Z :=
  Z.max 100000 (number_or DDB_ITEM_MAX_BYTES 350000).

(** [{...item, unlockedApiNames: undefined, lockedApiNames: undefined,
      unannouncedUnlockedApiNames: undefined, arraysTruncated: true,
      approxBytesBeforeTruncate: initialBytes}] with the undefined keys
    deleted. *)
Definition trim_arrays (item : Item.t) (initialBytes : Z) : Item.t :=
  Item.mk (Item.PK item) (Item.name item) (Item.steamId item) (Item.appid item)
    (Item.gameTitle item) (Item.totalAchievements item) (Item.unlockedCount item)
    (Item.lockedCount item) (Item.progressText item)
    None None (Item.announcedApiNames item) None
    (Item.platinumAnnounced item) (Item.updatedAt item)
    (Some true) (Some initialBytes) (Item.announcedDropped item)
    (Item.announced item).

(** [delete trimmed.announcedApiNames; trimmed.announcedDropped = true]. *)
Definition drop_announced (trimmed : Item.t) : Item.t :=
  Item.mk (Item.PK trimmed) (Item.name trimmed) (Item.steamId trimmed)
    (Item.appid trimmed) (Item.gameTitle trimmed) (Item.totalAchievements trimmed)
    (Item.unlockedCount trimmed) (Item.lockedCount trimmed)
    (Item.progressText trimmed)
    (Item.unlockedApiNames trimmed) (Item.lockedApiNames trimmed) None
    (Item.unannouncedUnlockedApiNames trimmed)
    (Item.platinumAnnounced trimmed) (Item.updatedAt trimmed)
    (Item.arraysTruncated trimmed) (Item.approxBytesBeforeTruncate trimmed)
    (Some true) (Item.announced trimmed).

Module Guarded.
Record t := mk { item : Item.t; truncated : bool; bytes : Z }.
End Guarded.

(** [applyDdbSizeGuardrail(name, item)], with the module constant
    [MAX_ITEM_BYTES] as a parameter. *)
Definition applyDdbSizeGuardrail (MAX_ITEM_BYTES : Z) (item : Item.t) : Guarded.t :=
  let initialBytes := approxUtf8Bytes item in
  if initialBytes <=? MAX_ITEM_BYTES then
    Guarded.mk item false initialBytes
  else
    let trimmed := trim_arrays item initialBytes in
    let finalBytes := approxUtf8Bytes trimmed in
    if finalBytes >? MAX_ITEM_BYTES then
      let trimmed' := drop_announced trimmed in
      let finalFinalBytes := approxUtf8Bytes trimmed' in
      Guarded.mk trimmed' true finalFinalBytes
    else
      Guarded.mk trimmed true finalBytes.

(* ------------------------------------------------------------------ *)
(** ** Data exchanged with the collaborators *)

(** What [fetch] followed by [res.json()] can yield. *)
Inductive Response (J : Type) : Type :=
| NotOk (status : Z) (body : string)   (* [res.ok] is false *)
| Rejects (message : string)           (* [fetch] or [res.json()] rejects *)
| Json (j : J).
Arguments NotOk {J} status body.
Arguments Rejects {J} message.
Arguments Json {J} j.

(** [summariesJson?.response?.players?.[0]]. *)
Module Player.
Record t := mk { gameid : option string; gameextrainfo : option string }.
End Player.

(** [recentJson?.response?.games?.[0]]. *)
Module Game.
Record t := mk { appid : option Z; name : option string }.
End Game.

(** One entry of [playerJson.playerstats.achievements]. *)
Module PlayerAch.
Record t := mk { apiname : string; achieved : Z; unlocktime : option Z }.
End PlayerAch.

(** One entry of [schemaJson.game.availableGameStats.achievements]. *)
Module SchemaAch.
Record t := mk {
  name : string;
  displayName : option string;
  description : option string;
  icon : option string
}.
End SchemaAch.

(** [schemaJson?.game]: its [gameName] and achievement list. *)
Module SchemaJson.
Record t := mk {
  gameName : option string;
  achievements : option (list SchemaAch.t)
}.
End SchemaJson.

(** An entry of [schemaCache]. *)
Module Schema.
Record t := mk {
  schemaGameName : option string;
  schemaByApi : gmap string SchemaAch.t;
  totalCount : Z
}.
End Schema.

(** One entry of [json.achievementpercentages.achievements], with
    [Number(x.percent)] already taken. *)
Module RarityEntry.
Record t := mk { name : string; percent : float }.
End RarityEntry.

(** The values an achievement embed is formatted from. The text of its
    "Unlocked On:" field is [formatLocalDateFromUnix] of [unlocktime] and
    [tz]; the posting loop evaluates it while it builds the embed, and it
    can throw there. *)
Module Embed.
Record t := mk {
  color : Z;
  name : string;
  gameTitle : string;
  pctComplete : Z;
  iconUrl : option string;
  achievementName : string;
  achievementDesc : string;
  unlocktime : Z;
  tz : string;
  unlockedCount : Z;
  totalAchievements : Z;
  rarityPct : option float
}.
End Embed.

(** A webhook payload: an achievement embed or the platinum message. *)
Inductive Payload : Type :=
| EmbedPayload (embed : Embed.t)
| PlatinumPayload (name gameTitle : string) (image : option string).

(** A row of the weekly event log; its key is the week of [unlockedAtSec]
    together with user, time, app and achievement. *)
Module Event.
Record t := mk {
  name : string;
  steamId : string;
  appid : string;
  gameTitle : string;
  achievementApiName : string;
  achievementDisplayName : string;
  rarityPercent : option float;
  unlockedAtSec : Z
}.
Definition key (e : t) : string * Z * string * string :=
  (steamId e, unlockedAtSec e, appid e, achievementApiName e).
End Event.

Module User.
Record t := mk {
  name : string;
  steamId : string;
  webhookUrl : option string;
  timezone : option string;
  windowSeconds : option Z
}.
End User.

(** [process.env], after [Number(...)] where the code applies it. *)
Module Env.
Record t := mk {
  DISCORD_WEBHOOK_URL : string;
  TIMEZONE : string;
  ACH_WINDOW_SECONDS : option Z;
  CONCURRENCY : option Z;
  PLATINUM_IMAGE_URL : string;
  DDB_ITEM_MAX_BYTES : option Z;
  EVENTS_TABLE : option string
}.
End Env.

Definition DEFAULT_WINDOW (env : Env.t) : Z := number_or (Env.ACH_WINDOW_SECONDS env) 900.
Definition MAX_CONCURRENCY (env : Env.t) : Z := Z.max 1 (number_or (Env.CONCURRENCY env) 3).
Definition MAX_ITEM_BYTES (env : Env.t) : Z := MAX_ITEM_BYTES_of (Env.DDB_ITEM_MAX_BYTES env).

(* ------------------------------------------------------------------ *)
(** ** The world, the observable state and the monad of [async] code *)

(** What a run changes: the state table, the webhook deliveries (oldest
    first), the event log and the two in-process caches. *)
Module State.
Record t := mk {
  table : gmap string Item.t;
  delivered : list (string * Payload);
  events : list Event.t;
  schemaCache : gmap string Schema.t;
  rarityCache : gmap string (option (gmap string float))
}.
End State.

(** What a run reads: configuration, clock, the Steam endpoints, and how
    Discord and DynamoDB answer. [webhook] gets the deliveries so far, the
    URL and the payload, and answers [None] for success or the failing status
    and body. [ddbGet], [ddbPut] and [eventPut] answer [Some message] when the
    request fails. [toLocaleString sec tz] is
    [new Date(sec * 1000).toLocaleString("en-US", { timeZone: tz })]: the
    text, or [None] when the engine throws a [RangeError] because [tz] is not
    a time zone it knows. *)
Module World.
Record t := mk {
  env : Env.t;
  now : Z;
  GetPlayerSummaries : string → Response (option Player.t);
  GetRecentlyPlayedGames : string → Response (option Game.t);
  GetPlayerAchievements : string → string → Response (option (list PlayerAch.t));
  GetSchemaForGame : string → Response SchemaJson.t;
  GetGlobalAchievementPercentagesForApp : string → Response (option (list RarityEntry.t));
  webhook : list (string * Payload) → string → Payload → option (Z * string);
  ddbGet : string → option string;
  ddbPut : Item.t → option string;
  eventPut : Event.t → option string;
  toLocaleString : Z → string → option string
}.
End World.

Inductive Outcome (A : Type) : Type :=
| Returned (a : A)
| Thrown (message : string).
Arguments Returned {A} a.
Arguments Thrown {A} message.

Definition M (A : Type) : Type := World.t → State.t → Outcome A * State.t.

Definition ret {A} (a : A) : M A := λ _ s, (Returned a, s).
Definition throw {A} (message : string) : M A := λ _ s, (Thrown message, s).
Definition bind {A B} (m : M A) (k : A → M B) : M B :=
  λ w s, match m w s with
         | (Returned a, s') => k a w s'
         | (Thrown e, s') => (Thrown e, s')
         end.
Definition ask : M World.t := λ w s, (Returned w, s).
Definition get : M State.t := λ _ s, (Returned s, s).
Definition put (s : State.t) : M unit := λ _ _, (Returned tt, s).

(** [try { m } catch { }]: an exception of [m] is swallowed. *)
Definition swallow (m : M unit) : M unit :=
  λ w s, match m w s with
         | (Returned _, s') => (Returned tt, s')
         | (Thrown _, s') => (Returned tt, s')
         end.

Notation "x <- c1 ;; c2" := (bind c1 (λ x, c2))
  (at level 100, c1 at next level, right associativity).
Notation "c1 ;; c2" := (bind c1 (λ _, c2))
  (at level 100, right associativity).

(** [steamGet(name, url)] on the answer of the endpoint [url] names. *)
Definition steamGet {J} (res : Response J) : M J :=
  match res with
  | Json j => ret j
  | NotOk status body =>
      throw ("Steam API error " ++ String_of_Z status ++ ": " ++ body)%string
  | Rejects message => throw message
  end.

(** [formatLocalDateFromUnix(sec, tz)]: ["Unknown"] when [sec] is falsy,
    else the engine's text, or its [RangeError]. *)
Definition formatLocalDateFromUnix (sec : Z) (tz : string) : M string :=
  if sec =? 0 then ret "Unknown"%string
  else
    w <- ask ;;
    match World.toLocaleString w sec tz with
    | Some text => ret text
    | None => throw ("Invalid time zone specified: " ++ tz)%string
    end.

(* ------------------------------------------------------------------ *)
(** ** DynamoDB state and Discord posting *)

Definition set_table (s : State.t) (table : gmap string Item.t) : State.t :=
  State.mk table (State.delivered s) (State.events s) (State.schemaCache s)
    (State.rarityCache s).
Definition set_delivered (s : State.t) (delivered : list (string * Payload)) : State.t :=
  State.mk (State.table s) delivered (State.events s) (State.schemaCache s)
    (State.rarityCache s).
Definition set_events (s : State.t) (events : list Event.t) : State.t :=
  State.mk (State.table s) (State.delivered s) events (State.schemaCache s)
    (State.rarityCache s).
Definition set_schemaCache (s : State.t) (c : gmap string Schema.t) : State.t :=
  State.mk (State.table s) (State.delivered s) (State.events s) c
    (State.rarityCache s).
Definition set_rarityCache (s : State.t) (c : gmap string (option (gmap string float)))
  : State.t :=
  State.mk (State.table s) (State.delivered s) (State.events s)
    (State.schemaCache s) c.

(** The result of [getState]. *)
Module Loaded.
Record t := mk {
  exists_ : bool;
  announcedApiNames : list string;
  platinumAnnounced : bool
}.
End Loaded.

(** [out.Item?.announcedApiNames ?? out.Item?.announced ?? []]. *)
Definition loaded_announced (out_Item : option Item.t) : list string :=
  match out_Item with
  | Some i =>
      match Item.announcedApiNames i with
      | Some l => l
      | None => default [] (Item.announced i)
      end
  | None => []
  end.

Definition getState (pk : string) : M Loaded.t :=
  w <- ask ;;
  s <- get ;;
  match World.ddbGet w pk with
  | Some message => throw message
  | None =>
      let out_Item := State.table s !! pk in
      ret (Loaded.mk
             (match out_Item with Some _ => true | None => false end)
             (loaded_announced out_Item)
             (match out_Item with Some i => Item.platinumAnnounced i | None => false end))
  end.

Definition putStateItem (item : Item.t) : M unit :=
  w <- ask ;;
  let safeItem := Guarded.item (applyDdbSizeGuardrail (MAX_ITEM_BYTES (World.env w)) item) in
  match World.ddbPut w safeItem with
  | Some message => throw message
  | None =>
      s <- get ;;
      put (set_table s (<[Item.PK safeItem := safeItem]> (State.table s)))
  end.

Definition postDiscordPayload (webhookUrl : string) (payload : Payload) : M unit :=
  w <- ask ;;
  s <- get ;;
  match World.webhook w (State.delivered s) webhookUrl payload with
  | Some (status, body) =>
      throw ("Discord webhook error " ++ String_of_Z status ++ ": " ++ body)%string
  | None => put (set_delivered s (State.delivered s ++ [(webhookUrl, payload)]))
  end.

Definition postDiscordEmbed (webhookUrl : string) (embed : Embed.t) : M unit :=
  postDiscordPayload webhookUrl (EmbedPayload embed).

Definition postPlatinumCongrats (name webhookUrl gameTitle : string) : M unit :=
  w <- ask ;;
  let image := Env.PLATINUM_IMAGE_URL (World.env w) in
  postDiscordPayload webhookUrl
    (PlatinumPayload name gameTitle (if truthy image then Some image else None)).

(** [recordAchievementEvent]: a conditional put into the event log whose
    failure, duplicate key included, is swallowed. *)
Definition recordAchievementEvent (e : Event.t) : M unit :=
  w <- ask ;;
  if truthy (default "" (Env.EVENTS_TABLE (World.env w))) then
    swallow
      (s <- get ;;
       match World.eventPut w e with
       | Some message => throw message
       | None =>
           if bool_decide (Event.key e ∈ map Event.key (State.events s))
           then throw "ConditionalCheckFailedException"
           else put (set_events s (State.events s ++ [e]))
       end)
  else ret tt.

(* ------------------------------------------------------------------ *)
(** ** Steam: game selection, schema and rarity *)

Module Target.
Record t := mk { appid : string; gameTitle : string; source : string }.
End Target.

Definition resolveTargetGame (steamId : string) : M (option Target.t) :=
  w <- ask ;;
  player <- steamGet (World.GetPlayerSummaries w steamId) ;;
  match player ≫= Player.gameid with
  | Some (String c g) =>
      let gameid := String c g in
      let gameTitle :=
        default ("Steam App " ++ gameid)%string (player ≫= Player.gameextrainfo) in
      ret (Some (Target.mk gameid gameTitle "currently_playing"))
  | _ =>
      game <- steamGet (World.GetRecentlyPlayedGames w steamId) ;;
      match game ≫= Game.appid with
      | Some appid =>
          if appid =? 0 then ret None
          else
            let gameTitle :=
              default ("Steam App " ++ String_of_Z appid)%string (game ≫= Game.name) in
            ret (Some (Target.mk (String_of_Z appid) gameTitle "recently_played"))
      | None => ret None
      end
  end.

Definition rarityColor (pct : float) : Z :=
  if PrimFloat.ltb pct (Number_of_Z 1) then 0xF1C40F
  else if PrimFloat.ltb pct (Number_of_Z 5) then 0xE67E22
  else if PrimFloat.ltb pct (Number_of_Z 20) then 0x9B59B6
  else if PrimFloat.ltb pct (Number_of_Z 50) then 0x3498DB
  else 0x2ECC71.

(** [new Map(entries)]: a later entry replaces an earlier one. *)
Definition Map_from {V} (entries : list (string * V)) : gmap string V :=
  foldl (λ m kv, <[kv.1 := kv.2]> m) ∅ entries.

Definition getSchemaForApp (appid : string) : M Schema.t :=
  w <- ask ;;
  s <- get ;;
  match State.schemaCache s !! appid with
  | Some cached => ret cached
  | None =>
      schemaJson <- steamGet (World.GetSchemaForGame w appid) ;;
      let schemaGameName := SchemaJson.gameName schemaJson in
      let schemaAch := default [] (SchemaJson.achievements schemaJson) in
      let totalCount := Z.of_nat (length schemaAch) in
      let schemaByApi := Map_from (map (λ a, (SchemaAch.name a, a)) schemaAch) in
      let cached := Schema.mk schemaGameName schemaByApi totalCount in
      s <- get ;;
      put (set_schemaCache s (<[appid := cached]> (State.schemaCache s))) ;;
      ret cached
  end.

Definition getRarityForApp (appid : string) : M (option (gmap string float)) :=
  w <- ask ;;
  s <- get ;;
  match State.rarityCache s !! appid with
  | Some cached => ret cached
  | None =>
      json <- steamGet (World.GetGlobalAchievementPercentagesForApp w appid) ;;
      s <- get ;;
      match default [] json with
      | [] =>
          put (set_rarityCache s (<[appid := None]> (State.rarityCache s))) ;;
          ret None
      | arr =>
          let map_ :=
            Map_from (map (λ x, (RarityEntry.name x, RarityEntry.percent x)) arr) in
          put (set_rarityCache s (<[appid := Some map_]> (State.rarityCache s))) ;;
          ret (Some map_)
      end
  end.

(* ------------------------------------------------------------------ *)
(** ** Snapshot reconciliation: the pure steps of [processOneUser] *)

(** A JavaScript [Set] of strings, as its elements in insertion order. *)
Definition Set_has (s : list string) (x : string) : bool := bool_decide (x ∈ s).
Definition Set_add (s : list string) (x : string) : list string :=
  if Set_has s x then s else s ++ [x].
Definition Set_from (l : list string) : list string := foldl Set_add [] l.

(** An element of [unlocked]: [{ apiname, unlocktime }]. *)
Module Unlocked.
Record t := mk { apiname : string; unlocktime : Z }.
End Unlocked.

(** [Array.prototype.sort((a, b) => b.unlocktime - a.unlocktime)]: the
    stable sort by descending unlock time. *)
Fixpoint insert_desc (a : Unlocked.t) (l : list Unlocked.t) : list Unlocked.t :=
  match l with
  | [] => [a]
  | b :: l' =>
      if Unlocked.unlocktime b - Unlocked.unlocktime a >? 0
      then b :: insert_desc a l'
      else a :: l
  end.

Definition sort_desc (l : list Unlocked.t) : list Unlocked.t := foldr insert_desc [] l.

(** [unlocked]: the entries with [Number(a.achieved) === 1], with
    [a.unlocktime || 0], newest first. *)
Definition unlocked_of (playerAch : list PlayerAch.t) : list Unlocked.t :=
  sort_desc
    (map (λ a, Unlocked.mk (PlayerAch.apiname a) (default 0 (PlayerAch.unlocktime a)))
       (List.filter (λ a, PlayerAch.achieved a =? 1) playerAch)).

Definition lockedApiNames_of (playerAch : list PlayerAch.t) : list string :=
  map PlayerAch.apiname (List.filter (λ a, PlayerAch.achieved a =? 0) playerAch).

Definition unlockedApiNames_of (unlocked : list Unlocked.t) : list string :=
  map Unlocked.apiname unlocked.

(** [unlocked.filter((a) => a.unlocktime > 0 && a.unlocktime >= cutoff)]. *)
Definition unlockedRecent_of (unlocked : list Unlocked.t) (cutoff : Z)
  : list Unlocked.t :=
  List.filter
    (λ a, (Unlocked.unlocktime a >? 0) && (Unlocked.unlocktime a >=? cutoff))
    unlocked.

(** [announcedSet] after the bootstrap test. *)
Definition announcedSet_of (exists_ : bool) (announcedApiNames unlockedApiNames : list string)
  : list string :=
  if exists_ then Set_from announcedApiNames else Set_from unlockedApiNames.

(** [toPost]. *)
Definition toPost_of (exists_ : bool) (announcedSet : list string)
    (unlockedRecent : list Unlocked.t) : list Unlocked.t :=
  if exists_
  then List.filter (λ a, negb (Set_has announcedSet (Unlocked.apiname a))) unlockedRecent
  else unlockedRecent.

(** [windowSeconds]. *)
Definition windowSeconds_of (env : Env.t) (user : User.t) : Z :=
  number_or (Some (number_or (User.windowSeconds user) (DEFAULT_WINDOW env)))
    (DEFAULT_WINDOW env).

(** [totalAchievements]: the schema's count when it was fetched, else the
    size of the player list. *)
Definition totalAchievements_of (totalCount : option Z) (unlockedCount lockedCount : Z) : Z :=
  let totalFallback := unlockedCount + lockedCount in
  match totalCount with
  | Some n => n
  | None => totalFallback
  end.

(** [isPlatinum]. *)
Definition isPlatinum_of (totalAchievements unlockedCount : Z) : bool :=
  (totalAchievements >? 0) && (unlockedCount =? totalAchievements).

Definition progressText_of (unlockedCount totalAchievements pctComplete : Z) : string :=
  (String_of_Z unlockedCount ++ "/" ++ String_of_Z totalAchievements
     ++ " (" ++ String_of_Z pctComplete ++ "%)")%string.

(** The test of step 6: [toPost.length > 0 && isPlatinum && !platinumFlag]. *)
Definition shouldCelebrate (toPost : list Unlocked.t) (isPlatinum platinumFlag : bool)
  : bool :=
  (0 <? Z.of_nat (length toPost)) && isPlatinum && negb platinumFlag.

(** The record of step 7. *)
Definition item_of (pk name steamId appid gameTitle : string)
    (totalAchievements unlockedCount lockedCount : Z) (progressText : string)
    (unlockedApiNames lockedApiNames announcedSet : list string)
    (platinumFlag : bool) (nowSec : Z) : Item.t :=
  Item.mk pk name steamId appid gameTitle
    totalAchievements unlockedCount lockedCount progressText
    (Some unlockedApiNames) (Some lockedApiNames) (Some announcedSet)
    (Some (List.filter (λ api, negb (Set_has announcedSet api)) unlockedApiNames))
    platinumFlag nowSec None None None None.

(** The result object of [processOneUser]. *)
Module Result.
Record t := mk {
  ok : bool;
  name : string;
  posted : Z;
  reason : option string;
  appid : option string;
  gameTitle : option string;
  progressText : option string;
  platinum : option bool
}.
End Result.

(* ------------------------------------------------------------------ *)
(** ** [processOneUser] of [src/index.mjs] *)

(** What the body of the posting loop needs from the enclosing scope. *)
Module Ctx.
Record t := mk {
  name : string;
  steamId : string;
  appid : string;
  webhookUrl : string;
  tz : string;
  gameTitle : string;
  schemaByApi : option (gmap string SchemaAch.t);
  rarityMap : option (gmap string float);
  unlockedCount : Z;
  totalAchievements : Z;
  pctComplete : Z
}.
End Ctx.

Definition rarityPct_of (c : Ctx.t) (a : Unlocked.t) : option float :=
  match Ctx.rarityMap c ≫= (λ m, m !! Unlocked.apiname a) with
  | Some v => if PrimFloat.is_finite v then Some v else None
  | None => None
  end.

Definition achievementName_of (c : Ctx.t) (a : Unlocked.t) : string :=
  let meta := Ctx.schemaByApi c ≫= (λ m, m !! Unlocked.apiname a) in
  default (Unlocked.apiname a) (meta ≫= SchemaAch.displayName).

(** The embed of one achievement, once its date has been formatted: the one
    step of building it that can throw, [formatLocalDateFromUnix], is taken
    by [postAll] just before. *)
Definition embed_of (c : Ctx.t) (a : Unlocked.t) : Embed.t :=
  let meta := Ctx.schemaByApi c ≫= (λ m, m !! Unlocked.apiname a) in
  let achievementDesc := default "Hidden Achievement"%string (meta ≫= SchemaAch.description) in
  let iconUrl := meta ≫= SchemaAch.icon in
  let rarityPct := rarityPct_of c a in
  let embedColor :=
    match rarityPct with None => 0xE74C3C | Some p => rarityColor p end in
  Embed.mk embedColor (Ctx.name c) (Ctx.gameTitle c) (Ctx.pctComplete c)
    (match iconUrl with Some (String x u) => Some (String x u) | _ => None end)
    (achievementName_of c a) achievementDesc (Unlocked.unlocktime a) (Ctx.tz c)
    (Ctx.unlockedCount c) (Ctx.totalAchievements c) rarityPct.

Definition event_of (c : Ctx.t) (a : Unlocked.t) : Event.t :=
  Event.mk (Ctx.name c) (Ctx.steamId c) (Ctx.appid c) (Ctx.gameTitle c)
    (Unlocked.apiname a) (achievementName_of c a) (rarityPct_of c a)
    (Unlocked.unlocktime a).

(** [for (const a of toPost) { ... announcedSet.add(a.apiname); }]. The
    embed is built first, and building it formats the unlock time, which
    throws on an invalid time zone. *)
Fixpoint postAll (c : Ctx.t) (toPost : list Unlocked.t) (announcedSet : list string)
  : M (list string) :=
  match toPost with
  | [] => ret announcedSet
  | a :: rest =>
      formatLocalDateFromUnix (Unlocked.unlocktime a) (Ctx.tz c) ;;
      postDiscordEmbed (Ctx.webhookUrl c) (embed_of c a) ;;
      recordAchievementEvent (event_of c a) ;;
      postAll c rest (Set_add announcedSet (Unlocked.apiname a))
  end.

Definition processOneUser (user : User.t) : M Result.t :=
  w <- ask ;;
  let env := World.env w in
  let name := User.name user in
  let steamId := trim (User.steamId user) in
  let webhookUrl := str_or (default "" (User.webhookUrl user)) (Env.DISCORD_WEBHOOK_URL env) in
  let tz := str_or (default "" (User.timezone user)) (Env.TIMEZONE env) in
  let windowSeconds := windowSeconds_of env user in
  target <- resolveTargetGame steamId ;;
  match target with
  | None => ret (Result.mk true name 0 (Some "no_current_or_recent_game"%string)
                   None None None None)
  | Some target =>
      let appid := Target.appid target in
      let resolvedGameTitle := Target.gameTitle target in
      (* 1) player achievements first *)
      playerJson <- steamGet (World.GetPlayerAchievements w appid steamId) ;;
      let playerAch := default [] playerJson in
      let unlocked := unlocked_of playerAch in
      let lockedApiNames := lockedApiNames_of playerAch in
      let unlockedApiNames := unlockedApiNames_of unlocked in
      (* 2) load the state, compute toPost *)
      let pk := ("steam#" ++ steamId ++ "#app#" ++ appid)%string in
      let nowSec := World.now w / 1000 in
      let cutoff := nowSec - windowSeconds in
      st <- getState pk ;;
      let exists_ := Loaded.exists_ st in
      let platinumFlag := Loaded.platinumAnnounced st in
      let unlockedRecent := unlockedRecent_of unlocked cutoff in
      let announcedSet :=
        announcedSet_of exists_ (Loaded.announcedApiNames st) unlockedApiNames in
      let toPost := toPost_of exists_ announcedSet unlockedRecent in
      (* 3) schema and rarity only if posting *)
      fetched <-
        (if 0 <? Z.of_nat (length toPost) then
           schema <- getSchemaForApp appid ;;
           rarityMap <- getRarityForApp appid ;;
           let gameTitle :=
             if truthy resolvedGameTitle then resolvedGameTitle
             else str_or (default "" (Schema.schemaGameName schema)) resolvedGameTitle in
           ret (Some (Schema.schemaByApi schema), Some (Schema.totalCount schema),
                rarityMap, gameTitle)
         else ret (None, None, None, resolvedGameTitle)) ;;
      let '(schemaByApi, totalCount, rarityMap, gameTitle) := fetched in
      (* 4) progress counts *)
      let unlockedCount := Z.of_nat (length unlockedApiNames) in
      let lockedCount := Z.of_nat (length lockedApiNames) in
      let totalAchievements := totalAchievements_of totalCount unlockedCount lockedCount in
      let pctComplete := percent unlockedCount totalAchievements in
      let progressText := progressText_of unlockedCount totalAchievements pctComplete in
      let isPlatinum := isPlatinum_of totalAchievements unlockedCount in
      (* 5) post embeds *)
      let c := Ctx.mk name steamId appid webhookUrl tz gameTitle schemaByApi rarityMap
                 unlockedCount totalAchievements pctComplete in
      announcedSet <- postAll c toPost announcedSet ;;
      (* 6) platinum celebration *)
      platinumFlag <-
        (if shouldCelebrate toPost isPlatinum platinumFlag then
           postPlatinumCongrats name webhookUrl gameTitle ;; ret true
         else ret platinumFlag) ;;
      (* 7) persist *)
      putStateItem
        (item_of pk name steamId appid gameTitle totalAchievements unlockedCount
           lockedCount progressText unlockedApiNames lockedApiNames announcedSet
           platinumFlag nowSec) ;;
      ret (Result.mk true name (Z.of_nat (length toPost)) None (Some appid)
             (Some gameTitle) (Some progressText) (Some isPlatinum))
  end.

(* ------------------------------------------------------------------ *)
(** ** [processOneUser] of [src/unnamed/part_000]

    The earlier variant fetches the schema before the player list, has no
    rarity and no event log, and takes the total from the schema alone. *)
Module Part000.

(** The embed of one achievement, once [postAll] has formatted its date. *)
Definition embed_of (c : Ctx.t) (a : Unlocked.t) : Embed.t :=
  let meta := Ctx.schemaByApi c ≫= (λ m, m !! Unlocked.apiname a) in
  let achievementName := default (Unlocked.apiname a) (meta ≫= SchemaAch.displayName) in
  let achievementDesc := default "Hidden Achievement"%string (meta ≫= SchemaAch.description) in
  let iconUrl := meta ≫= SchemaAch.icon in
  Embed.mk 0xe74c3c (Ctx.name c) (Ctx.gameTitle c) (Ctx.pctComplete c)
    (match iconUrl with Some (String x u) => Some (String x u) | _ => None end)
    achievementName achievementDesc (Unlocked.unlocktime a) (Ctx.tz c)
    (Ctx.unlockedCount c) (Ctx.totalAchievements c) None.

Fixpoint postAll (c : Ctx.t) (toPost : list Unlocked.t) (announcedSet : list string)
  : M (list string) :=
  match toPost with
  | [] => ret announcedSet
  | a :: rest =>
      formatLocalDateFromUnix (Unlocked.unlocktime a) (Ctx.tz c) ;;
      postDiscordEmbed (Ctx.webhookUrl c) (embed_of c a) ;;
      postAll c rest (Set_add announcedSet (Unlocked.apiname a))
  end.

Definition processOneUser (user : User.t) : M Result.t :=
  w <- ask ;;
  let env := World.env w in
  let name := User.name user in
  let steamId := trim (User.steamId user) in
  let webhookUrl := str_or (default "" (User.webhookUrl user)) (Env.DISCORD_WEBHOOK_URL env) in
  let tz := str_or (default "" (User.timezone user)) (Env.TIMEZONE env) in
  let windowSeconds := windowSeconds_of env user in
  target <- resolveTargetGame steamId ;;
  match target with
  | None => ret (Result.mk true name 0 (Some "no_current_or_recent_game"%string)
                   None None None None)
  | Some target =>
      let appid := Target.appid target in
      let resolvedGameTitle := Target.gameTitle target in
      schema <- getSchemaForApp appid ;;
      let schemaByApi := Schema.schemaByApi schema in
      let totalCount := Schema.totalCount schema in
      let gameTitle :=
        str_or resolvedGameTitle
          (str_or (default "" (Schema.schemaGameName schema))
             ("Steam App " ++ appid)%string) in
      playerJson <- steamGet (World.GetPlayerAchievements w appid steamId) ;;
      let playerAch := default [] playerJson in
      let unlocked := unlocked_of playerAch in
      let lockedApiNames := lockedApiNames_of playerAch in
      let unlockedApiNames := unlockedApiNames_of unlocked in
      let unlockedCount := Z.of_nat (length unlockedApiNames) in
      let lockedCount := Z.of_nat (length lockedApiNames) in
      let pct := percent unlockedCount totalCount in
      let progressText := progressText_of unlockedCount totalCount pct in
      let pk := ("steam#" ++ steamId ++ "#app#" ++ appid)%string in
      let nowSec := World.now w / 1000 in
      let cutoff := nowSec - windowSeconds in
      st <- getState pk ;;
      let exists_ := Loaded.exists_ st in
      let platinumFlag := Loaded.platinumAnnounced st in
      let unlockedRecent := unlockedRecent_of unlocked cutoff in
      let announcedSet :=
        announcedSet_of exists_ (Loaded.announcedApiNames st) unlockedApiNames in
      let toPost := toPost_of exists_ announcedSet unlockedRecent in
      let isPlatinum := isPlatinum_of totalCount unlockedCount in
      let c := Ctx.mk name steamId appid webhookUrl tz gameTitle (Some schemaByApi) None
                 unlockedCount totalCount pct in
      announcedSet <- postAll c toPost announcedSet ;;
      platinumFlag <-
        (if shouldCelebrate toPost isPlatinum platinumFlag then
           postPlatinumCongrats name webhookUrl gameTitle ;; ret true
         else ret platinumFlag) ;;
      putStateItem
        (item_of pk name steamId appid gameTitle totalCount unlockedCount
           lockedCount progressText unlockedApiNames lockedApiNames announcedSet
           platinumFlag nowSec) ;;
      ret (Result.mk true name (Z.of_nat (length toPost)) None (Some appid)
             (Some gameTitle) (Some progressText) (Some isPlatinum))
  end.

End Part000.

(* ------------------------------------------------------------------ *)
(** ** The concurrency runner

    [runWithConcurrency] starts [Math.min(concurrency, items.length)] copies
    of [runner]; between two [await]s a copy runs alone, and which copy
    resumes next is up to the event loop. A copy is therefore a small state
    machine and a run is a schedule, the list of copies in the order they are
    resumed. The worker's effect on what the copies share is taken when its
    promise settles. [started] is a history variable: the indices
    [worker(items[current])] was called for, in call order. *)
Section Runner.
Context {U R W : Type}.
Variable worker : U → W → Outcome R * W.
Variable items : list U.

(** What a slot of [results] holds once written: the worker's value or
    [{ ok: false, error }]. *)
Inductive Slot : Type :=
| Value (r : R)
| Failure (error : string).

Definition settle (o : Outcome R) : Slot :=
  match o with
  | Returned r => Value r
  | Thrown message => Failure message
  end.

Inductive Runner : Type :=
| Ready                              (* at the top of [while (true)] *)
| Awaiting (current : nat) (u : U)   (* suspended in [await worker(items[current])] *)
| Finished.                          (* returned *)

Record Pool := mkPool {
  idx : nat;
  results : list (option Slot);
  runners : list Runner;
  world : W;
  started : list nat
}.

(** Resume copy [r] until its next [await] or its [return]. *)
Definition step (r : nat) (p : Pool) : Pool :=
  match runners p !! r with
  | Some Ready =>
      let current := idx p in
      match items !! current with
      | None =>   (* current >= items.length *)
          mkPool (S (idx p)) (results p) (<[r := Finished]> (runners p))
            (world p) (started p)
      | Some u =>
          mkPool (S (idx p)) (results p) (<[r := Awaiting current u]> (runners p))
            (world p) (started p ++ [current])
      end
  | Some (Awaiting current u) =>
      let '(o, w') := worker u (world p) in
      mkPool (idx p) (<[current := Some (settle o)]> (results p))
        (<[r := Ready]> (runners p)) w' (started p)
  | Some Finished | None => p
  end.

Definition run (schedule : list nat) (p : Pool) : Pool := foldl (λ p r, step r p) p schedule.

(** [new Array(items.length)], [idx = 0] and the copies just created. *)
Definition init (concurrency : Z) (w : W) : Pool :=
  mkPool 0 (replicate (length items) None)
    (replicate (Z.to_nat (Z.min concurrency (Z.of_nat (length items)))) Ready)
    w [].

Definition is_Finished (r : Runner) : bool :=
  match r with Finished => true | _ => false end.

(** [Promise.all(runners)] has resolved. *)
Definition settled (p : Pool) : bool := forallb is_Finished (runners p).

(** [runWithConcurrency(items, worker, concurrency)] under a schedule: the
    [results] array once every copy has returned. *)
Definition runWithConcurrency (concurrency : Z) (w : W) (schedule : list nat)
  : option (list (option Slot)) :=
  let p := run schedule (init concurrency w) in
  if settled p then Some (results p) else None.

(** Resuming every copy in turn, [rounds] times. *)
Definition round_robin (concurrency : Z) (rounds : nat) : list nat :=
  concat (replicate rounds
            (seq 0 (Z.to_nat (Z.min concurrency (Z.of_nat (length items)))))).

End Runner.

Arguments Value {R} r.
Arguments Failure {R} error.
Arguments Ready {U}.
Arguments Awaiting {U} current u.
Arguments Finished {U}.

(* ------------------------------------------------------------------ *)
(** ** The anatomy of a run: the values its statements name *)

(** The part of the state the claims are about: the state table and the
    webhook deliveries. *)
Definition same_ledger (s s' : State.t) : Prop :=
  State.table s' = State.table s ∧ State.delivered s' = State.delivered s.

Definition pk_of (steamId appid : string) : string :=
  ("steam#" ++ steamId ++ "#app#" ++ appid)%string.

(** The values step 2 of [processOneUser] computes from the player list and
    the loaded record. *)
Module Diff.
Record t := mk {
  pk : string;
  nowSec : Z;
  cutoff : Z;
  unlocked : list Unlocked.t;
  lockedApiNames : list string;
  unlockedApiNames : list string;
  exists_ : bool;
  platinumFlag : bool;
  unlockedRecent : list Unlocked.t;
  announcedSet : list string;
  toPost : list Unlocked.t
}.
End Diff.

Definition diff_of (env : Env.t) (now : Z) (user : User.t) (target : Target.t)
    (playerJson : option (list PlayerAch.t)) (out_Item : option Item.t) : Diff.t :=
  let playerAch := default [] playerJson in
  let unlocked := unlocked_of playerAch in
  let unlockedApiNames := unlockedApiNames_of unlocked in
  let nowSec := now / 1000 in
  let cutoff := nowSec - windowSeconds_of env user in
  let exists_ := match out_Item with Some _ => true | None => false end in
  let unlockedRecent := unlockedRecent_of unlocked cutoff in
  let announcedSet :=
    announcedSet_of exists_ (loaded_announced out_Item) unlockedApiNames in
  Diff.mk (pk_of (trim (User.steamId user)) (Target.appid target))
    nowSec cutoff unlocked (lockedApiNames_of playerAch) unlockedApiNames exists_
    (match out_Item with Some i => Item.platinumAnnounced i | None => false end)
    unlockedRecent announcedSet (toPost_of exists_ announcedSet unlockedRecent).

(** What step 3 leaves in [schemaByApi], [totalCount], [rarityMap] and
    [gameTitle]. *)
Definition Fetched : Type :=
  option (gmap string SchemaAch.t) * option Z * option (gmap string float) * string.

Definition fetched_totalCount (f : Fetched) : option Z := f.1.1.2.
Definition fetched_gameTitle (f : Fetched) : string := f.2.

Definition webhookUrl_of (env : Env.t) (user : User.t) : string :=
  str_or (default "" (User.webhookUrl user)) (Env.DISCORD_WEBHOOK_URL env).

Definition unlockedCount_of (d : Diff.t) : Z := Z.of_nat (length (Diff.unlockedApiNames d)).
Definition lockedCount_of (d : Diff.t) : Z := Z.of_nat (length (Diff.lockedApiNames d)).

Definition total_of (d : Diff.t) (f : Fetched) : Z :=
  totalAchievements_of (fetched_totalCount f) (unlockedCount_of d) (lockedCount_of d).

Definition platinum_of (d : Diff.t) (f : Fetched) : bool :=
  isPlatinum_of (total_of d f) (unlockedCount_of d).

Definition ctx_of (env : Env.t) (user : User.t) (target : Target.t) (d : Diff.t)
    (f : Fetched) : Ctx.t :=
  Ctx.mk (User.name user) (trim (User.steamId user)) (Target.appid target)
    (webhookUrl_of env user)
    (str_or (default "" (User.timezone user)) (Env.TIMEZONE env))
    (fetched_gameTitle f) f.1.1.1 f.1.2
    (unlockedCount_of d) (total_of d f) (percent (unlockedCount_of d) (total_of d f)).

(** The achievement posts of a run, in posting order. *)
Definition embeds_of (c : Ctx.t) (toPost : list Unlocked.t) : list (string * Payload) :=
  map (λ a, (Ctx.webhookUrl c, EmbedPayload (embed_of c a))) toPost.

Definition celebrates (d : Diff.t) (f : Fetched) : bool :=
  shouldCelebrate (Diff.toPost d) (platinum_of d f) (Diff.platinumFlag d).

(** The platinum post of a run, if any. *)
Definition celebration_of (env : Env.t) (user : User.t) (d : Diff.t) (f : Fetched)
  : list (string * Payload) :=
  if celebrates d f then
    [(webhookUrl_of env user,
      PlatinumPayload (User.name user) (fetched_gameTitle f)
        (if truthy (Env.PLATINUM_IMAGE_URL env)
         then Some (Env.PLATINUM_IMAGE_URL env) else None))]
  else [].

(** [announcedSet] after the posting loop. *)
Definition announced_after (d : Diff.t) : list string :=
  foldl Set_add (Diff.announcedSet d) (map Unlocked.apiname (Diff.toPost d)).

(** The record handed to [putStateItem]. *)
Definition item_built (user : User.t) (target : Target.t) (d : Diff.t) (f : Fetched)
  : Item.t :=
  item_of (Diff.pk d) (User.name user) (trim (User.steamId user)) (Target.appid target)
    (fetched_gameTitle f) (total_of d f) (unlockedCount_of d) (lockedCount_of d)
    (progressText_of (unlockedCount_of d) (total_of d f)
       (percent (unlockedCount_of d) (total_of d f)))
    (Diff.unlockedApiNames d) (Diff.lockedApiNames d) (announced_after d)
    (Diff.platinumFlag d || celebrates d f) (Diff.nowSec d).

(** The record that reaches the table. *)
Definition item_saved (env : Env.t) (user : User.t) (target : Target.t) (d : Diff.t)
    (f : Fetched) : Item.t :=
  Guarded.item (applyDdbSizeGuardrail (MAX_ITEM_BYTES env) (item_built user target d f)).

(** Step 3 of [src/index.mjs]: nothing is fetched unless something is to be
    posted. *)
Definition fetched_for (w : World.t) (s : State.t) (target : Target.t) (d : Diff.t)
    (f : Fetched) : Prop :=
  (Diff.toPost d = [] ∧ f = (None, None, None, Target.gameTitle target)) ∨
  (Diff.toPost d ≠ [] ∧
   ∃ schema rarityMap,
     (getSchemaForApp (Target.appid target) w s).1 = Returned schema ∧
     f = (Some (Schema.schemaByApi schema), Some (Schema.totalCount schema), rarityMap,
          if truthy (Target.gameTitle target) then Target.gameTitle target
          else str_or (default "" (Schema.schemaGameName schema))
                 (Target.gameTitle target))).

(** The achievement posts of a run of the earlier variant. *)
Definition Part000_embeds_of (c : Ctx.t) (toPost : list Unlocked.t)
  : list (string * Payload) :=
  map (λ a, (Ctx.webhookUrl c, EmbedPayload (Part000.embed_of c a))) toPost.

(** What the earlier variant holds in [schemaByApi], [totalCount] and
    [gameTitle] once the schema is fetched; it has no rarity map. *)
Definition Part000_fetched (target : Target.t) (schema : Schema.t) : Fetched :=
  (Some (Schema.schemaByApi schema), Some (Schema.totalCount schema), None,
   str_or (Target.gameTitle target)
     (str_or (default "" (Schema.schemaGameName schema))
        ("Steam App " ++ Target.appid target)%string)).

(** The two source files, and what differs between their runs: the
    function, the embeds and what step 3 fetched. *)
Inductive Source : Type := index_mjs | part_000.

Definition processOneUser_in (src : Source) : User.t → M Result.t :=
  match src with
  | index_mjs => processOneUser
  | part_000 => Part000.processOneUser
  end.

Definition embeds_in (src : Source) : Ctx.t → list Unlocked.t → list (string * Payload) :=
  match src with
  | index_mjs => embeds_of
  | part_000 => Part000_embeds_of
  end.

Definition fetched_in (src : Source) (w : World.t) (s : State.t) (target : Target.t)
    (d : Diff.t) (f : Fetched) : Prop :=
  match src with
  | index_mjs => fetched_for w s target d f
  | part_000 =>
      ∃ schema, (getSchemaForApp (Target.appid target) w s).1 = Returned schema ∧
                f = Part000_fetched target schema
  end.

(* ------------------------------------------------------------------ *)
(** ** Sequences of runs and the platinum latch *)

(** The platinum latch of a pair is set in the table. *)
Definition latched (s : State.t) (pk : string) : Prop :=
  ∃ i, State.table s !! pk = Some i ∧ Item.platinumAnnounced i = true.

(** The state after a sequence of runs, each of either source file and
    with its own user and world. *)
Fixpoint runs (l : list (Source * User.t * World.t)) (s : State.t) : State.t :=
  match l with
  | [] => s
  | (src, user, w) :: l' => runs l' (processOneUser_in src user w s).2
  end.

Definition is_embed (p : string * Payload) : Prop := ∃ e, p.2 = EmbedPayload e.

(* ------------------------------------------------------------------ *)
(** ** The guardrail policy as the specification words it *)

(** The record after the first step of the policy as the specification words
    it: only [unlockedApiNames] is dropped, and the truncation is marked. *)
Definition spec_drop_unlockedApiNames_only (item : Item.t) (initialBytes : Z) : Item.t :=
  Item.mk (Item.PK item) (Item.name item) (Item.steamId item) (Item.appid item)
    (Item.gameTitle item) (Item.totalAchievements item) (Item.unlockedCount item)
    (Item.lockedCount item) (Item.progressText item)
    None (Item.lockedApiNames item) (Item.announcedApiNames item)
    (Item.unannouncedUnlockedApiNames item)
    (Item.platinumAnnounced item) (Item.updatedAt item)
    (Some true) (Some initialBytes) (Item.announcedDropped item)
    (Item.announced item).

(* ------------------------------------------------------------------ *)
(** ** The invariant of the runner *)

(** What holds of the pool at every moment of every schedule, and the work
    left in it. *)
Section RunnerInvariant.
Context {U R W : Type}.
Variable worker : U → W → Outcome R * W.
Variable items : list U.

(** A slot written for index [i] holds what the worker made of
    [items[i]]. *)
Definition good_slot (i : nat) (sl : Slot (R:=R)) : Prop :=
  ∃ u w0, items !! i = Some u ∧ sl = settle (worker u w0).1.

Record Inv (p : @Pool U R W) : Prop := mkInv {
  inv_length : length (results p) = length items;
  inv_good : ∀ i sl, results p !! i = Some (Some sl) → good_slot i sl;
  inv_claimed : ∀ i, (i < idx p)%nat → (i < length items)%nat →
    (∃ sl, results p !! i = Some (Some sl)) ∨
    (∃ r u, runners p !! r = Some (Awaiting i u));
  inv_awaiting : ∀ r c u, runners p !! r = Some (Awaiting c u) → items !! c = Some u;
  inv_started : started p = seq 0 (idx p `min` length items);
  inv_finished : ∀ r, runners p !! r = Some Finished → (length items ≤ idx p)%nat
}.

(** The work left: two steps for each unclaimed unit, two for a copy that
    awaits, one for a copy that has yet to find the list exhausted. *)
Definition weight (r : Runner (U:=U)) : nat :=
  match r with Ready => 1 | Awaiting _ _ => 2 | Finished => 0 end.

Definition measure (p : @Pool U R W) : nat :=
  2 * (length items - idx p) + sum_list (weight <$> runners p).

End RunnerInvariant.

(* ------------------------------------------------------------------ *)
(** ** Concrete worlds and records *)

(** The environment with the defaults of [src/index.mjs]. *)
Definition ex_env : Env.t :=
  Env.mk "https://discord.test/hook" "America/New_York" (Some 900) (Some 3)
    "https://i.imgur.com/8mQe7pD.jpeg" (Some 350000) None.

Definition ex_user : User.t := User.mk "Ricky" "76561198000000000" None None None.

Definition ex_pk : string := "steam#76561198000000000#app#440".

Definition ex_target : Target.t := Target.mk "440" "Team Fortress 2" "currently_playing".

(** 2023-11-14T22:13:20Z, in milliseconds. *)
Definition ex_now : Z := 1700000000000.

Definition ex_schema : Response SchemaJson.t :=
  Json (SchemaJson.mk (Some "Team Fortress 2")
          (Some [SchemaAch.mk "A" (Some "First Blood") (Some "Get a kill") None;
                 SchemaAch.mk "B" (Some "Medic!") None None])).

(** A world in which the user is playing app 440, Steam answers the player
    list with [achievements] and the schema with [schema], and DynamoDB is
    healthy. *)
Definition ex_world (now : Z) (achievements : Response (option (list PlayerAch.t)))
    (schema : Response SchemaJson.t)
    (webhook : list (string * Payload) → string → Payload → option (Z * string))
  : World.t :=
  World.mk ex_env now
    (λ _, Json (Some (Player.mk (Some "440") (Some "Team Fortress 2"))))
    (λ _, Json None)
    (λ _ _, achievements)
    (λ _, schema)
    (λ _, Json None)
    webhook
    (λ _, None) (λ _, None) (λ _, None)
    (λ _ _, Some "11/14/2023, 5:13:10 PM"%string).

Definition webhook_ok : list (string * Payload) → string → Payload → option (Z * string) :=
  λ _ _ _, None.

(** Discord accepts the first post and answers the second with 429. *)
Definition webhook_second_fails
  : list (string * Payload) → string → Payload → option (Z * string) :=
  λ delivered _ _,
    if (length delivered =? 1)%nat then Some (429, "rate limited"%string) else None.

Definition ex_state0 : State.t := State.mk ∅ [] [] ∅ ∅.

(** One achievement unlocked ten seconds ago, one still locked. *)
Definition ex_recent : list PlayerAch.t :=
  [PlayerAch.mk "A" 1 (Some 1699999990); PlayerAch.mk "B" 0 (Some 0)].

(** Two achievements unlocked within the last minute. *)
Definition ex_two_recent : list PlayerAch.t :=
  [PlayerAch.mk "A" 1 (Some 1699999990); PlayerAch.mk "B" 1 (Some 1699999950)].

(** The only achievement of the player list, unlocked long ago. *)
Definition ex_old : list PlayerAch.t := [PlayerAch.mk "A" 1 (Some 1600000000)].

(** A record of an earlier run: one of two achievements unlocked. *)
Definition ex_item_prior : Item.t :=
  item_of ex_pk "Ricky" "76561198000000000" "440" "Team Fortress 2" 2 1 1 "1/2 (50%)"
    ["A"%string] ["B"%string] ["A"%string] false 1699990000.

Definition ex_state1 : State.t := State.mk {[ex_pk := ex_item_prior]} [] [] ∅ ∅.

(** A latched record: both achievements of the game were unlocked, one of
    them announced, and the celebration already sent. *)
Definition ex_item_latched : Item.t :=
  item_of ex_pk "Ricky" "76561198000000000" "440" "Team Fortress 2" 2 2 0 "2/2 (100%)"
    ["A"%string; "B"%string] [] ["A"%string] true 1699990000.

Definition ex_state_latched : State.t := State.mk {[ex_pk := ex_item_latched]} [] [] ∅ ∅.

(** A worker that fails on the unit 2. *)
Definition ex_worker (u : Z) (w : unit) : Outcome Z * unit :=
  (if u =? 2 then Thrown "boom" else Returned (10 * u), w).

(** A record of a game with three thousand unlocked achievements, none of
    them announced yet, and one locked. *)
Definition ex_big_item : Item.t :=
  item_of ex_pk "Ricky" "76561198000000000" "440" "Team Fortress 2" 3001 3000 1
    "3000/3001 (99%)"
    (map (λ n, ("ACHIEVEMENT_NUMBER_" ++ String_of_Z (Z.of_nat n))%string)
       (seq 0 (Z.to_nat 3000)))
    ["FINAL_BOSS"%string] [] false 1700000000.

(* ------------------------------------------------------------------ *)
(** ** What the steps of a run leave in place *)

(** The keys of the rows of the event log. *)
Definition event_keys (s : State.t) : list (string * Z * string * string) :=
  map Event.key (State.events s).

(** From [s] to [s'] nothing was taken away: the deliveries and the event
    log were at most appended to, the caches and the table at most gained
    keys, and cached entries were not replaced. *)
Record grows (s s' : State.t) : Prop := mk_grows {
  grows_delivered : State.delivered s `prefix_of` State.delivered s';
  grows_events : State.events s `prefix_of` State.events s';
  grows_schemaCache : State.schemaCache s ⊆ State.schemaCache s';
  grows_rarityCache : State.rarityCache s ⊆ State.rarityCache s';
  grows_table : dom (State.table s) ⊆ dom (State.table s')
}.

(** From [s] to [s'] the keys of the event log stayed pairwise distinct. *)
Definition keeps_events_unique (s s' : State.t) : Prop :=
  NoDup (event_keys s) → NoDup (event_keys s').

(** Every run of the computation [m] relates the state before to the state
    after by [R], whether it returns or throws. *)
Definition preserves {A} (R : State.t → State.t → Prop) (m : M A) : Prop :=
  ∀ w s, R s (m w s).2.

(** [rarityTier(pct)]. *)
Definition rarityTier (pct : float) : string :=
  if PrimFloat.ltb pct (Number_of_Z 1) then "Legendary"
  else if PrimFloat.ltb pct (Number_of_Z 5) then "Epic"
  else if PrimFloat.ltb pct (Number_of_Z 20) then "Rare"
  else if PrimFloat.ltb pct (Number_of_Z 50) then "Uncommon"
  else "Common".

(** A world that differs from [w] in how Steam answers the schema and the
    rarity requests. *)
Definition with_catalogue (w : World.t)
    (schema : string → Response SchemaJson.t)
    (rarity : string → Response (option (list RarityEntry.t))) : World.t :=
  World.mk (World.env w) (World.now w) (World.GetPlayerSummaries w)
    (World.GetRecentlyPlayedGames w) (World.GetPlayerAchievements w)
    schema rarity (World.webhook w) (World.ddbGet w) (World.ddbPut w)
    (World.eventPut w) (World.toLocaleString w).

(** The number of copies of [runner] suspended in [await worker(...)]. *)
Definition in_flight {U R W} (p : @Pool U R W) : nat :=
  length (List.filter (λ r, match r with Awaiting _ _ => true | _ => false end)
            (runners p)).

(** What the copies of [runner] never share: a copy awaits an index that was
    claimed, whose slot is still empty, and that no other copy awaits; and
    only claimed indices have a written slot. *)
Section RunnerExclusion.
Context {U R W : Type}.

Record Exclusive (p : @Pool U R W) : Prop := mkExclusive {
  excl_claimed : ∀ r c u, runners p !! r = Some (Awaiting c u) → (c < idx p)%nat;
  excl_pending : ∀ r c u sl,
    runners p !! r = Some (Awaiting c u) → results p !! c ≠ Some (Some sl);
  excl_unique : ∀ r r' c u u',
    runners p !! r = Some (Awaiting c u) → runners p !! r' = Some (Awaiting c u') →
    r = r';
  excl_written : ∀ i sl, results p !! i = Some (Some sl) → (i < idx p)%nat
}.

End RunnerExclusion.

(** Processing the units one after the other, in input order: the slots
    and the state the last unit leaves. *)
Section RunnerSequential.
Context {U R W : Type}.
Variable worker : U → W → Outcome R * W.
Variable items : list U.

Definition sequential (l : list U) (w : W) : list (Slot (R:=R)) * W :=
  foldl (λ acc u, let '(o, w') := worker u acc.2 in (acc.1 ++ [settle o], w'))
    ([], w) l.

(** The pool of a single copy of [runner] after [k] units: their slots are
    written, the others empty, and the copy is about to claim unit [k],
    awaits it, or has returned. *)
Definition after_units (w : W) (k : nat) (p : @Pool U R W) : Prop :=
  (k ≤ length items)%nat ∧
  results p = (Some <$> (sequential (take k items) w).1)
                ++ replicate (length items - k) None ∧
  world p = (sequential (take k items) w).2 ∧
  (runners p = [Ready] ∧ idx p = k ∨
   (∃ u, runners p = [Awaiting k u] ∧ items !! k = Some u ∧ idx p = S k) ∨
   runners p = [Finished] ∧ k = length items).

End RunnerSequential.

(** One unit of the handler's batch: the variant of [processOneUser], the
    user, and the world the call meets. *)
Definition run_unit (u : Source * User.t * World.t) (s : State.t)
  : Outcome Result.t * State.t :=
  processOneUser_in u.1.1 u.1.2 u.2 s.

(* ------------------------------------------------------------------ *)
(** ** [handler]

    [parseUsers] is [JSON.parse] followed by checks of the parsed value and
    is not modelled: the handler is taken from the list it returned. Each
    user comes with the world its call of [processOneUser] meets, since the
    clock advances between the calls; [env] is the environment the module
    was loaded with, which fixes [MAX_CONCURRENCY].

    The batch is modelled for [MAX_CONCURRENCY = 1] only. With one copy of
    [runner] the calls of [processOneUser] cannot overlap, so taking the
    whole effect of a call when its promise settles is exact. With a higher
    limit the pipelines of the units interleave at every [await]; nothing is
    said of those executions. *)

(** The object [handler] returns. *)
Module HandlerResult.
Record t := mk {
  ok : bool;
  users : Z;
  postedTotal : Z;
  results : list (option (Slot (R:=Result.t)))
}.
End HandlerResult.

(** [r?.posted || 0] on a slot of [results]: a failure object has no
    [posted]. *)
Definition posted_or_0 (r : option (Slot (R:=Result.t))) : Z :=
  number_or (match r with Some (Value r) => Some (Result.posted r) | _ => None end) 0.

(** [results.reduce((sum, r) => sum + (r?.posted || 0), 0)]. *)
Definition postedTotal_of (results : list (option (Slot (R:=Result.t)))) : Z :=
  foldl (λ sum r, sum + posted_or_0 r) 0 results.

(** What the model says of a call of [handler]. *)
Inductive Batch : Type :=
| Overlapping   (* [MAX_CONCURRENCY > 1]: the pipelines overlap; not modelled *)
| Unresolved    (* the schedule ends before the runner resolves *)
| Resolved (result : HandlerResult.t) (s' : State.t).

Definition handler (src : Source) (env : Env.t) (users : list (User.t * World.t))
    (s : State.t) (schedule : list nat) : Batch :=
  if MAX_CONCURRENCY env =? 1 then
    let units := map (λ uw, (src, uw.1, uw.2)) users in
    let p := run run_unit units schedule (init units (MAX_CONCURRENCY env) s) in
    if settled p then
      Resolved
        (HandlerResult.mk true (Z.of_nat (length users)) (postedTotal_of (results p))
           (results p))
        (world p)
    else Unresolved
  else Overlapping.

(** The number of achievement embeds among the deliveries. *)
Definition is_EmbedPayload (p : string * Payload) : bool :=
  match p.2 with EmbedPayload _ => true | PlatinumPayload _ _ _ => false end.

Definition embeds_delivered (s : State.t) : Z :=
  Z.of_nat (length (List.filter is_EmbedPayload (State.delivered s))).

(** The embeds delivered since the count was [base] are those the written
    results report, plus [extra] ones sent by units that then failed. *)
Definition accounted (base : Z)
    (p : @Pool (Source * User.t * World.t) Result.t State.t) : Prop :=
  ∃ extra, 0 ≤ extra ∧
    embeds_delivered (world p) = base + postedTotal_of (results p) + extra ∧
    ((∀ i e, results p !! i ≠ Some (Some (Failure e))) → extra = 0).

(* ================================================================== *)
(** * Properties *)

(* ------------------------------------------------------------------ *)
(** ** Sets, sorting and the recency filter *)

Lemma Zgtb_false_le (a b : Z) : (a >? b) = false → a ≤ b.
Proof. rewrite Z.gtb_ltb, Z.ltb_ge. done. Qed.

Lemma elem_of_Set_add (s : list string) (x y : string) :
  y ∈ Set_add s x ↔ y ∈ s ∨ y = x.
Proof.
  unfold Set_add, Set_has. case_bool_decide as Hx.
  - split; [auto | intros [H | ->]; done].
  - rewrite elem_of_app, list_elem_of_singleton. tauto.
Qed.

Lemma Set_add_elem (s : list string) (x : string) : x ∈ s → Set_add s x = s.
Proof. intros Hx. unfold Set_add, Set_has. by rewrite bool_decide_eq_true_2. Qed.

Lemma elem_of_foldl_Set_add (l s : list string) (y : string) :
  y ∈ foldl Set_add s l ↔ y ∈ s ∨ y ∈ l.
Proof.
  revert s. induction l as [|x l IH]; intros s; simpl.
  - rewrite elem_of_nil. tauto.
  - rewrite IH, elem_of_Set_add, elem_of_cons. tauto.
Qed.

Lemma elem_of_Set_from (l : list string) (y : string) : y ∈ Set_from l ↔ y ∈ l.
Proof. unfold Set_from. rewrite elem_of_foldl_Set_add, elem_of_nil. tauto. Qed.

Lemma foldl_Set_add_absorb (l s : list string) :
  (∀ x, x ∈ l → x ∈ s) → foldl Set_add s l = s.
Proof.
  revert s. induction l as [|x l IH]; intros s Hl; simpl; [done|].
  rewrite Set_add_elem by (apply Hl; left).
  apply IH. intros y Hy. apply Hl. by right.
Qed.

Lemma Set_has_true (s : list string) (x : string) : Set_has s x = true ↔ x ∈ s.
Proof. unfold Set_has. apply bool_decide_eq_true. Qed.

Lemma elem_of_insert_desc (a b : Unlocked.t) (l : list Unlocked.t) :
  b ∈ insert_desc a l ↔ b = a ∨ b ∈ l.
Proof.
  induction l as [|c l IH]; simpl.
  - rewrite list_elem_of_singleton, elem_of_nil. tauto.
  - destruct (_ >? 0); rewrite !elem_of_cons; [rewrite IH|]; tauto.
Qed.

Lemma elem_of_sort_desc (b : Unlocked.t) (l : list Unlocked.t) :
  b ∈ sort_desc l ↔ b ∈ l.
Proof.
  induction l as [|a l IH]; simpl; [done|].
  rewrite elem_of_insert_desc, elem_of_cons, IH. tauto.
Qed.

(** [unlocked] is in descending order of unlock time, and so is every list
    filtered out of it. *)
Lemma insert_desc_sorted (a : Unlocked.t) (l : list Unlocked.t) :
  StronglySorted (λ x y, Unlocked.unlocktime y ≤ Unlocked.unlocktime x) l →
  StronglySorted (λ x y, Unlocked.unlocktime y ≤ Unlocked.unlocktime x)
    (insert_desc a l).
Proof.
  induction l as [|b l IH]; intros Hl; simpl.
  - repeat constructor.
  - apply StronglySorted_inv in Hl as [Hl Hb].
    destruct (_ >? 0) eqn:Hcmp.
    + apply Z.gtb_lt in Hcmp. constructor; [by apply IH|].
      apply Forall_forall. intros x [-> | Hx]%elem_of_insert_desc; [lia|].
      by apply (proj1 (Forall_forall _ _) Hb).
    + apply Zgtb_false_le in Hcmp. constructor; [by constructor|].
      constructor; [lia|].
      eapply Forall_impl; [exact Hb|]. simpl. intros x Hx. lia.
Qed.

Lemma unlocked_of_sorted (playerAch : list PlayerAch.t) :
  StronglySorted (λ x y, Unlocked.unlocktime y ≤ Unlocked.unlocktime x)
    (unlocked_of playerAch).
Proof.
  unfold unlocked_of, sort_desc. induction (map _ _) as [|a l IH]; simpl.
  - constructor.
  - by apply insert_desc_sorted.
Qed.

Lemma elem_of_List_filter {A} (f : A → bool) (l : list A) (x : A) :
  x ∈ List.filter f l ↔ x ∈ l ∧ f x = true.
Proof. rewrite !list_elem_of_In. apply filter_In. Qed.

(** An element of [unlocked] is an [achieved = 1] entry of the player list
    with its missing unlock time read as 0. *)
Lemma elem_of_unlocked_of (playerAch : list PlayerAch.t) (a : Unlocked.t) :
  a ∈ unlocked_of playerAch ↔
  ∃ p, p ∈ playerAch ∧ PlayerAch.achieved p = 1 ∧
       a = Unlocked.mk (PlayerAch.apiname p) (default 0 (PlayerAch.unlocktime p)).
Proof.
  unfold unlocked_of. rewrite elem_of_sort_desc, list_elem_of_fmap.
  split.
  - intros (p & -> & Hp). apply elem_of_List_filter in Hp as [Hp Ha].
    exists p. split_and!; [done | lia | done].
  - intros (p & Hp & Ha & ->). exists p. split; [done|].
    apply elem_of_List_filter. split; [done | lia].
Qed.

Lemma elem_of_unlockedRecent_of (unlocked : list Unlocked.t) (cutoff : Z) (a : Unlocked.t) :
  a ∈ unlockedRecent_of unlocked cutoff ↔
  a ∈ unlocked ∧ 0 < Unlocked.unlocktime a ∧ cutoff ≤ Unlocked.unlocktime a.
Proof.
  unfold unlockedRecent_of. rewrite elem_of_List_filter, andb_true_iff.
  rewrite Z.gtb_lt, Z.geb_le. tauto.
Qed.

Lemma elem_of_toPost_of (exists_ : bool) (announcedSet : list string)
    (unlockedRecent : list Unlocked.t) (a : Unlocked.t) :
  a ∈ toPost_of exists_ announcedSet unlockedRecent ↔
  a ∈ unlockedRecent ∧ (exists_ = true → Unlocked.apiname a ∉ announcedSet).
Proof.
  unfold toPost_of. destruct exists_.
  - rewrite elem_of_List_filter, negb_true_iff. unfold Set_has.
    rewrite bool_decide_eq_false. tauto.
  - split; [intros H; split; [done | discriminate] | tauto].
Qed.

(** The recency filter commutes with a later cutoff. *)
Lemma unlockedRecent_of_mono (unlocked : list Unlocked.t) (cutoff cutoff' : Z) (a : Unlocked.t) :
  cutoff ≤ cutoff' →
  a ∈ unlockedRecent_of unlocked cutoff' → a ∈ unlockedRecent_of unlocked cutoff.
Proof. rewrite !elem_of_unlockedRecent_of. intros ? (? & ? & ?). split_and!; [done | done | lia]. Qed.

(* ------------------------------------------------------------------ *)
(** ** Running monadic code *)

Lemma bind_inv {A B} (m : M A) (k : A → M B) w s o s' :
  bind m k w s = (o, s') →
  (∃ e, m w s = (Thrown e, s') ∧ o = Thrown e) ∨
  (∃ a s1, m w s = (Returned a, s1) ∧ k a w s1 = (o, s')).
Proof.
  unfold bind. destruct (m w s) as [[a|e] s1]; intros H.
  - right. eauto.
  - left. exists e. by simplify_eq.
Qed.

Lemma same_ledger_refl s : same_ledger s s.
Proof. by split. Qed.

Lemma same_ledger_trans s1 s2 s3 :
  same_ledger s1 s2 → same_ledger s2 s3 → same_ledger s1 s3.
Proof. intros [? ?] [? ?]. split; congruence. Qed.

Lemma steamGet_inv {J} (res : Response J) w s o s' :
  steamGet res w s = (o, s') →
  s' = s ∧ ((∃ j, res = Json j ∧ o = Returned j) ∨ (∃ e, o = Thrown e ∧ ∀ j, res ≠ Json j)).
Proof.
  destruct res; unfold steamGet, ret, throw; intros; simplify_eq;
    (split; [done|]); [right | right | left]; eauto.
Qed.

Lemma resolveTargetGame_state steamId w s o s' :
  resolveTargetGame steamId w s = (o, s') → s' = s.
Proof.
  unfold resolveTargetGame. unfold bind at 1, ask.
  intros [(e & H & _) | (player & s1 & H & Hk)]%bind_inv.
  { by apply steamGet_inv in H as [-> _]. }
  apply steamGet_inv in H as [-> _].
  destruct (player ≫= Player.gameid) as [[|c g]|];
    [ | by unfold ret in Hk; simplify_eq | ];
    (apply bind_inv in Hk as [(e & H & _) | (game & s2 & H & Hk)];
     [ by apply steamGet_inv in H as [-> _] | ];
     apply steamGet_inv in H as [-> _];
     repeat case_match; by unfold ret in Hk; simplify_eq).
Qed.

Lemma getState_inv pk w s o s' :
  getState pk w s = (o, s') →
  s' = s ∧
  ((∃ e, World.ddbGet w pk = Some e ∧ o = Thrown e) ∨
   (World.ddbGet w pk = None ∧
    o = Returned (Loaded.mk
                    (match State.table s !! pk with Some _ => true | None => false end)
                    (loaded_announced (State.table s !! pk))
                    (match State.table s !! pk with
                     | Some i => Item.platinumAnnounced i
                     | None => false
                     end)))).
Proof.
  unfold getState. unfold bind, ask, get, ret, throw.
  destruct (World.ddbGet w pk); intros; simplify_eq; split; eauto.
Qed.

Lemma getSchemaForApp_ledger appid w s o s' :
  getSchemaForApp appid w s = (o, s') → same_ledger s s'.
Proof.
  unfold getSchemaForApp. unfold bind at 1 2, ask, get.
  destruct (State.schemaCache s !! appid).
  { unfold ret. intros; simplify_eq. apply same_ledger_refl. }
  intros [(e & H & _) | (j & s1 & H & Hk)]%bind_inv.
  { apply steamGet_inv in H as [-> _]. apply same_ledger_refl. }
  apply steamGet_inv in H as [-> _].
  unfold bind, get, put, ret in Hk. simplify_eq. by split.
Qed.

Lemma getRarityForApp_ledger appid w s o s' :
  getRarityForApp appid w s = (o, s') → same_ledger s s'.
Proof.
  unfold getRarityForApp. unfold bind at 1 2, ask, get.
  destruct (State.rarityCache s !! appid).
  { unfold ret. intros; simplify_eq. apply same_ledger_refl. }
  intros [(e & H & _) | (j & s1 & H & Hk)]%bind_inv.
  { apply steamGet_inv in H as [-> _]. apply same_ledger_refl. }
  apply steamGet_inv in H as [-> _].
  destruct (default [] j); unfold bind, get, put, ret in Hk; simplify_eq; by split.
Qed.

Lemma recordAchievementEvent_inv e w s o s' :
  recordAchievementEvent e w s = (o, s') → o = Returned tt ∧ same_ledger s s'.
Proof.
  unfold recordAchievementEvent. unfold bind at 1, ask.
  destruct (truthy _); [|unfold ret; intros; simplify_eq; by split].
  unfold swallow, bind, get, put, throw.
  destruct (World.eventPut w e); [intros; simplify_eq; by split|].
  case_bool_decide; intros; simplify_eq; by split.
Qed.

Lemma postDiscordPayload_inv url payload w s o s' :
  postDiscordPayload url payload w s = (o, s') →
  (∃ e, o = Thrown e ∧ s' = s ∧
        World.webhook w (State.delivered s) url payload ≠ None) ∨
  (o = Returned tt ∧ World.webhook w (State.delivered s) url payload = None ∧
   State.table s' = State.table s ∧
   State.delivered s' = State.delivered s ++ [(url, payload)]).
Proof.
  unfold postDiscordPayload. unfold bind, ask, get, put, throw.
  destruct (World.webhook _ _ _ _) as [[status body]|]; intros; simplify_eq.
  - left. eauto.
  - right. done.
Qed.

Lemma putStateItem_inv item w s o s' :
  let safeItem := Guarded.item (applyDdbSizeGuardrail (MAX_ITEM_BYTES (World.env w)) item) in
  putStateItem item w s = (o, s') →
  (∃ e, o = Thrown e ∧ s' = s ∧ World.ddbPut w safeItem = Some e) ∨
  (o = Returned tt ∧ World.ddbPut w safeItem = None ∧
   State.table s' = <[Item.PK safeItem := safeItem]> (State.table s) ∧
   State.delivered s' = State.delivered s).
Proof.
  unfold putStateItem. unfold bind, ask, get, put, throw. simpl.
  destruct (World.ddbPut _ _); intros; simplify_eq.
  - left. eauto.
  - right. done.
Qed.

(* ------------------------------------------------------------------ *)
(** ** The anatomy of a run of [processOneUser] *)

Lemma formatLocalDateFromUnix_inv sec tz w s o s' :
  formatLocalDateFromUnix sec tz w s = (o, s') → s' = s.
Proof.
  unfold formatLocalDateFromUnix, bind, ask, ret, throw.
  destruct (sec =? 0); [by intros; simplify_eq|].
  destruct (World.toLocaleString w sec tz); by intros; simplify_eq.
Qed.

Lemma postAll_inv c toPost announcedSet w s o s' :
  postAll c toPost announcedSet w s = (o, s') →
  State.table s' = State.table s ∧
  ∃ k, State.delivered s' = State.delivered s ++ take k (embeds_of c toPost) ∧
       ((o = Returned (foldl Set_add announcedSet (map Unlocked.apiname toPost)) ∧
         (length toPost ≤ k)%nat) ∨
        (∃ e, o = Thrown e ∧ (k < length toPost)%nat)).
Proof.
  revert announcedSet s. induction toPost as [|a rest IH]; intros set s; simpl.
  - unfold ret. intros; simplify_eq. split; [done|]. exists 0%nat.
    rewrite app_nil_r. split; [done|]. left. split; [done | lia].
  - intros [(e & H & ->) | (text & s0 & H & Hk)]%bind_inv.
    { apply formatLocalDateFromUnix_inv in H as ->.
      split; [done|]. exists 0%nat. rewrite app_nil_r. split; [done|].
      right. exists e. split; [done | simpl; lia]. }
    apply formatLocalDateFromUnix_inv in H as ->.
    apply bind_inv in Hk as [(e & H & ->) | ([] & s1 & H & Hk)].
    { apply postDiscordPayload_inv in H as [(e' & ? & -> & _) | (? & _)]; [|done].
      split; [done|]. exists 0%nat. rewrite app_nil_r. split; [done|].
      right. exists e. split; [done | simpl; lia]. }
    apply postDiscordPayload_inv in H as [(e' & ? & _) | (_ & _ & Ht1 & Hd1)]; [done|].
    apply bind_inv in Hk as [(e & H & ->) | ([] & s2 & H & Hk)].
    { by apply recordAchievementEvent_inv in H as [? _]. }
    apply recordAchievementEvent_inv in H as [_ [Ht2 Hd2]].
    apply IH in Hk as (Ht & k & Hd & Hk).
    split; [congruence|]. exists (S k). split.
    + rewrite Hd, Hd2, Hd1, <- app_assoc. done.
    + destruct Hk as [[-> ?] | (e & -> & ?)]; [left | right].
      * split; [done | lia].
      * exists e. split; [done | lia].
Qed.

Lemma guardrail_PK max item :
  Item.PK (Guarded.item (applyDdbSizeGuardrail max item)) = Item.PK item.
Proof. unfold applyDdbSizeGuardrail. repeat case_match; done. Qed.

Lemma processOneUser_anatomy user w s o s' :
  processOneUser user w s = (o, s') →
  let env := World.env w in
  let steamId := trim (User.steamId user) in
  (same_ledger s s' ∧
   ((∃ e, o = Thrown e) ∨
    (resolveTargetGame steamId w s = (Returned None, s) ∧
     o = Returned (Result.mk true (User.name user) 0
                     (Some "no_current_or_recent_game"%string) None None None None))))
  ∨
  ∃ target playerJson f,
    resolveTargetGame steamId w s = (Returned (Some target), s) ∧
    World.GetPlayerAchievements w (Target.appid target) steamId = Json playerJson ∧
    World.ddbGet w (pk_of steamId (Target.appid target)) = None ∧
    let d := diff_of env (World.now w) user target playerJson
               (State.table s !! pk_of steamId (Target.appid target)) in
    fetched_for w s target d f ∧
    let posts := embeds_of (ctx_of env user target d f) (Diff.toPost d)
                   ++ celebration_of env user d f in
    ((∃ e k, o = Thrown e ∧ State.table s' = State.table s ∧
             State.delivered s' = State.delivered s ++ take k posts)
     ∨
     (o = Returned (Result.mk true (User.name user)
                      (Z.of_nat (length (Diff.toPost d))) None
                      (Some (Target.appid target)) (Some (fetched_gameTitle f))
                      (Some (progressText_of (unlockedCount_of d) (total_of d f)
                               (percent (unlockedCount_of d) (total_of d f))))
                      (Some (platinum_of d f))) ∧
      World.ddbPut w (item_saved env user target d f) = None ∧
      State.table s' = <[Diff.pk d := item_saved env user target d f]> (State.table s) ∧
      State.delivered s' = State.delivered s ++ posts)).
Proof.
  intros Hrun env steamId.
  unfold processOneUser in Hrun. unfold bind at 1, ask in Hrun.
  fold env steamId in Hrun.
  apply bind_inv in Hrun as [(e & H & ->) | (target & s1 & Htarget & Hrun)].
  { apply resolveTargetGame_state in H as ->. left. split; [apply same_ledger_refl | eauto]. }
  pose proof (resolveTargetGame_state _ _ _ _ _ Htarget) as ->.
  destruct target as [target|]; cycle 1.
  { unfold ret in Hrun. simplify_eq. left. split; [apply same_ledger_refl | eauto]. }
  apply bind_inv in Hrun as [(e & H & ->) | (playerJson & s1 & Hplayer & Hrun)].
  { apply steamGet_inv in H as [-> _]. left. split; [apply same_ledger_refl | eauto]. }
  apply steamGet_inv in Hplayer as [-> [(j & Hplayer & ?) | (? & ? & _)]]; [|done].
  simplify_eq.
  apply bind_inv in Hrun as [(e & H & ->) | (st & s1 & Hst & Hrun)].
  { apply getState_inv in H as [-> _]. left. split; [apply same_ledger_refl | eauto]. }
  apply getState_inv in Hst as [-> [(? & _ & ?) | [Hget ?]]]; [done|].
  simplify_eq.
  cbn [Loaded.exists_ Loaded.announcedApiNames Loaded.platinumAnnounced] in Hrun.
  fold (pk_of steamId (Target.appid target)) in Hrun, Hget.
  set (d := diff_of env (World.now w) user target j
              (State.table s !! pk_of steamId (Target.appid target))).
  apply bind_inv in Hrun as [(e & H & ->) | (f & s1 & Hf & Hrun)].
  { left. split; [|eauto].
    destruct (0 <? _); [|by unfold ret in H].
    apply bind_inv in H as [(e' & H & ?) | (schema & s2 & H & Hk)].
    { by eapply getSchemaForApp_ledger. }
    apply getSchemaForApp_ledger in H.
    apply bind_inv in Hk as [(e' & Hk & ?) | (r & s3 & Hr & Hk)].
    - eapply same_ledger_trans; [done | by eapply getRarityForApp_ledger].
    - by unfold ret in Hk. }
  assert (fetched_for w s target d f ∧ same_ledger s s1) as [Hfetched [Ht1 Hd1]].
  { unfold fetched_for.
    change (toPost_of _ _ _) with (Diff.toPost d) in Hf.
    destruct (Diff.toPost d) as [|a toPost]; simpl in Hf.
    { unfold ret in Hf. simplify_eq. split; [by left | apply same_ledger_refl]. }
    apply bind_inv in Hf as [(e' & H & ?) | (schema & s2 & H & Hk)]; [done|].
    apply bind_inv in Hk as [(e' & Hk & ?) | (r & s3 & Hr & Hk)]; [done|].
    unfold ret in Hk. simplify_eq. split.
    - right. split; [done|]. exists schema, r. by rewrite H.
    - eapply same_ledger_trans;
        [by eapply getSchemaForApp_ledger | by eapply getRarityForApp_ledger]. }
  right. exists target, j, f. split_and!; [done..|].
  fold d. split; [done|].
  destruct f as [[[schemaByApi totalCount] rarityMap] gameTitle].
  change (toPost_of _ _ _) with (Diff.toPost d) in Hrun.
  apply bind_inv in Hrun as [(e & H & ->) | (set & s2 & Hpost & Hrun)].
  { apply postAll_inv in H as (Ht & k & Hd & [[? _] | (e' & ? & Hk)]); [done|].
    left. exists e, k. split_and!; [done | congruence |].
    rewrite Hd, Hd1. f_equal. rewrite take_app_le; [done|].
    unfold embeds_of. rewrite length_map. lia. }
  apply postAll_inv in Hpost as (Ht2 & k & Hd2 & [[? Hk] | (e' & ? & _)]); [|done].
  simplify_eq.
  rewrite take_ge in Hd2 by (unfold embeds_of; rewrite length_map; lia).
  apply bind_inv in Hrun as [(e & H & ->) | (flag & s3 & Hflag & Hrun)].
  { left. exists e.
    exists (length (embeds_of (ctx_of env user target d
                                 (schemaByApi, totalCount, rarityMap, gameTitle))
                      (Diff.toPost d))).
    unfold celebration_of, celebrates.
    change (shouldCelebrate (Diff.toPost d) _ _) with
      (shouldCelebrate (Diff.toPost d)
         (platinum_of d (schemaByApi, totalCount, rarityMap, gameTitle))
         (Diff.platinumFlag d)) in H.
    destruct (shouldCelebrate _ _ _); [|by unfold ret in H].
    apply bind_inv in H as [(e' & H & ?) | ([] & s4 & H & Hk')];
      [|by unfold ret in Hk'].
    unfold postPlatinumCongrats in H. unfold bind at 1, ask in H.
    apply postDiscordPayload_inv in H as [(? & _ & -> & _) | (? & _)]; [|done].
    split_and!; [done | congruence |].
    rewrite take_app_length. rewrite Hd2, Hd1. done. }
  assert (flag = (Diff.platinumFlag d
                  || celebrates d (schemaByApi, totalCount, rarityMap, gameTitle)) ∧
          State.table s3 = State.table s ∧
          State.delivered s3 = State.delivered s ++
            embeds_of (ctx_of env user target d
                         (schemaByApi, totalCount, rarityMap, gameTitle)) (Diff.toPost d)
            ++ celebration_of env user d (schemaByApi, totalCount, rarityMap, gameTitle))
    as (-> & Ht3 & Hd3).
  { unfold celebration_of, celebrates.
    change (shouldCelebrate (Diff.toPost d) _ _) with
      (shouldCelebrate (Diff.toPost d)
         (platinum_of d (schemaByApi, totalCount, rarityMap, gameTitle))
         (Diff.platinumFlag d)) in Hflag.
    destruct (shouldCelebrate _ _ _).
    - apply bind_inv in Hflag as [(e' & H & ?) | ([] & s4 & H & Hk')]; [done|].
      unfold ret in Hk'. simplify_eq.
      unfold postPlatinumCongrats in H. unfold bind at 1, ask in H.
      apply postDiscordPayload_inv in H as [(? & ? & _) | (_ & _ & Ht4 & Hd4)]; [done|].
      split_and!; [by rewrite orb_true_r | by rewrite Ht4, Ht2, Ht1 |].
      rewrite Hd4, Hd2, Hd1, <- app_assoc. done.
    - unfold ret in Hflag. simplify_eq.
      split_and!; [by rewrite orb_false_r | by rewrite Ht2, Ht1 |].
      rewrite app_nil_r. by rewrite Hd2, Hd1. }
  apply bind_inv in Hrun as [(e & H & ->) | ([] & s4 & Hput & Hrun)].
  { left. exists e. eexists (length (_ ++ _)).
    apply putStateItem_inv in H as [(? & _ & -> & _) | (? & _)]; [|done].
    split_and!; [done | done |]. by rewrite firstn_all. }
  unfold ret in Hrun. simplify_eq. right.
  apply putStateItem_inv in Hput as [(? & ? & _) | (_ & Hput & Ht4 & Hd4)]; [done|].
  rewrite guardrail_PK in Ht4.
  split_and!; [done | done | by rewrite Ht4, Ht3 | congruence].
Qed.

(* ------------------------------------------------------------------ *)
(** ** The anatomy of a run of the earlier variant

    [src/unnamed/part_000] fetches the schema first and has no event log;
    from the loaded record on it is the same sequence of steps. *)

Lemma Part000_postAll_inv c toPost announcedSet w s o s' :
  Part000.postAll c toPost announcedSet w s = (o, s') →
  State.table s' = State.table s ∧
  ∃ k, State.delivered s' = State.delivered s ++ take k (Part000_embeds_of c toPost) ∧
       ((o = Returned (foldl Set_add announcedSet (map Unlocked.apiname toPost)) ∧
         (length toPost ≤ k)%nat) ∨
        (∃ e, o = Thrown e ∧ (k < length toPost)%nat)).
Proof.
  revert announcedSet s. induction toPost as [|a rest IH]; intros set s; simpl.
  - unfold ret. intros; simplify_eq. split; [done|]. exists 0%nat.
    rewrite app_nil_r. split; [done|]. left. split; [done | lia].
  - intros [(e & H & ->) | (text & s0 & H & Hk)]%bind_inv.
    { apply formatLocalDateFromUnix_inv in H as ->.
      split; [done|]. exists 0%nat. rewrite app_nil_r. split; [done|].
      right. exists e. split; [done | simpl; lia]. }
    apply formatLocalDateFromUnix_inv in H as ->.
    apply bind_inv in Hk as [(e & H & ->) | ([] & s1 & H & Hk)].
    { apply postDiscordPayload_inv in H as [(e' & ? & -> & _) | (? & _)]; [|done].
      split; [done|]. exists 0%nat. rewrite app_nil_r. split; [done|].
      right. exists e. split; [done | simpl; lia]. }
    apply postDiscordPayload_inv in H as [(e' & ? & _) | (_ & _ & Ht1 & Hd1)]; [done|].
    apply IH in Hk as (Ht & k & Hd & Hk).
    split; [congruence|]. exists (S k). split.
    + rewrite Hd, Hd1, <- app_assoc. done.
    + destruct Hk as [[-> ?] | (e & -> & ?)]; [left | right].
      * split; [done | lia].
      * exists e. split; [done | lia].
Qed.

Lemma Part000_processOneUser_anatomy user w s o s' :
  Part000.processOneUser user w s = (o, s') →
  let env := World.env w in
  let steamId := trim (User.steamId user) in
  (same_ledger s s' ∧
   ((∃ e, o = Thrown e) ∨
    (resolveTargetGame steamId w s = (Returned None, s) ∧
     o = Returned (Result.mk true (User.name user) 0
                     (Some "no_current_or_recent_game"%string) None None None None))))
  ∨
  ∃ target schema playerJson,
    resolveTargetGame steamId w s = (Returned (Some target), s) ∧
    (getSchemaForApp (Target.appid target) w s).1 = Returned schema ∧
    World.GetPlayerAchievements w (Target.appid target) steamId = Json playerJson ∧
    World.ddbGet w (pk_of steamId (Target.appid target)) = None ∧
    let d := diff_of env (World.now w) user target playerJson
               (State.table s !! pk_of steamId (Target.appid target)) in
    let f := Part000_fetched target schema in
    let posts := Part000_embeds_of (ctx_of env user target d f) (Diff.toPost d)
                   ++ celebration_of env user d f in
    ((∃ e k, o = Thrown e ∧ State.table s' = State.table s ∧
             State.delivered s' = State.delivered s ++ take k posts)
     ∨
     (o = Returned (Result.mk true (User.name user)
                      (Z.of_nat (length (Diff.toPost d))) None
                      (Some (Target.appid target)) (Some (fetched_gameTitle f))
                      (Some (progressText_of (unlockedCount_of d) (total_of d f)
                               (percent (unlockedCount_of d) (total_of d f))))
                      (Some (platinum_of d f))) ∧
      World.ddbPut w (item_saved env user target d f) = None ∧
      State.table s' = <[Diff.pk d := item_saved env user target d f]> (State.table s) ∧
      State.delivered s' = State.delivered s ++ posts)).
Proof.
  intros Hrun env steamId.
  unfold Part000.processOneUser in Hrun. unfold bind at 1, ask in Hrun.
  fold env steamId in Hrun.
  apply bind_inv in Hrun as [(e & H & ->) | (target & s1 & Htarget & Hrun)].
  { apply resolveTargetGame_state in H as ->. left. split; [apply same_ledger_refl | eauto]. }
  pose proof (resolveTargetGame_state _ _ _ _ _ Htarget) as ->.
  destruct target as [target|]; cycle 1.
  { unfold ret in Hrun. simplify_eq. left. split; [apply same_ledger_refl | eauto]. }
  apply bind_inv in Hrun as [(e & H & ->) | (schema & s0 & Hschema & Hrun)].
  { left. split; [by eapply getSchemaForApp_ledger | eauto]. }
  pose proof (getSchemaForApp_ledger _ _ _ _ _ Hschema) as [Ht0 Hd0].
  apply bind_inv in Hrun as [(e & H & ->) | (playerJson & s1 & Hplayer & Hrun)].
  { apply steamGet_inv in H as [-> _]. left. split; [done | eauto]. }
  apply steamGet_inv in Hplayer as [-> [(j & Hplayer & ?) | (? & ? & _)]]; [|done].
  simplify_eq.
  apply bind_inv in Hrun as [(e & H & ->) | (st & s1 & Hst & Hrun)].
  { apply getState_inv in H as [-> _]. left. split; [done | eauto]. }
  apply getState_inv in Hst as [-> [(? & _ & ?) | [Hget ?]]]; [done|].
  simplify_eq.
  cbn [Loaded.exists_ Loaded.announcedApiNames Loaded.platinumAnnounced] in Hrun.
  fold (pk_of steamId (Target.appid target)) in Hrun, Hget.
  rewrite Ht0 in Hrun.
  set (d := diff_of env (World.now w) user target j
              (State.table s !! pk_of steamId (Target.appid target))).
  set (f := Part000_fetched target schema).
  right. exists target, schema, j. split_and!; [done | by rewrite Hschema | done | done |].
  fold d f.
  change (toPost_of _ _ _) with (Diff.toPost d) in Hrun.
  apply bind_inv in Hrun as [(e & H & ->) | (set & s2 & Hpost & Hrun)].
  { apply Part000_postAll_inv in H as (Ht & k & Hd & [[? _] | (e' & ? & Hk)]); [done|].
    left. exists e, k. split_and!; [done | congruence |].
    rewrite Hd, Hd0. f_equal. rewrite take_app_le; [done|].
    unfold Part000_embeds_of. rewrite length_map. lia. }
  apply Part000_postAll_inv in Hpost as (Ht2 & k & Hd2 & [[? Hk] | (e' & ? & _)]); [|done].
  simplify_eq.
  rewrite take_ge in Hd2 by (unfold Part000_embeds_of; rewrite length_map; lia).
  apply bind_inv in Hrun as [(e & H & ->) | (flag & s3 & Hflag & Hrun)].
  { left. exists e.
    exists (length (Part000_embeds_of (ctx_of env user target d f) (Diff.toPost d))).
    unfold celebration_of, celebrates.
    change (shouldCelebrate (Diff.toPost d) _ _) with
      (shouldCelebrate (Diff.toPost d) (platinum_of d f) (Diff.platinumFlag d)) in H.
    destruct (shouldCelebrate _ _ _); [|by unfold ret in H].
    apply bind_inv in H as [(e' & H & ?) | ([] & s4 & H & Hk')];
      [|by unfold ret in Hk'].
    unfold postPlatinumCongrats in H. unfold bind at 1, ask in H.
    apply postDiscordPayload_inv in H as [(? & _ & -> & _) | (? & _)]; [|done].
    split_and!; [done | congruence |].
    rewrite take_app_length. rewrite Hd2, Hd0. done. }
  assert (flag = (Diff.platinumFlag d || celebrates d f) ∧
          State.table s3 = State.table s ∧
          State.delivered s3 = State.delivered s ++
            Part000_embeds_of (ctx_of env user target d f) (Diff.toPost d)
            ++ celebration_of env user d f)
    as (-> & Ht3 & Hd3).
  { unfold celebration_of, celebrates.
    change (shouldCelebrate (Diff.toPost d) _ _) with
      (shouldCelebrate (Diff.toPost d) (platinum_of d f) (Diff.platinumFlag d)) in Hflag.
    destruct (shouldCelebrate _ _ _).
    - apply bind_inv in Hflag as [(e' & H & ?) | ([] & s4 & H & Hk')]; [done|].
      unfold ret in Hk'. simplify_eq.
      unfold postPlatinumCongrats in H. unfold bind at 1, ask in H.
      apply postDiscordPayload_inv in H as [(? & ? & _) | (_ & _ & Ht4 & Hd4)]; [done|].
      split_and!; [by rewrite orb_true_r | by rewrite Ht4, Ht2, Ht0 |].
      rewrite Hd4, Hd2, Hd0, <- app_assoc. done.
    - unfold ret in Hflag. simplify_eq.
      split_and!; [by rewrite orb_false_r | by rewrite Ht2, Ht0 |].
      rewrite app_nil_r. by rewrite Hd2, Hd0. }
  apply bind_inv in Hrun as [(e & H & ->) | ([] & s4 & Hput & Hrun)].
  { left. exists e. eexists (length (_ ++ _)).
    apply putStateItem_inv in H as [(? & _ & -> & _) | (? & _)]; [|done].
    split_and!; [done | done |]. by rewrite firstn_all. }
  unfold ret in Hrun. simplify_eq. right.
  apply putStateItem_inv in Hput as [(? & ? & _) | (_ & Hput & Ht4 & Hd4)]; [done|].
  rewrite guardrail_PK in Ht4.
  split_and!; [done | done | by rewrite Ht4, Ht3 | congruence].
Qed.

(* ------------------------------------------------------------------ *)
(** ** Both source files at once *)

Lemma processOneUser_in_anatomy src user w s o s' :
  processOneUser_in src user w s = (o, s') →
  let env := World.env w in
  let steamId := trim (User.steamId user) in
  (same_ledger s s' ∧
   ((∃ e, o = Thrown e) ∨
    (resolveTargetGame steamId w s = (Returned None, s) ∧
     o = Returned (Result.mk true (User.name user) 0
                     (Some "no_current_or_recent_game"%string) None None None None))))
  ∨
  ∃ target playerJson f,
    resolveTargetGame steamId w s = (Returned (Some target), s) ∧
    World.GetPlayerAchievements w (Target.appid target) steamId = Json playerJson ∧
    World.ddbGet w (pk_of steamId (Target.appid target)) = None ∧
    let d := diff_of env (World.now w) user target playerJson
               (State.table s !! pk_of steamId (Target.appid target)) in
    fetched_in src w s target d f ∧
    let posts := embeds_in src (ctx_of env user target d f) (Diff.toPost d)
                   ++ celebration_of env user d f in
    ((∃ e k, o = Thrown e ∧ State.table s' = State.table s ∧
             State.delivered s' = State.delivered s ++ take k posts)
     ∨
     (o = Returned (Result.mk true (User.name user)
                      (Z.of_nat (length (Diff.toPost d))) None
                      (Some (Target.appid target)) (Some (fetched_gameTitle f))
                      (Some (progressText_of (unlockedCount_of d) (total_of d f)
                               (percent (unlockedCount_of d) (total_of d f))))
                      (Some (platinum_of d f))) ∧
      World.ddbPut w (item_saved env user target d f) = None ∧
      State.table s' = <[Diff.pk d := item_saved env user target d f]> (State.table s) ∧
      State.delivered s' = State.delivered s ++ posts)).
Proof.
  destruct src; intros Hrun env steamId; cbn [processOneUser_in] in Hrun.
  - by apply processOneUser_anatomy.
  - apply Part000_processOneUser_anatomy in Hrun
      as [? | (target & schema & playerJson & Ht & Hs & Hp & Hget & Hposts)]; [by left|].
    right. exists target, playerJson, (Part000_fetched target schema).
    split_and!; [done..|]. intros d. split; [by exists schema | exact Hposts].
Qed.

(* ------------------------------------------------------------------ *)
(** ** Consequences of the anatomy *)

(** A run that returns for a resolved game went through every step. *)
Lemma processOneUser_returned src user w s r s' target :
  let env := World.env w in
  let steamId := trim (User.steamId user) in
  resolveTargetGame steamId w s = (Returned (Some target), s) →
  processOneUser_in src user w s = (Returned r, s') →
  ∃ playerJson f,
    World.GetPlayerAchievements w (Target.appid target) steamId = Json playerJson ∧
    let d := diff_of env (World.now w) user target playerJson
               (State.table s !! pk_of steamId (Target.appid target)) in
    fetched_in src w s target d f ∧
    r = Result.mk true (User.name user) (Z.of_nat (length (Diff.toPost d))) None
          (Some (Target.appid target)) (Some (fetched_gameTitle f))
          (Some (progressText_of (unlockedCount_of d) (total_of d f)
                   (percent (unlockedCount_of d) (total_of d f))))
          (Some (platinum_of d f)) ∧
    State.table s' = <[Diff.pk d := item_saved env user target d f]> (State.table s) ∧
    State.delivered s' =
      State.delivered s ++ embeds_in src (ctx_of env user target d f) (Diff.toPost d)
        ++ celebration_of env user d f.
Proof.
  intros env steamId Htarget Hrun.
  apply processOneUser_in_anatomy in Hrun
    as [[_ [[e ?] | [Hnone _]]] | (target' & playerJson & f & Ht & Hp & _ & Hf & Hposts)];
    [done | fold steamId in Hnone; congruence |].
  fold steamId in Ht. rewrite Htarget in Ht. simplify_eq.
  destruct Hposts as [(e & k & ? & _) | (Hr & _ & Htable & Hdel)]; [done|].
  exists playerJson, f. simplify_eq. done.
Qed.

(** Whatever the outcome, a run appends to the deliveries a prefix of its
    posts and writes the table last. *)
Lemma processOneUser_effects src user w s o s' :
  let env := World.env w in
  let steamId := trim (User.steamId user) in
  processOneUser_in src user w s = (o, s') →
  same_ledger s s' ∨
  ∃ target playerJson f,
    resolveTargetGame steamId w s = (Returned (Some target), s) ∧
    World.GetPlayerAchievements w (Target.appid target) steamId = Json playerJson ∧
    let d := diff_of env (World.now w) user target playerJson
               (State.table s !! pk_of steamId (Target.appid target)) in
    fetched_in src w s target d f ∧
    (∃ k, State.delivered s' =
            State.delivered s ++
              take k (embeds_in src (ctx_of env user target d f) (Diff.toPost d)
                        ++ celebration_of env user d f)) ∧
    ((∃ e, o = Thrown e) ∧ State.table s' = State.table s ∨
     (∃ r, o = Returned r) ∧
     State.table s' = <[Diff.pk d := item_saved env user target d f]> (State.table s)).
Proof.
  intros env steamId Hrun.
  apply processOneUser_in_anatomy in Hrun
    as [[? _] | (target & playerJson & f & Ht & Hp & _ & Hf & Hposts)]; [by left|].
  right. exists target, playerJson, f. split_and!; [done..|].
  intros d. split; [done|].
  destruct Hposts as [(e & k & -> & Htable & Hdel) | (-> & _ & Htable & Hdel)].
  - split; [by exists k|]. left. eauto.
  - split; [|right; eauto].
    eexists. rewrite firstn_all. done.
Qed.

Lemma guardrail_announced MAX item :
  let safe := Guarded.item (applyDdbSizeGuardrail MAX item) in
  Item.announcedApiNames safe = Item.announcedApiNames item ∨
  (Item.announcedApiNames safe = None ∧ Item.announcedDropped safe = Some true ∧
   MAX < approxUtf8Bytes item ∧
   MAX < approxUtf8Bytes (trim_arrays item (approxUtf8Bytes item))).
Proof.
  intros safe. subst safe. unfold applyDdbSizeGuardrail. cbv zeta.
  destruct (_ <=? MAX) eqn:H1; [by left|]. apply Z.leb_gt in H1.
  destruct (_ >? MAX) eqn:H2; [|by left]. apply Z.gtb_lt in H2.
  right. done.
Qed.

Lemma guardrail_counts MAX item :
  let safe := Guarded.item (applyDdbSizeGuardrail MAX item) in
  Item.unlockedCount safe = Item.unlockedCount item ∧
  Item.lockedCount safe = Item.lockedCount item ∧
  Item.totalAchievements safe = Item.totalAchievements item.
Proof. unfold applyDdbSizeGuardrail. repeat case_match; done. Qed.

Lemma guardrail_platinumAnnounced MAX item :
  Item.platinumAnnounced (Guarded.item (applyDdbSizeGuardrail MAX item))
  = Item.platinumAnnounced item.
Proof. unfold applyDdbSizeGuardrail. repeat case_match; done. Qed.

Lemma toPost_nil_no_posts src env user target d f :
  Diff.toPost d = [] →
  embeds_in src (ctx_of env user target d f) (Diff.toPost d)
    ++ celebration_of env user d f = [].
Proof.
  intros H. unfold celebration_of, celebrates, shouldCelebrate. rewrite H.
  by destruct src.
Qed.

Lemma List_filter_nil {A} (f : A → bool) (l : list A) :
  (∀ x, x ∈ l → f x = false) → List.filter f l = [].
Proof.
  induction l as [|a l IH]; intros H; simpl; [done|].
  rewrite (H a) by left. apply IH. intros x Hx. apply H. by right.
Qed.

Lemma elem_of_unlockedApiNames (playerAch : list PlayerAch.t) (x : string) :
  x ∈ unlockedApiNames_of (unlocked_of playerAch) ↔
  ∃ p, p ∈ playerAch ∧ PlayerAch.achieved p = 1 ∧ PlayerAch.apiname p = x.
Proof.
  unfold unlockedApiNames_of. rewrite list_elem_of_fmap. split.
  - intros (a & -> & (p & Hp & Ha & ->)%elem_of_unlocked_of). by exists p.
  - intros (p & Hp & Ha & <-).
    exists (Unlocked.mk (PlayerAch.apiname p) (default 0 (PlayerAch.unlocktime p))).
    split; [done|]. apply elem_of_unlocked_of. by exists p.
Qed.

(** After the posting loop the set holds what it held before plus the names
    just posted. *)
Lemma elem_of_announced_after (d : Diff.t) (x : string) :
  x ∈ announced_after d ↔
  x ∈ Diff.announcedSet d ∨ ∃ a, a ∈ Diff.toPost d ∧ Unlocked.apiname a = x.
Proof.
  unfold announced_after. rewrite elem_of_foldl_Set_add, list_elem_of_fmap.
  split; (intros [?|(a & ? & ?)]; [by left | right; by exists a]).
Qed.

(* ------------------------------------------------------------------ *)
(** ** C1: the bootstrap rule *)

(** C1 does not hold as stated: with no prior record and one achievement
    unlocked ten seconds ago, the run posts that achievement. *)
Lemma C1_counterexample :
  let w := ex_world ex_now (Json (Some ex_recent)) ex_schema webhook_ok in
  let run := processOneUser ex_user w ex_state0 in
  State.table ex_state0 !! ex_pk = None ∧
  (∃ r, run.1 = Returned r ∧ Result.posted r = 1) ∧
  ∃ e, State.delivered run.2 = [("https://discord.test/hook"%string, EmbedPayload e)] ∧
       Embed.achievementName e = "First Blood"%string.
Proof.
  split; [done|]. split.
  - eexists. split; [vm_compute; reflexivity | done].
  - eexists. split; [vm_compute; reflexivity | done].
Qed.

(** C1, as the code has it, in either source file. When the table holds no
    record for the pair, a run that returns has posted exactly the unlocked
    items inside the recency window, newest first ([toPost] is
    [unlockedRecent], whatever the loaded set), so it posts nothing only when
    no unlocked item is recent; and the announced set it hands to the save is
    the set of every currently unlocked name, which the saved record holds
    unless the guardrail dropped it. *)
Theorem C1_bootstrap_posts_recent_and_seeds_all
    (src : Source) (user : User.t) (w : World.t) (s s' : State.t) (r : Result.t)
    (target : Target.t) :
  let env := World.env w in
  let steamId := trim (User.steamId user) in
  let pk := pk_of steamId (Target.appid target) in
  resolveTargetGame steamId w s = (Returned (Some target), s) →
  State.table s !! pk = None →
  processOneUser_in src user w s = (Returned r, s') →
  ∃ playerJson f,
    World.GetPlayerAchievements w (Target.appid target) steamId = Json playerJson ∧
    let unlocked := unlocked_of (default [] playerJson) in
    let unlockedRecent :=
      unlockedRecent_of unlocked (World.now w / 1000 - windowSeconds_of env user) in
    let d := diff_of env (World.now w) user target playerJson None in
    Diff.toPost d = unlockedRecent ∧
    Result.posted r = Z.of_nat (length unlockedRecent) ∧
    State.delivered s' =
      State.delivered s ++ embeds_in src (ctx_of env user target d f) unlockedRecent
        ++ celebration_of env user d f ∧
    (∀ x, x ∈ announced_after d ↔
          ∃ p, p ∈ default [] playerJson ∧ PlayerAch.achieved p = 1 ∧
               PlayerAch.apiname p = x) ∧
    announced_after d = Set_from (unlockedApiNames_of unlocked) ∧
    ∃ saved,
      State.table s' !! pk = Some saved ∧
      (Item.announcedApiNames saved = Some (Set_from (unlockedApiNames_of unlocked)) ∨
       Item.announcedApiNames saved = None ∧ Item.announcedDropped saved = Some true).
Proof.
  intros env steamId pk Htarget Hnone Hrun.
  apply (processOneUser_returned src _ _ _ _ _ _ Htarget) in Hrun
    as (playerJson & f & Hp & Hrun).
  fold env steamId pk in Hrun. rewrite Hnone in Hrun.
  destruct Hrun as (_ & -> & Htable & Hdel).
  exists playerJson, f. split; [done|].
  intros unlocked unlockedRecent d.
  assert (announced_after d = Set_from (unlockedApiNames_of unlocked)) as Hseed.
  { apply foldl_Set_add_absorb. intros x (a & -> & Ha)%list_elem_of_fmap.
    apply elem_of_Set_from, list_elem_of_fmap. exists a. split; [done|].
    by apply elem_of_unlockedRecent_of in Ha as [? _]. }
  split_and!; [done | done | done | | done |].
  - intros x. rewrite Hseed, elem_of_Set_from. apply elem_of_unlockedApiNames.
  - exists (item_saved env user target d f). split.
    + rewrite Htable. apply lookup_insert_eq.
    + unfold item_saved.
      destruct (guardrail_announced (MAX_ITEM_BYTES env) (item_built user target d f))
        as [H | (H1 & H2 & _)]; [left | right; done].
      rewrite H. simpl. by rewrite Hseed.
Qed.

(** The bootstrap theorem at the run of the counterexample. *)
Lemma C1_witness :
  let w := ex_world ex_now (Json (Some ex_recent)) ex_schema webhook_ok in
  ∃ playerJson,
    World.GetPlayerAchievements w "440" (trim (User.steamId ex_user)) = Json playerJson ∧
    ∃ saved,
      State.table (processOneUser ex_user w ex_state0).2 !! ex_pk = Some saved ∧
      (Item.announcedApiNames saved
         = Some (Set_from (unlockedApiNames_of (unlocked_of (default [] playerJson)))) ∨
       Item.announcedApiNames saved = None ∧ Item.announcedDropped saved = Some true).
Proof.
  intros w.
  destruct (C1_bootstrap_posts_recent_and_seeds_all index_mjs ex_user w ex_state0
              (processOneUser ex_user w ex_state0).2
              (Result.mk true "Ricky" 1 None (Some "440"%string)
                 (Some "Team Fortress 2"%string) (Some "1/2 (50%)"%string) (Some false))
              ex_target)
    as (playerJson & f & Hp & _ & _ & _ & _ & _ & saved & Hs).
  - vm_compute. reflexivity.
  - vm_compute. reflexivity.
  - vm_compute. reflexivity.
  - exists playerJson. split; [exact Hp|]. exists saved. exact Hs.
Defined.

(** The earlier variant posts on the first sighting as well. *)
Example Part000_bootstrap_posts_recent :
  let w := ex_world ex_now (Json (Some ex_recent)) ex_schema webhook_ok in
  ∃ r s' e,
    Part000.processOneUser ex_user w ex_state0 = (Returned r, s') ∧
    Result.posted r = 1 ∧
    State.delivered s' = [("https://discord.test/hook"%string, EmbedPayload e)] ∧
    (Item.announcedApiNames <$> State.table s' !! ex_pk) = Some (Some ["A"%string]).
Proof. eexists _, _, _. split_and!; [vm_compute; reflexivity | done | done | done]. Qed.

(* ------------------------------------------------------------------ *)
(** ** C2: empty and failed snapshots *)

(** C2 does not hold as stated: a 200 answer without an achievement list,
    or with an empty one, is not a failure. The run returns normally, the
    differ sees nothing unlocked and nothing locked, and the record of the
    pair is overwritten with the counts 0/0. *)
Lemma C2_counterexample :
  Item.unlockedCount ex_item_prior = 1 ∧
  ∀ playerJson, playerJson = None ∨ playerJson = Some [] →
    let w := ex_world ex_now (Json playerJson) ex_schema webhook_ok in
    let run := processOneUser ex_user w ex_state1 in
    (∃ r, run.1 = Returned r ∧ Result.ok r = true ∧
          Result.progressText r = Some "0/0 (0%)"%string) ∧
    ∃ saved, State.table run.2 !! ex_pk = Some saved ∧
             Item.unlockedCount saved = 0 ∧ Item.totalAchievements saved = 0 ∧
             Item.unlockedApiNames saved = Some [].
Proof.
  split; [done|].
  intros playerJson [-> | ->]; split;
    (eexists; split; [vm_compute; reflexivity | done]).
Qed.

(** C2, as the code has it. When the player-achievements request fails (a
    status that is not OK, or a rejected fetch or JSON parse), the run throws
    and has posted and written nothing. When the request succeeds with a
    missing or empty achievement list and DynamoDB is healthy, the run
    returns: it posts nothing, reports the progress 0/0 and no platinum, and
    saves a record with nothing unlocked and nothing locked. *)
Theorem C2_only_a_failed_request_aborts
    (user : User.t) (w : World.t) (s : State.t) (target : Target.t) :
  let steamId := trim (User.steamId user) in
  let pk := pk_of steamId (Target.appid target) in
  resolveTargetGame steamId w s = (Returned (Some target), s) →
  ((∀ j, World.GetPlayerAchievements w (Target.appid target) steamId ≠ Json j) →
   ∀ o s', processOneUser user w s = (o, s') →
           (∃ e, o = Thrown e) ∧ same_ledger s s') ∧
  (∀ playerJson,
     World.GetPlayerAchievements w (Target.appid target) steamId = Json playerJson →
     default [] playerJson = [] →
     World.ddbGet w pk = None →
     (∀ i, World.ddbPut w i = None) →
     ∃ r s' saved,
       processOneUser user w s = (Returned r, s') ∧
       Result.ok r = true ∧ Result.posted r = 0 ∧
       Result.progressText r = Some "0/0 (0%)"%string ∧
       Result.platinum r = Some false ∧
       State.delivered s' = State.delivered s ∧
       State.table s' !! pk = Some saved ∧
       Item.unlockedCount saved = 0 ∧ Item.lockedCount saved = 0 ∧
       Item.totalAchievements saved = 0).
Proof.
  intros steamId pk Htarget. split.
  - intros Hfail o s' Hrun.
    apply processOneUser_anatomy in Hrun
      as [[Hsame [He | [Hnone _]]] | (target' & playerJson & f & Ht & Hp & _)].
    + done.
    + fold steamId in Hnone. congruence.
    + fold steamId in Ht, Hp. rewrite Htarget in Ht. simplify_eq.
      by apply Hfail in Hp.
  - intros playerJson Hp Hempty Hget Hput.
    unfold processOneUser. unfold bind at 1, ask. fold steamId.
    unfold bind at 1. rewrite Htarget.
    unfold bind at 1. rewrite Hp. cbn [steamGet ret]. rewrite Hempty.
    unfold pk, pk_of in Hget |- *.
    unfold bind at 1, getState. unfold bind at 1 2, ask, get. rewrite Hget.
    cbn [ret Loaded.exists_ Loaded.announcedApiNames Loaded.platinumAnnounced].
    assert (∀ b set cutoff,
              toPost_of b set (unlockedRecent_of (unlocked_of []) cutoff) = []) as Hnil
      by (by intros [] ? ?).
    rewrite !Hnil.
    change (unlockedApiNames_of (unlocked_of [])) with (@nil string).
    change (lockedApiNames_of []) with (@nil string).
    unfold bind, ret, postAll, shouldCelebrate, putStateItem, ask, get, put.
    change (Z.of_nat (length [])) with 0. change (0 <? 0) with false.
    cbn beta iota zeta delta [andb totalAchievements_of Z.add].
    unfold ret, bind, ask. cbn beta iota zeta. rewrite Hput.
    unfold bind, get, put. cbn beta iota zeta.
    eexists _, _, _. split; [reflexivity|].
    cbn [Result.ok Result.posted Result.progressText Result.platinum
         State.delivered State.table set_table set_delivered].
    rewrite guardrail_PK. cbn [Item.PK item_of].
    fold (pk_of steamId (Target.appid target)). fold pk.
    rewrite lookup_insert_eq.
    destruct (guardrail_counts (MAX_ITEM_BYTES (World.env w))
                (item_of pk (User.name user) steamId (Target.appid target)
                   (Target.gameTitle target) (0 + 0) 0 0
                   (progressText_of 0 (0 + 0) (percent 0 (0 + 0))) [] []
                   (announcedSet_of
                      match State.table s !! pk with Some _ => true | None => false end
                      (loaded_announced (State.table s !! pk)) [])
                   match State.table s !! pk with
                   | Some i => Item.platinumAnnounced i
                   | None => false
                   end (World.now w `div` 1000)))
      as (H1 & H2 & H3).
    split_and!; done.
Qed.

(** The second half of the theorem at the world of the counterexample. *)
Lemma C2_witness :
  let w := ex_world ex_now (Json None) ex_schema webhook_ok in
  ∃ r s' saved,
    processOneUser ex_user w ex_state1 = (Returned r, s') ∧
    Result.progressText r = Some "0/0 (0%)"%string ∧
    State.table s' !! ex_pk = Some saved ∧ Item.unlockedCount saved = 0.
Proof.
  intros w.
  destruct (C2_only_a_failed_request_aborts ex_user w ex_state1 ex_target) as [_ Hb].
  - vm_compute. reflexivity.
  - destruct (Hb None) as (r & s' & saved & H1 & _ & _ & H2 & _ & _ & H3 & H4 & _).
    + reflexivity.
    + reflexivity.
    + reflexivity.
    + intros i. reflexivity.
    + exists r, s', saved. split_and!; [exact H1 | exact H2 | exact H3 | exact H4].
Defined.

(* ------------------------------------------------------------------ *)
(** ** C3: the size guardrail *)

(** C3, as the code has it. A record within the budget is returned as it
    is. A record over the budget loses [unlockedApiNames], [lockedApiNames]
    and [unannouncedUnlockedApiNames] together, in one step and with no size
    check in between, and gains [arraysTruncated] and
    [approxBytesBeforeTruncate]. [announcedApiNames] is dropped, and
    [announcedDropped] set, only if the record without the three arrays is
    still over the budget. The reported size is the size of the returned
    record, and the key, title, counts and platinum flag are never dropped. *)
Theorem C3_guardrail_drops_arrays_together (MAX : Z) (item : Item.t) :
  let g := applyDdbSizeGuardrail MAX item in
  let trimmed := trim_arrays item (approxUtf8Bytes item) in
  (approxUtf8Bytes item ≤ MAX →
   Guarded.item g = item ∧ Guarded.truncated g = false) ∧
  (MAX < approxUtf8Bytes item →
   Guarded.truncated g = true ∧
   Item.unlockedApiNames (Guarded.item g) = None ∧
   Item.lockedApiNames (Guarded.item g) = None ∧
   Item.unannouncedUnlockedApiNames (Guarded.item g) = None ∧
   Item.arraysTruncated (Guarded.item g) = Some true ∧
   Item.approxBytesBeforeTruncate (Guarded.item g) = Some (approxUtf8Bytes item) ∧
   (approxUtf8Bytes trimmed ≤ MAX →
    Guarded.item g = trimmed ∧
    Item.announcedApiNames (Guarded.item g) = Item.announcedApiNames item ∧
    Item.announcedDropped (Guarded.item g) = Item.announcedDropped item) ∧
   (MAX < approxUtf8Bytes trimmed →
    Guarded.item g = drop_announced trimmed ∧
    Item.announcedApiNames (Guarded.item g) = None ∧
    Item.announcedDropped (Guarded.item g) = Some true)) ∧
  Guarded.bytes g = approxUtf8Bytes (Guarded.item g) ∧
  Item.PK (Guarded.item g) = Item.PK item ∧
  Item.gameTitle (Guarded.item g) = Item.gameTitle item ∧
  Item.totalAchievements (Guarded.item g) = Item.totalAchievements item ∧
  Item.unlockedCount (Guarded.item g) = Item.unlockedCount item ∧
  Item.platinumAnnounced (Guarded.item g) = Item.platinumAnnounced item.
Proof.
  intros g trimmed. subst g trimmed. unfold applyDdbSizeGuardrail.
  destruct (approxUtf8Bytes item <=? MAX) eqn:Hfit.
  { apply Z.leb_le in Hfit. split_and!; try done. lia. }
  apply Z.leb_gt in Hfit.
  destruct (approxUtf8Bytes (trim_arrays item (approxUtf8Bytes item)) >? MAX) eqn:Hfit2.
  - apply Z.gtb_lt in Hfit2. split_and!; try done; try lia.
    intros _. split_and!; try done. lia.
  - apply Zgtb_false_le in Hfit2. split_and!; try done; try lia.
    intros _. split_and!; try done. lia.
Qed.

Lemma guardrail_over_budget MAX item :
  MAX < approxUtf8Bytes item →
  let safe := Guarded.item (applyDdbSizeGuardrail MAX item) in
  Item.unlockedApiNames safe = None ∧ Item.lockedApiNames safe = None ∧
  Item.unannouncedUnlockedApiNames safe = None.
Proof.
  intros Hover safe. subst safe. unfold applyDdbSizeGuardrail. cbv zeta.
  destruct (_ <=? MAX) eqn:H1; [apply Z.leb_le in H1; lia|].
  by destruct (_ >? MAX).
Qed.

Lemma ex_big_item_bytes : approxUtf8Bytes ex_big_item = 154161.
Proof. vm_compute. reflexivity. Qed.

Lemma ex_big_item_bytes_without_unlocked :
  approxUtf8Bytes (spec_drop_unlockedApiNames_only ex_big_item 154161) = 77308.
Proof. vm_compute. reflexivity. Qed.

(** C3 does not hold as stated: the record below exceeds a budget of 100000
    bytes (the smallest the configuration allows) and would fit with
    [unlockedApiNames] alone dropped, yet the guardrail returns it without
    [lockedApiNames] and without [unannouncedUnlockedApiNames] as well. *)
Lemma C3_counterexample :
  MAX_ITEM_BYTES_of (Some 100000) = 100000 ∧
  100000 < approxUtf8Bytes ex_big_item ∧
  approxUtf8Bytes
    (spec_drop_unlockedApiNames_only ex_big_item (approxUtf8Bytes ex_big_item))
  ≤ 100000 ∧
  Item.lockedApiNames ex_big_item = Some ["FINAL_BOSS"%string] ∧
  Item.lockedApiNames
    (Guarded.item (applyDdbSizeGuardrail 100000 ex_big_item)) = None ∧
  Item.unannouncedUnlockedApiNames ex_big_item ≠ None ∧
  Item.unannouncedUnlockedApiNames
    (Guarded.item (applyDdbSizeGuardrail 100000 ex_big_item)) = None.
Proof.
  assert (100000 < approxUtf8Bytes ex_big_item) as Hover
    by (rewrite ex_big_item_bytes; lia).
  destruct (guardrail_over_budget 100000 ex_big_item Hover) as (_ & H2 & H3).
  split_and!; [reflexivity | exact Hover | | reflexivity | exact H2 | discriminate | exact H3].
  rewrite ex_big_item_bytes, ex_big_item_bytes_without_unlocked. lia.
Qed.

(** The guardrail theorem at the record of the counterexample. *)
Lemma C3_witness :
  Item.unlockedApiNames
    (Guarded.item (applyDdbSizeGuardrail 100000 ex_big_item)) = None ∧
  Item.lockedApiNames
    (Guarded.item (applyDdbSizeGuardrail 100000 ex_big_item)) = None.
Proof.
  destruct (C3_guardrail_drops_arrays_together 100000 ex_big_item) as (_ & H & _).
  destruct H as (_ & H1 & H2 & _).
  - rewrite ex_big_item_bytes. reflexivity.
  - split; [exact H1 | exact H2].
Defined.

(* ------------------------------------------------------------------ *)
(** ** C4: a failed unit *)

(** C4 does not hold as stated: when Discord rejects the second of two
    posts, the run throws after the first post was delivered. The table is
    untouched. *)
Lemma C4_counterexample :
  let w := ex_world ex_now (Json (Some ex_two_recent)) ex_schema webhook_second_fails in
  let run := processOneUser ex_user w ex_state0 in
  run.1 = Thrown "Discord webhook error 429: rate limited" ∧
  (∃ e, State.delivered run.2 = [("https://discord.test/hook"%string, EmbedPayload e)] ∧
        Embed.achievementName e = "First Blood"%string) ∧
  State.delivered ex_state0 = [] ∧
  State.table run.2 = State.table ex_state0.
Proof.
  split_and!; [vm_compute; reflexivity | | done | vm_compute; reflexivity].
  eexists. split; [vm_compute; reflexivity | done].
Qed.

(** C4, as the code has it, in either source file. A run that throws has
    not written the state table: the save is the last step and a failed save
    changes nothing.
    It has sent no notification when it failed before the posting loop;
    otherwise the notifications it sent before the failing step, a prefix of
    the posts of the run in posting order, stay delivered. Conversely a run
    that changed the table has returned. *)
Theorem C4_failed_unit_writes_no_ledger
    (src : Source) (user : User.t) (w : World.t) (s s' : State.t)
    (o : Outcome Result.t) :
  let env := World.env w in
  let steamId := trim (User.steamId user) in
  processOneUser_in src user w s = (o, s') →
  ((∃ e, o = Thrown e) →
   State.table s' = State.table s ∧
   (State.delivered s' = State.delivered s ∨
    ∃ target playerJson f k,
      resolveTargetGame steamId w s = (Returned (Some target), s) ∧
      World.GetPlayerAchievements w (Target.appid target) steamId = Json playerJson ∧
      let d := diff_of env (World.now w) user target playerJson
                 (State.table s !! pk_of steamId (Target.appid target)) in
      State.delivered s' =
        State.delivered s ++
          take k (embeds_in src (ctx_of env user target d f) (Diff.toPost d)
                    ++ celebration_of env user d f))) ∧
  (State.table s' ≠ State.table s → ∃ r, o = Returned r).
Proof.
  intros env steamId Hrun.
  apply (processOneUser_effects src) in Hrun
    as [[Ht Hd] | (target & playerJson & f & Htarget & Hp & _ & [k Hd] & Hout)].
  { split; [intros _; split; [done | by left] | done]. }
  destruct Hout as [[[e ->] Ht] | [[r ->] Ht]].
  - split; [|done]. intros _. split; [done|]. right.
    exists target, playerJson, f, k. done.
  - split; [by intros [e ?] | eauto].
Qed.

(** The theorem at the run of the counterexample. *)
Lemma C4_witness :
  let w := ex_world ex_now (Json (Some ex_two_recent)) ex_schema webhook_second_fails in
  State.table (processOneUser ex_user w ex_state0).2 = State.table ex_state0.
Proof.
  intros w.
  destruct (C4_failed_unit_writes_no_ledger index_mjs ex_user w ex_state0
              (processOneUser ex_user w ex_state0).2
              (Thrown "Discord webhook error 429: rate limited")) as [H _].
  - vm_compute. reflexivity.
  - destruct H as [H _]; [by eexists | exact H].
Defined.

(** The earlier variant behaves alike: one post delivered, no record
    written. *)
Example Part000_failed_unit_keeps_first_post :
  let w := ex_world ex_now (Json (Some ex_two_recent)) ex_schema webhook_second_fails in
  let run := Part000.processOneUser ex_user w ex_state0 in
  run.1 = Thrown "Discord webhook error 429: rate limited" ∧
  length (State.delivered run.2) = 1%nat ∧
  State.table run.2 = State.table ex_state0.
Proof. split_and!; vm_compute; reflexivity. Qed.

(* ------------------------------------------------------------------ *)
(** ** C5: the completion condition *)

Lemma isPlatinum_of_true (totalAchievements unlockedCount : Z) :
  isPlatinum_of totalAchievements unlockedCount = true ↔
  0 < totalAchievements ∧ unlockedCount = totalAchievements.
Proof. unfold isPlatinum_of. rewrite andb_true_iff, Z.gtb_lt, Z.eqb_eq. done. Qed.

(** In the earlier variant the schema is fetched on every run, and the
    reported platinum flag compares the unlocked count with its total. *)
Lemma Part000_processOneUser_platinum user w s r s' target :
  let steamId := trim (User.steamId user) in
  resolveTargetGame steamId w s = (Returned (Some target), s) →
  Part000.processOneUser user w s = (Returned r, s') →
  ∃ schema playerJson,
    (getSchemaForApp (Target.appid target) w s).1 = Returned schema ∧
    World.GetPlayerAchievements w (Target.appid target) steamId = Json playerJson ∧
    Result.platinum r =
      Some (isPlatinum_of (Schema.totalCount schema)
              (Z.of_nat (length (unlockedApiNames_of
                                   (unlocked_of (default [] playerJson)))))).
Proof.
  intros steamId Htarget Hrun.
  unfold Part000.processOneUser in Hrun. unfold bind at 1, ask in Hrun.
  fold steamId in Hrun.
  apply bind_inv in Hrun as [(e & _ & ?) | (target' & s1 & Ht & Hrun)]; [done|].
  rewrite Htarget in Ht. simplify_eq.
  apply bind_inv in Hrun as [(e & _ & ?) | (schema & s2 & Hschema & Hrun)]; [done|].
  apply bind_inv in Hrun as [(e & _ & ?) | (playerJson & s3 & Hp & Hrun)]; [done|].
  apply steamGet_inv in Hp as [-> [(j & Hp & ?) | (? & ? & _)]]; [|done].
  simplify_eq.
  apply bind_inv in Hrun as [(e & _ & ?) | (st & s3 & _ & Hrun)]; [done|].
  apply bind_inv in Hrun as [(e & _ & ?) | (set & s4 & _ & Hrun)]; [done|].
  apply bind_inv in Hrun as [(e & _ & ?) | (flag & s5 & _ & Hrun)]; [done|].
  apply bind_inv in Hrun as [(e & _ & ?) | ([] & s6 & _ & Hrun)]; [done|].
  unfold ret in Hrun. simplify_eq.
  exists schema, j. by rewrite Hschema.
Qed.

(** C5 does not hold as stated for [src/index.mjs]: with nothing to post the
    schema is not fetched (here the schema endpoint is even down and the cache
    empty), the total is taken from the player list, and a player list with
    its only achievement unlocked makes the run report platinum. *)
Lemma C5_counterexample :
  let w := ex_world ex_now (Json (Some ex_old)) (NotOk 500 "down") webhook_ok in
  (∀ j, World.GetSchemaForGame w "440" ≠ Json j) ∧
  State.schemaCache ex_state0 !! "440"%string = None ∧
  ∃ r, (processOneUser ex_user w ex_state0).1 = Returned r ∧
       Result.posted r = 0 ∧ Result.platinum r = Some true.
Proof.
  split_and!; [done | done |].
  eexists. split; [vm_compute; reflexivity | done].
Qed.

(** C5, as the code has it. A run of [src/index.mjs] that returns for a
    resolved game reports [platinum] as [total > 0 && unlockedCount == total].
    When there is something to post, [total] is the achievement count of the
    provider schema. When there is nothing to post the schema is not
    consulted, [total] is the size of the player list, and the run reports
    platinum exactly when that list has an unlocked entry and no locked one.
    In [src/unnamed/part_000] the schema is fetched on every run and the
    total is always the schema's. *)
Theorem C5_completion_total_falls_back_to_player_list
    (user : User.t) (w : World.t) (s : State.t) (target : Target.t) :
  let env := World.env w in
  let steamId := trim (User.steamId user) in
  resolveTargetGame steamId w s = (Returned (Some target), s) →
  (∀ r s', processOneUser user w s = (Returned r, s') →
     ∃ playerJson f,
       World.GetPlayerAchievements w (Target.appid target) steamId = Json playerJson ∧
       let d := diff_of env (World.now w) user target playerJson
                  (State.table s !! pk_of steamId (Target.appid target)) in
       Result.platinum r = Some (platinum_of d f) ∧
       (Diff.toPost d = [] →
        fetched_totalCount f = None ∧
        (platinum_of d f = true ↔ 0 < unlockedCount_of d ∧ lockedCount_of d = 0)) ∧
       (Diff.toPost d ≠ [] →
        ∃ schema,
          (getSchemaForApp (Target.appid target) w s).1 = Returned schema ∧
          fetched_totalCount f = Some (Schema.totalCount schema) ∧
          (platinum_of d f = true ↔
           0 < Schema.totalCount schema ∧
           unlockedCount_of d = Schema.totalCount schema))) ∧
  (∀ r s', Part000.processOneUser user w s = (Returned r, s') →
     ∃ schema playerJson isComplete,
       (getSchemaForApp (Target.appid target) w s).1 = Returned schema ∧
       World.GetPlayerAchievements w (Target.appid target) steamId = Json playerJson ∧
       Result.platinum r = Some isComplete ∧
       (isComplete = true ↔
        0 < Schema.totalCount schema ∧
        Z.of_nat (length (unlockedApiNames_of (unlocked_of (default [] playerJson))))
        = Schema.totalCount schema)).
Proof.
  intros env steamId Htarget. split.
  - intros r s' Hrun.
    apply (processOneUser_returned index_mjs _ _ _ _ _ _ Htarget) in Hrun
      as (playerJson & f & Hp & Hf & -> & _).
    exists playerJson, f. split; [done|]. intros d. split; [done|].
    fold env steamId d in Hf. unfold platinum_of, total_of. split.
    + intros Hnil. destruct Hf as [[_ ->] | [? _]]; [|done].
      split; [done|]. rewrite isPlatinum_of_true.
      cbn [fetched_totalCount fst snd totalAchievements_of].
      unfold unlockedCount_of, lockedCount_of. lia.
    + intros Hpost. destruct Hf as [[? _] | (_ & schema & rarityMap & Hs & ->)]; [done|].
      exists schema. split_and!; [done | done |].
      by rewrite isPlatinum_of_true.
  - intros r s' Hrun.
    apply (Part000_processOneUser_platinum _ _ _ _ _ _ Htarget) in Hrun
      as (schema & playerJson & Hs & Hp & Hr).
    exists schema, playerJson. eexists. split_and!; [done..|].
    apply isPlatinum_of_true.
Qed.

(** The theorem at the run of the counterexample. *)
Lemma C5_witness :
  let w := ex_world ex_now (Json (Some ex_old)) (NotOk 500 "down") webhook_ok in
  ∃ playerJson f,
    Result.platinum
      (Result.mk true "Ricky" 0 None (Some "440"%string) (Some "Team Fortress 2"%string)
         (Some "1/1 (100%)"%string) (Some true))
    = Some (platinum_of
              (diff_of ex_env ex_now ex_user ex_target playerJson
                 (State.table ex_state0 !! ex_pk)) f).
Proof.
  intros w.
  destruct (C5_completion_total_falls_back_to_player_list ex_user w ex_state0 ex_target)
    as [H _].
  - vm_compute. reflexivity.
  - destruct (H (Result.mk true "Ricky" 0 None (Some "440"%string)
                   (Some "Team Fortress 2"%string) (Some "1/1 (100%)"%string) (Some true))
                (processOneUser ex_user w ex_state0).2)
      as (playerJson & f & _ & Hr & _).
    + vm_compute. reflexivity.
    + exists playerJson, f. exact Hr.
Defined.

(* ------------------------------------------------------------------ *)
(** ** C6: no double notification *)

(** Reconciling the same player list against the announced set a first
    reconciliation produced leaves nothing to post, provided the clock did
    not go back. *)
Lemma toPost_after_save env user target playerJson out_Item now1 now2 saved :
  let d1 := diff_of env now1 user target playerJson out_Item in
  Item.announcedApiNames saved = Some (announced_after d1) →
  now1 ≤ now2 →
  Diff.toPost (diff_of env now2 user target playerJson (Some saved)) = [].
Proof.
  intros d1 Hsaved Hnow. cbn [diff_of Diff.toPost toPost_of].
  apply List_filter_nil. intros a Ha.
  apply negb_false_iff, Set_has_true.
  cbn [announcedSet_of loaded_announced]. rewrite Hsaved.
  apply elem_of_Set_from, elem_of_announced_after.
  apply (unlockedRecent_of_mono _ (now1 `div` 1000 - windowSeconds_of env user)) in Ha;
    [|apply Z.sub_le_mono_r, Z.div_le_mono; lia].
  destruct (decide (Unlocked.apiname a ∈ Diff.announcedSet d1)) as [Hin | Hout];
    [by left | right].
  exists a. split; [|done].
  apply elem_of_toPost_of. done.
Qed.

(** C6. Two runs in a row of either source file for the same pair: the
    first returns and its record keeps the announced set (the guardrail did
    not drop it); the second sees the same player list, loads the record the first persisted,
    and does not run at an earlier time. Then the second run has nothing to
    post: it delivers nothing, and if it returns it reports zero posts. *)
Theorem C6_no_double_notification
    (src : Source) (user : User.t) (w1 w2 : World.t) (s1 s1' s2 s2' : State.t)
    (r1 : Result.t) (o2 : Outcome Result.t) (target : Target.t) :
  let steamId := trim (User.steamId user) in
  let pk := pk_of steamId (Target.appid target) in
  resolveTargetGame steamId w1 s1 = (Returned (Some target), s1) →
  processOneUser_in src user w1 s1 = (Returned r1, s1') →
  (∃ saved, State.table s1' !! pk = Some saved ∧ Item.announcedApiNames saved ≠ None) →
  World.env w2 = World.env w1 →
  World.GetPlayerAchievements w2 (Target.appid target) steamId
  = World.GetPlayerAchievements w1 (Target.appid target) steamId →
  resolveTargetGame steamId w2 s2 = (Returned (Some target), s2) →
  State.table s2 !! pk = State.table s1' !! pk →
  World.now w1 ≤ World.now w2 →
  processOneUser_in src user w2 s2 = (o2, s2') →
  State.delivered s2' = State.delivered s2 ∧
  (∀ r2, o2 = Returned r2 → Result.posted r2 = 0) ∧
  ∃ playerJson,
    World.GetPlayerAchievements w2 (Target.appid target) steamId = Json playerJson ∧
    Diff.toPost (diff_of (World.env w2) (World.now w2) user target playerJson
                   (State.table s2 !! pk)) = [].
Proof.
  intros steamId pk Ht1 Hrun1 (saved & Hsaved & Hkept) Henv Hsame Ht2 Htable Hnow Hrun2.
  apply (processOneUser_returned src _ _ _ _ _ _ Ht1) in Hrun1
    as (playerJson & f1 & Hp1 & _ & _ & Htable1 & _).
  fold steamId pk in Hp1, Htable1.
  set (d1 := diff_of (World.env w1) (World.now w1) user target playerJson
               (State.table s1 !! pk)) in *.
  rewrite Htable1 in Hsaved. cbn [diff_of Diff.pk] in Hsaved.
  fold pk in Hsaved. rewrite lookup_insert_eq in Hsaved. simplify_eq.
  assert (Item.announcedApiNames (item_saved (World.env w1) user target d1 f1)
          = Some (announced_after d1)) as Hann.
  { unfold item_saved in Hkept |- *.
    by destruct (guardrail_announced (MAX_ITEM_BYTES (World.env w1))
                   (item_built user target d1 f1)) as [-> | [? _]]. }
  assert (Diff.toPost (diff_of (World.env w2) (World.now w2) user target playerJson
                         (State.table s2 !! pk)) = []) as Hnil.
  { rewrite Htable, Htable1. cbn [diff_of Diff.pk]. fold pk.
    rewrite lookup_insert_eq, Henv.
    by apply (toPost_after_save _ _ _ _ (State.table s1 !! pk) (World.now w1)). }
  assert (World.GetPlayerAchievements w2 (Target.appid target) steamId = Json playerJson)
    as Hp2 by congruence.
  split_and!; [| |by exists playerJson].
  - apply (processOneUser_effects src) in Hrun2
      as [[_ ?] | (target' & playerJson' & f2 & Ht & Hp & _ & [k Hd] & _)]; [done|].
    fold steamId in Ht, Hp, Hd. rewrite Ht2 in Ht. simplify_eq.
    rewrite Hp2 in Hp. simplify_eq. fold pk in Hd.
    rewrite toPost_nil_no_posts in Hd by done.
    by rewrite take_nil, app_nil_r in Hd.
  - intros r2 ->.
    apply (processOneUser_returned src _ _ _ _ _ _ Ht2) in Hrun2
      as (playerJson' & f2 & Hp & _ & -> & _).
    fold steamId in Hp. rewrite Hp2 in Hp. simplify_eq.
    fold steamId pk. cbn [Result.posted]. by rewrite Hnil.
Qed.

(** The theorem at two runs a minute apart over the same player list. *)
Lemma C6_witness :
  let w1 := ex_world ex_now (Json (Some ex_recent)) ex_schema webhook_ok in
  let w2 := ex_world (ex_now + 60000) (Json (Some ex_recent)) ex_schema webhook_ok in
  let s1' := (processOneUser ex_user w1 ex_state0).2 in
  State.delivered (processOneUser ex_user w2 s1').2 = State.delivered s1'.
Proof.
  intros w1 w2 s1'.
  destruct (C6_no_double_notification index_mjs ex_user w1 w2 ex_state0 s1' s1'
              (processOneUser ex_user w2 s1').2
              (Result.mk true "Ricky" 1 None (Some "440"%string)
                 (Some "Team Fortress 2"%string) (Some "1/2 (50%)"%string) (Some false))
              (processOneUser ex_user w2 s1').1 ex_target) as [H _].
  - vm_compute. reflexivity.
  - vm_compute. reflexivity.
  - eexists. split; [vm_compute; reflexivity | discriminate].
  - reflexivity.
  - reflexivity.
  - vm_compute. reflexivity.
  - reflexivity.
  - vm_compute. discriminate.
  - apply surjective_pairing.
  - exact H.
Defined.

(* ------------------------------------------------------------------ *)
(** ** C7: the completion gate *)

Lemma shouldCelebrate_true toPost isPlatinum platinumFlag :
  shouldCelebrate toPost isPlatinum platinumFlag = true ↔
  isPlatinum = true ∧ platinumFlag = false ∧ toPost ≠ [].
Proof.
  unfold shouldCelebrate. rewrite !andb_true_iff, negb_true_iff, Z.ltb_lt.
  destruct toPost; simpl; split; intros H; destruct_and?; split_and?;
    try done; lia.
Qed.

Lemma latched_step src user w s o s' pk :
  processOneUser_in src user w s = (o, s') → latched s pk → latched s' pk.
Proof.
  intros Hrun (i & Hi & Hlatch).
  apply (processOneUser_effects src) in Hrun
    as [[Ht _] | (target & playerJson & f & _ & _ & _ & _ & [[_ Ht] | [_ Ht]])].
  - exists i. by rewrite Ht.
  - exists i. by rewrite Ht.
  - unfold latched. rewrite Ht. cbn [diff_of Diff.pk].
    destruct (decide (pk_of (trim (User.steamId user)) (Target.appid target) = pk))
      as [<- | Hne].
    + eexists. split; [apply lookup_insert_eq|].
      unfold item_saved. rewrite guardrail_platinumAnnounced.
      cbn [item_built item_of Item.platinumAnnounced diff_of Diff.platinumFlag].
      by rewrite Hi, Hlatch.
    + exists i. by rewrite lookup_insert_ne.
Qed.

Lemma latched_runs l s pk : latched s pk → latched (runs l s) pk.
Proof.
  revert s. induction l as [|[[src user] w] l IH]; intros s H; simpl; [done|].
  apply IH. eapply latched_step; [apply surjective_pairing | done].
Qed.

Lemma Forall_take_embeds src c toPost k :
  Forall is_embed (take k (embeds_in src c toPost ++ [])).
Proof.
  apply Forall_take. rewrite app_nil_r.
  destruct src; apply Forall_fmap, Forall_forall; intros a _; by eexists.
Qed.

(** C7, in either source file. The test of step 6 is true exactly when the
    run found the game complete, the loaded latch was off and something was
    posted this run.
    A run that returns has then sent the platinum message after its
    achievement posts, and sent none otherwise; the latch it saves is the
    loaded latch or-ed with that test. Once the table holds a set latch
    for a pair it stays set through any further runs, whatever they observe
    and however they end, and every later run for that pair delivers
    achievement embeds only. *)
Theorem C7_completion_gate
    (src : Source) (user : User.t) (w : World.t) (s s' : State.t)
    (o : Outcome Result.t) (target : Target.t) :
  let env := World.env w in
  let steamId := trim (User.steamId user) in
  let pk := pk_of steamId (Target.appid target) in
  resolveTargetGame steamId w s = (Returned (Some target), s) →
  processOneUser_in src user w s = (o, s') →
  (∀ toPost isPlatinum platinumFlag,
     shouldCelebrate toPost isPlatinum platinumFlag = true ↔
     isPlatinum = true ∧ platinumFlag = false ∧ toPost ≠ []) ∧
  (∀ r, o = Returned r →
     ∃ playerJson f saved,
       let d := diff_of env (World.now w) user target playerJson (State.table s !! pk) in
       Result.platinum r = Some (platinum_of d f) ∧
       State.delivered s' =
         State.delivered s ++ embeds_in src (ctx_of env user target d f) (Diff.toPost d)
           ++ (if shouldCelebrate (Diff.toPost d) (platinum_of d f) (Diff.platinumFlag d)
               then [(webhookUrl_of env user,
                      PlatinumPayload (User.name user) (fetched_gameTitle f)
                        (if truthy (Env.PLATINUM_IMAGE_URL env)
                         then Some (Env.PLATINUM_IMAGE_URL env) else None))]
               else []) ∧
       State.table s' !! pk = Some saved ∧
       Item.platinumAnnounced saved =
         Diff.platinumFlag d
         || shouldCelebrate (Diff.toPost d) (platinum_of d f) (Diff.platinumFlag d)) ∧
  (latched s pk →
   (∃ new, State.delivered s' = State.delivered s ++ new ∧ Forall is_embed new) ∧
   ∀ later, latched (runs later s') pk).
Proof.
  intros env steamId pk Htarget Hrun. split_and!.
  - apply shouldCelebrate_true.
  - intros r ->.
    apply (processOneUser_returned src _ _ _ _ _ _ Htarget) in Hrun
      as (playerJson & f & _ & _ & -> & Htable & Hdel).
    exists playerJson, f. eexists. intros d. split_and!; [done | exact Hdel | |].
    + rewrite Htable. apply lookup_insert_eq.
    + unfold item_saved. by rewrite guardrail_platinumAnnounced.
  - intros Hlatched. split.
    + destruct Hlatched as (i & Hi & Hlatch).
      apply (processOneUser_effects src) in Hrun
        as [[_ Hd] | (target' & playerJson & f & Ht & _ & _ & [k Hd] & _)].
      { exists []. by rewrite app_nil_r. }
      fold steamId in Ht. rewrite Htarget in Ht. simplify_eq.
      eexists. split; [exact Hd|].
      unfold celebration_of, celebrates.
      cbn [diff_of Diff.platinumFlag]. fold steamId pk. rewrite Hi, Hlatch.
      unfold shouldCelebrate. rewrite andb_false_r.
      apply Forall_take_embeds.
    + intros later. apply latched_runs. by eapply latched_step.
Qed.

(** The theorem at a run that posts a new achievement of a complete game
    whose latch is already set. *)
Lemma C7_witness :
  let w := ex_world ex_now (Json (Some ex_two_recent)) ex_schema webhook_ok in
  let run := processOneUser ex_user w ex_state_latched in
  ∃ new, State.delivered run.2 = State.delivered ex_state_latched ++ new ∧
         Forall is_embed new.
Proof.
  intros w run.
  destruct (C7_completion_gate index_mjs ex_user w ex_state_latched run.2 run.1 ex_target)
    as (_ & _ & H).
  - vm_compute. reflexivity.
  - apply surjective_pairing.
  - destruct H as [H _]; [|exact H].
    eexists. split; [vm_compute; reflexivity | reflexivity].
Defined.

(* ------------------------------------------------------------------ *)
(** ** C8: the announced set only grows *)

Lemma guardrail_bytes_before MAX item :
  MAX < approxUtf8Bytes item →
  Item.approxBytesBeforeTruncate (Guarded.item (applyDdbSizeGuardrail MAX item))
  = Some (approxUtf8Bytes item).
Proof.
  intros Hover. unfold applyDdbSizeGuardrail. cbv zeta.
  destruct (_ <=? MAX) eqn:H1; [apply Z.leb_le in H1; lia|].
  by destruct (_ >? MAX).
Qed.

(** C8, in either source file. A run that returns saves, under the key of
    the pair, the record it built from the player list, the record it loaded
    and what it fetched, passed through the guardrail. The saved
    [announcedApiNames] contains every name the stored record listed, in
    [announcedApiNames] or, when that field is absent, in the legacy
    [announced] field; and it contains nothing but such stored names and names
    of entries the player list shows unlocked. The one exception is the last
    resort of the guardrail: the built record, and the built record without
    its three arrays, both exceed [MAX_ITEM_BYTES], and then the saved record
    has no [announcedApiNames], carries [announcedDropped] and records the
    size the built record had. *)
Theorem C8_announced_set_monotone
    (src : Source) (user : User.t) (w : World.t) (s s' : State.t) (r : Result.t)
    (target : Target.t) :
  let env := World.env w in
  let steamId := trim (User.steamId user) in
  let pk := pk_of steamId (Target.appid target) in
  resolveTargetGame steamId w s = (Returned (Some target), s) →
  processOneUser_in src user w s = (Returned r, s') →
  ∃ playerJson f saved,
    World.GetPlayerAchievements w (Target.appid target) steamId = Json playerJson ∧
    let d := diff_of env (World.now w) user target playerJson (State.table s !! pk) in
    let built := item_built user target d f in
    fetched_in src w s target d f ∧
    Result.gameTitle r = Some (Item.gameTitle built) ∧
    State.table s' !! pk = Some saved ∧
    saved = Guarded.item (applyDdbSizeGuardrail (MAX_ITEM_BYTES env) built) ∧
    ((∃ announced,
        Item.announcedApiNames saved = Some announced ∧
        (∀ prior stored x,
           State.table s !! pk = Some prior →
           Item.announcedApiNames prior = Some stored →
           x ∈ stored → x ∈ announced) ∧
        (∀ prior legacy x,
           State.table s !! pk = Some prior →
           Item.announcedApiNames prior = None → Item.announced prior = Some legacy →
           x ∈ legacy → x ∈ announced) ∧
        (∀ x, x ∈ announced →
              (∃ prior stored,
                 State.table s !! pk = Some prior ∧ x ∈ stored ∧
                 (Item.announcedApiNames prior = Some stored ∨
                  Item.announcedApiNames prior = None ∧
                  Item.announced prior = Some stored)) ∨
              ∃ p, p ∈ default [] playerJson ∧ PlayerAch.achieved p = 1 ∧
                   PlayerAch.apiname p = x)) ∨
     (Item.announcedApiNames saved = None ∧
      Item.announcedDropped saved = Some true ∧
      Item.approxBytesBeforeTruncate saved = Some (approxUtf8Bytes built) ∧
      MAX_ITEM_BYTES env < approxUtf8Bytes built ∧
      MAX_ITEM_BYTES env < approxUtf8Bytes (trim_arrays built (approxUtf8Bytes built)))).
Proof.
  intros env steamId pk Htarget Hrun.
  apply (processOneUser_returned src _ _ _ _ _ _ Htarget) in Hrun
    as (playerJson & f & Hp & Hrest).
  cbv zeta in Hrest. fold env steamId pk in Hrest.
  destruct Hrest as (Hf & Hr & Htable & _).
  exists playerJson, f. eexists. split; [exact Hp|].
  intros d built. fold d in Hf, Hr, Htable.
  split_and!; [exact Hf | by rewrite Hr | rewrite Htable; apply lookup_insert_eq
               | reflexivity |].
  fold (item_saved env user target d f). unfold item_saved. fold built.
  destruct (guardrail_announced (MAX_ITEM_BYTES env) built) as [H | (Hn & Hd & Ho1 & Ho2)].
  - left. exists (announced_after d). split_and!; [exact H | | |].
    + intros prior stored x Hprior Hstored Hx. apply elem_of_announced_after. left.
      subst d. cbn [diff_of Diff.announcedSet]. rewrite Hprior.
      cbn [announcedSet_of loaded_announced]. rewrite Hstored.
      by apply elem_of_Set_from.
    + intros prior legacy x Hprior Hnone Hlegacy Hx. apply elem_of_announced_after. left.
      subst d. cbn [diff_of Diff.announcedSet]. rewrite Hprior.
      cbn [announcedSet_of loaded_announced]. rewrite Hnone, Hlegacy.
      by apply elem_of_Set_from.
    + intros x [Hx | (a & Ha & <-)]%elem_of_announced_after.
      * subst d. cbn [diff_of Diff.announcedSet] in Hx.
        destruct (State.table s !! pk) as [prior|] eqn:Hprior;
          cbn [announcedSet_of loaded_announced] in Hx;
          rewrite elem_of_Set_from in Hx; [left | right].
        -- destruct (Item.announcedApiNames prior) as [stored|] eqn:Hstored.
           { exists prior, stored. split_and!; [done | done | by left]. }
           destruct (Item.announced prior) as [legacy|] eqn:Hlegacy;
             [|by apply elem_of_nil in Hx].
           exists prior, legacy. split_and!; [done | done | by right].
        -- by apply elem_of_unlockedApiNames.
      * right. subst d. cbn [diff_of Diff.toPost] in Ha.
        apply elem_of_toPost_of in Ha as [[Ha _]%elem_of_unlockedRecent_of _].
        apply elem_of_unlocked_of in Ha as (p & Hp' & Hach & ->). by exists p.
  - right. split_and!; [exact Hn | exact Hd | | exact Ho1 | exact Ho2].
    by apply guardrail_bytes_before.
Qed.

(** The theorem at a run that adds a newly unlocked achievement to a record
    that already announced another. *)
Lemma C8_witness :
  let w := ex_world ex_now (Json (Some ex_two_recent)) ex_schema webhook_ok in
  ∃ saved,
    State.table (processOneUser ex_user w ex_state1).2 !! ex_pk = Some saved ∧
    ((∃ announced, Item.announcedApiNames saved = Some announced ∧
                   ∀ x, x ∈ ["A"%string] → x ∈ announced) ∨
     Item.announcedApiNames saved = None ∧ Item.announcedDropped saved = Some true).
Proof.
  intros w.
  destruct (C8_announced_set_monotone index_mjs ex_user w ex_state1
              (processOneUser ex_user w ex_state1).2
              (Result.mk true "Ricky" 1 None (Some "440"%string)
                 (Some "Team Fortress 2"%string) (Some "2/2 (100%)"%string) (Some true))
              ex_target)
    as (playerJson & f & saved & _ & H).
  - vm_compute. reflexivity.
  - vm_compute. reflexivity.
  - cbv zeta in H. destruct H as (_ & _ & Hs & _ & H).
    exists saved. split; [exact Hs|].
    destruct H as [(announced & Ha & Hsub & _) | (Ha & Hd & _)].
    + left. exists announced. split; [exact Ha|].
      intros x Hx. apply (Hsub ex_item_prior ["A"%string] x); [reflexivity..|exact Hx].
    + right. split; [exact Ha | exact Hd].
Defined.

(* ------------------------------------------------------------------ *)
(** ** C9: the concurrency runner *)

Section RunnerFacts.
Context {U R W : Type}.
Variable worker : U → W → Outcome R * W.
Variable items : list U.

Local Abbreviation Pool := (@Pool U R W).
Local Abbreviation step := (step worker items).
Local Abbreviation run := (run worker items).
Local Abbreviation init := (@init U R W items).

Local Abbreviation Inv := (Inv worker items).
Local Abbreviation measure := (@measure U R W items).

Lemma Inv_init concurrency w : Inv (init concurrency w).
Proof.
  split; simpl.
  - apply length_replicate.
  - intros i sl [? _]%lookup_replicate. done.
  - intros i ?. lia.
  - intros r c u [? _]%lookup_replicate. done.
  - done.
  - intros r [? _]%lookup_replicate. done.
Qed.

Lemma Inv_step r p : Inv p → Inv (step r p).
Proof.
  intros [Hlen Hgood Hclaimed Hawait Hstarted Hfin]. unfold step.
  destruct (runners p !! r) as [[|c u|]|] eqn:Hr; [| |by split..].
  - (* the copy claims the next index *)
    destruct (items !! idx p) as [u|] eqn:Hu.
    + pose proof (lookup_lt_Some _ _ _ Hu) as Hlt.
      pose proof (lookup_lt_Some _ _ _ Hr) as Hrlt.
      split; cbn [idx results runners world started]; [done | done | | | |].
      * intros i Hi Hin.
        destruct (decide (i = idx p)) as [-> | Hne].
        { right. exists r, u. by apply list_lookup_insert_eq. }
        destruct (Hclaimed i) as [? | (r' & u' & Hr')]; [lia | done | by left |].
        right. exists r', u'. rewrite list_lookup_insert_ne; [done|]. congruence.
      * intros r' c u'. destruct (decide (r = r')) as [<- | Hne].
        { rewrite list_lookup_insert_eq by done. intros; by simplify_eq. }
        rewrite list_lookup_insert_ne by done. apply Hawait.
      * rewrite Hstarted. rewrite !Nat.min_l by lia. by rewrite seq_S.
      * intros r'. destruct (decide (r = r')) as [<- | Hne].
        { by rewrite list_lookup_insert_eq. }
        rewrite list_lookup_insert_ne by done. intros ?%Hfin. lia.
    + pose proof (lookup_ge_None_1 _ _ Hu) as Hge.
      pose proof (lookup_lt_Some _ _ _ Hr) as Hrlt.
      split; cbn [idx results runners world started]; [done | done | | | |].
      * intros i Hi Hin.
        destruct (Hclaimed i) as [? | (r' & u' & Hr')]; [lia | done | by left |].
        right. exists r', u'. rewrite list_lookup_insert_ne; [done|]. congruence.
      * intros r' c u'. destruct (decide (r = r')) as [<- | Hne].
        { by rewrite list_lookup_insert_eq. }
        rewrite list_lookup_insert_ne by done. apply Hawait.
      * rewrite Hstarted. by rewrite !Nat.min_r by lia.
      * intros r' _. lia.
  - (* the awaited promise settles *)
    destruct (worker u (world p)) as [o w'] eqn:Hw.
    pose proof (Hawait _ _ _ Hr) as Hu.
    pose proof (lookup_lt_Some _ _ _ Hu) as Hlt.
    pose proof (lookup_lt_Some _ _ _ Hr) as Hrlt.
    split; cbn [idx results runners world started].
    * by rewrite length_insert.
    * intros i sl. destruct (decide (c = i)) as [<- | Hne].
      { rewrite list_lookup_insert_eq by lia. intros ?; simplify_eq.
        exists u, (world p). by rewrite Hw. }
      rewrite list_lookup_insert_ne by done. apply Hgood.
    * intros i Hi Hin. destruct (decide (c = i)) as [<- | Hne].
      { left. eexists. apply list_lookup_insert_eq. lia. }
      rewrite list_lookup_insert_ne by done.
      destruct (Hclaimed i) as [? | (r' & u' & Hr')]; [done | done | by left |].
      right. exists r', u'. rewrite list_lookup_insert_ne; [done|]. congruence.
    * intros r' c' u'. destruct (decide (r = r')) as [<- | Hne].
      { by rewrite list_lookup_insert_eq. }
      rewrite list_lookup_insert_ne by done. apply Hawait.
    * done.
    * intros r'. destruct (decide (r = r')) as [<- | Hne].
      { by rewrite list_lookup_insert_eq. }
      rewrite list_lookup_insert_ne by done. apply Hfin.
Qed.

Lemma Inv_run schedule p : Inv p → Inv (run schedule p).
Proof.
  revert p. induction schedule as [|r l IH]; intros p Hp; simpl; [done|].
  apply IH, Inv_step, Hp.
Qed.

Lemma settled_Finished (p : Pool) r x :
  settled p = true → runners p !! r = Some x → x = Finished.
Proof.
  unfold settled. rewrite forallb_forall. intros H Hr.
  apply list_elem_of_lookup_2, list_elem_of_In, H in Hr. by destruct x.
Qed.

(** Once every copy has returned, every slot is written, provided there
    was a copy at all. *)
Lemma Inv_settled (p : Pool) i u :
  Inv p → settled p = true → runners p ≠ [] → items !! i = Some u →
  ∃ w0, results p !! i = Some (Some (settle (worker u w0).1)).
Proof.
  intros [Hlen Hgood Hclaimed Hawait Hstarted Hfin] Hs Hne Hu.
  destruct (runners p) as [|x rs] eqn:Hrs; [done|].
  assert (length items ≤ idx p)%nat as Hidx.
  { apply (Hfin 0%nat). simpl. f_equal.
    apply (settled_Finished p 0); [done | by rewrite Hrs]. }
  pose proof (lookup_lt_Some _ _ _ Hu) as Hlt.
  destruct (Hclaimed i) as [[sl Hsl] | (r & u' & Hr)]; [lia | done | |].
  - destruct (Hgood _ _ Hsl) as (u' & w0 & Hu' & ->).
    exists w0. rewrite Hsl. by simplify_eq.
  - rewrite <- Hrs in Hr. by apply (settled_Finished p) in Hr.
Qed.

Lemma sum_weight_insert (l : list (Runner (U:=U))) r x y :
  l !! r = Some x →
  (sum_list (weight <$> <[r := y]> l) + weight x
   = sum_list (weight <$> l) + weight y)%nat.
Proof.
  revert r. induction l as [|z l IH]; intros [|r] Hr; csimpl in *; [done | done | |].
  - simplify_eq. lia.
  - specialize (IH _ Hr). lia.
Qed.

Lemma step_measure (p : Pool) r :
  (measure (step r p) ≤ measure p)%nat ∧
  (∀ x, runners p !! r = Some x → x ≠ Finished →
        (measure (step r p) < measure p)%nat).
Proof.
  unfold step, measure.
  destruct (runners p !! r) as [[|c u|]|] eqn:Hr.
  - destruct (items !! idx p) as [u|] eqn:Hu; cbn [idx runners].
    + pose proof (lookup_lt_Some _ _ _ Hu).
      pose proof (sum_weight_insert _ _ _ (Awaiting (idx p) u) Hr). simpl in *.
      split; [|intros]; lia.
    + pose proof (sum_weight_insert _ _ _ Finished Hr). simpl in *.
      split; [|intros]; lia.
  - destruct (worker u (world p)) as [o w']. cbn [idx runners].
    pose proof (sum_weight_insert _ _ _ Ready Hr). simpl in *.
    split; [|intros]; lia.
  - split; [lia | intros; by simplify_eq].
  - split; [lia | intros; by simplify_eq].
Qed.

Lemma step_runners_ne (p : Pool) r r' :
  r ≠ r' → runners (step r p) !! r' = runners p !! r'.
Proof.
  intros Hne. unfold step. repeat case_match; cbn [runners];
    by rewrite ?list_lookup_insert_ne.
Qed.

Lemma step_runners_length (p : Pool) r :
  length (runners (step r p)) = length (runners p).
Proof.
  unfold step. repeat case_match; cbn [runners]; by rewrite ?length_insert.
Qed.

Lemma run_runners_length schedule (p : Pool) :
  length (runners (run schedule p)) = length (runners p).
Proof.
  revert p. induction schedule as [|r l IH]; intros p; simpl; [done|].
  by rewrite IH, step_runners_length.
Qed.

Lemma run_measure_le schedule (p : Pool) : (measure (run schedule p) ≤ measure p)%nat.
Proof.
  revert p. induction schedule as [|r l IH]; intros p; simpl; [done|].
  etrans; [apply IH | apply step_measure].
Qed.

(** A schedule that resumes a copy that has not returned makes progress. *)
Lemma run_measure_lt schedule (p : Pool) r x :
  r ∈ schedule → runners p !! r = Some x → x ≠ Finished →
  (measure (run schedule p) < measure p)%nat.
Proof.
  revert p. induction schedule as [|r' l IH]; intros p Hin Hr Hx; simpl.
  { by apply elem_of_nil in Hin. }
  destruct (decide (r' = r)) as [-> | Hne].
  - eapply Nat.le_lt_trans; [apply run_measure_le | by eapply step_measure].
  - apply elem_of_cons in Hin as [? | Hin]; [done|].
    eapply Nat.lt_le_trans; [|apply (step_measure p r')].
    apply IH; [done | by rewrite step_runners_ne | done].
Qed.

Lemma run_settled schedule (p : Pool) : settled p = true → run schedule p = p.
Proof.
  intros Hs. induction schedule as [|r l IH]; simpl; [done|].
  assert (step r p = p) as ->; [|done].
  unfold step. destruct (runners p !! r) as [x|] eqn:Hr; [|done].
  by rewrite (settled_Finished p r x Hs Hr).
Qed.

Lemma not_settled (p : Pool) :
  settled p = false → ∃ r x, runners p !! r = Some x ∧ x ≠ Finished.
Proof.
  unfold settled. induction (runners p) as [|y l IH]; simpl; [done|].
  destruct y; simpl.
  - intros _. by exists 0%nat, Ready.
  - intros _. by eexists 0%nat, _.
  - intros (r & x & ? & ?)%IH. by exists (S r), x.
Qed.

Lemma measure_0_settled (p : Pool) : measure p = 0%nat → settled p = true.
Proof.
  unfold measure, settled. intros H.
  assert (sum_list (weight <$> runners p) = 0%nat) as H0 by lia. clear H.
  induction (runners p) as [|y l IH]; simpl in *; [done|].
  destruct y; simpl in *; [lia | lia | by apply IH].
Qed.

(** Round robin reaches the end: [measure p] rounds suffice. *)
Lemma rounds_settle m (p : Pool) :
  (measure p ≤ m)%nat →
  settled (run (concat (replicate m (seq 0 (length (runners p))))) p) = true.
Proof.
  revert p. induction m as [|m IH]; intros p Hm; simpl.
  { apply measure_0_settled. lia. }
  unfold run. rewrite foldl_app. fold (run (seq 0 (length (runners p))) p).
  destruct (settled p) eqn:Hs.
  { rewrite (run_settled _ p Hs). fold (run (concat (replicate m (seq 0 (length (runners p))))) p).
    by rewrite (run_settled _ p Hs). }
  apply not_settled in Hs as (r & x & Hr & Hx).
  rewrite <- (run_runners_length (seq 0 (length (runners p))) p) at 2.
  apply IH.
  assert (measure (run (seq 0 (length (runners p))) p) < measure p)%nat; [|lia].
  apply (run_measure_lt _ p r x); [|done..].
  apply elem_of_seq. split; [lia|]. simpl. by apply lookup_lt_Some in Hr.
Qed.

Lemma measure_init concurrency w :
  (measure (init concurrency w) ≤ 3 * length items)%nat.
Proof.
  unfold measure, init. cbn [idx runners].
  assert (∀ k, sum_list (weight <$> replicate k (@Ready U)) = k) as ->.
  { induction k as [|k IH]; csimpl; [done | by rewrite IH]. }
  lia.
Qed.

End RunnerFacts.

(** The handler never passes a concurrency below 1. *)
Lemma MAX_CONCURRENCY_pos (env : Env.t) : 1 ≤ MAX_CONCURRENCY env.
Proof. unfold MAX_CONCURRENCY. lia. Qed.




Example runWithConcurrency_isolates_failure :
  runWithConcurrency ex_worker [1; 2; 3] 2 () (round_robin [1; 2; 3] 2 9)
  = Some [Some (Value 10); Some (Failure "boom"); Some (Value 30)].
Proof. reflexivity. Qed.

(* ------------------------------------------------------------------ *)
(** ** C10: recency eligibility *)

(** C10. An unlocked snapshot item is in [unlockedRecent] exactly when its
    unlock time is strictly positive and at least [nowSec - windowSeconds].
    So an item unlocked at [nowSec - windowSeconds] is included (that time
    being positive), one unlocked a second earlier is excluded, and an item
    whose unlock time is 0 is never in [toPost], with or without a prior
    record. *)
Theorem C10_recency_eligibility
    (playerAch : list PlayerAch.t) (nowSec windowSeconds : Z) (a : Unlocked.t) :
  let unlocked := unlocked_of playerAch in
  let unlockedRecent := unlockedRecent_of unlocked (nowSec - windowSeconds) in
  (a ∈ unlockedRecent ↔
   a ∈ unlocked ∧ 0 < Unlocked.unlocktime a ∧
   nowSec - windowSeconds ≤ Unlocked.unlocktime a) ∧
  (a ∈ unlocked → Unlocked.unlocktime a = nowSec - windowSeconds →
   0 < nowSec - windowSeconds → a ∈ unlockedRecent) ∧
  (Unlocked.unlocktime a = nowSec - windowSeconds - 1 → a ∉ unlockedRecent) ∧
  (Unlocked.unlocktime a = 0 →
   ∀ exists_ announcedSet, a ∉ toPost_of exists_ announcedSet unlockedRecent).
Proof.
  intros unlocked unlockedRecent. subst unlockedRecent. split_and!.
  - apply elem_of_unlockedRecent_of.
  - intros Ha Ht Hpos. apply elem_of_unlockedRecent_of. split_and!; [done | lia | lia].
  - intros Ht (_ & _ & ?)%elem_of_unlockedRecent_of. lia.
  - intros Ht exists_ announcedSet [(_ & ? & _)%elem_of_unlockedRecent_of _]%elem_of_toPost_of.
    lia.
Qed.

(** The recency theorem at the boundary of the window. *)
Lemma C10_witness :
  Unlocked.mk "A" 1699999100
  ∈ unlockedRecent_of
      (unlocked_of [PlayerAch.mk "A" 1 (Some 1699999100)]) (1700000000 - 900).
Proof.
  destruct (C10_recency_eligibility [PlayerAch.mk "A" 1 (Some 1699999100)]
              1700000000 900 (Unlocked.mk "A" 1699999100)) as (_ & H & _).
  apply H.
  - vm_compute. left.
  - reflexivity.
  - reflexivity.
Defined.

(* ================================================================== *)
(** * Further properties of the code *)

(* ------------------------------------------------------------------ *)
(** ** Sets and the sort, continued *)

Lemma Set_add_NoDup (s : list string) (x : string) : NoDup s → NoDup (Set_add s x).
Proof.
  intros Hs. unfold Set_add, Set_has. case_bool_decide as Hx; [done|].
  apply NoDup_app. split_and!; [done | | apply NoDup_singleton].
  intros y Hy ->%list_elem_of_singleton. done.
Qed.

Lemma foldl_Set_add_NoDup (l s : list string) : NoDup s → NoDup (foldl Set_add s l).
Proof.
  revert s. induction l as [|x l IH]; intros s Hs; simpl; [done|].
  by apply IH, Set_add_NoDup.
Qed.

Lemma foldl_Set_add_fresh (l s : list string) :
  NoDup (s ++ l) → foldl Set_add s l = s ++ l.
Proof.
  revert s. induction l as [|x l IH]; intros s Hs; simpl.
  - by rewrite app_nil_r.
  - assert (x ∉ s) as Hx.
    { apply NoDup_app in Hs as (_ & Hs & _). intros Hin. apply (Hs x Hin). left. }
    unfold Set_add at 2, Set_has. rewrite bool_decide_eq_false_2 by done.
    rewrite IH; rewrite <- app_assoc; done.
Qed.

Lemma insert_desc_length (a : Unlocked.t) (l : list Unlocked.t) :
  length (insert_desc a l) = S (length l).
Proof.
  induction l as [|b l IH]; simpl; [done|].
  destruct (_ >? 0); simpl; by rewrite ?IH.
Qed.

Lemma sort_desc_length (l : list Unlocked.t) : length (sort_desc l) = length l.
Proof.
  induction l as [|a l IH]; simpl; [done|].
  by rewrite insert_desc_length, IH.
Qed.

Lemma List_filter_StronglySorted {A} (R : A → A → Prop) (f : A → bool) (l : list A) :
  StronglySorted R l → StronglySorted R (List.filter f l).
Proof.
  induction 1 as [|a l Hl IH Ha]; simpl; [constructor|].
  destruct (f a); [|done]. constructor; [done|].
  apply Forall_forall. intros x [Hx _]%elem_of_List_filter.
  by apply (proj1 (Forall_forall _ _) Ha).
Qed.

(** [toPost] keeps the order of [unlocked]: newest first. *)
Lemma toPost_sorted env now user target playerJson out_Item :
  StronglySorted (λ x y, Unlocked.unlocktime y ≤ Unlocked.unlocktime x)
    (Diff.toPost (diff_of env now user target playerJson out_Item)).
Proof.
  cbn [diff_of Diff.toPost]. unfold toPost_of, unlockedRecent_of.
  destruct out_Item; repeat apply List_filter_StronglySorted; apply unlocked_of_sorted.
Qed.

(* ------------------------------------------------------------------ *)
(** ** What a run delivers and what it saves *)

Lemma embeds_in_shape src c toPost :
  ∃ embeds,
    embeds_in src c toPost = map (λ e, (Ctx.webhookUrl c, EmbedPayload e)) embeds ∧
    map Embed.unlocktime embeds = map Unlocked.unlocktime toPost.
Proof.
  destruct src; cbn [embeds_in]; unfold embeds_of, Part000_embeds_of.
  - exists (map (embed_of c) toPost). rewrite !map_map. done.
  - exists (map (Part000.embed_of c) toPost). rewrite !map_map. done.
Qed.

Lemma StronglySorted_map_unlocktime (es : list Embed.t) (l : list Unlocked.t) :
  map Embed.unlocktime es = map Unlocked.unlocktime l →
  StronglySorted (λ x y, Unlocked.unlocktime y ≤ Unlocked.unlocktime x) l →
  StronglySorted (λ x y, Embed.unlocktime y ≤ Embed.unlocktime x) es.
Proof.
  intros Heq Hl. revert es Heq.
  induction Hl as [|a l Hl IH Ha]; intros [|e es] Heq; simplify_eq/=;
    constructor; [by apply IH|].
  apply Forall_forall. intros x Hx.
  assert (Embed.unlocktime x ∈ map Unlocked.unlocktime l) as Hin.
  { rewrite <- H0. apply list_elem_of_fmap. by exists x. }
  apply list_elem_of_fmap in Hin as (y & -> & Hy).
  rewrite H. by apply (proj1 (Forall_forall _ _) Ha).
Qed.

Lemma guardrail_identity MAX item :
  let safe := Guarded.item (applyDdbSizeGuardrail MAX item) in
  Item.name safe = Item.name item ∧ Item.steamId safe = Item.steamId item ∧
  Item.appid safe = Item.appid item ∧ Item.updatedAt safe = Item.updatedAt item ∧
  Item.announced safe = Item.announced item.
Proof. unfold applyDdbSizeGuardrail. repeat case_match; done. Qed.

(** X1. A run changes at most one record of the state table: the one of the
    pair it resolved. That record is then present under the key
    [steam#<steamId>#app#<appid>], carries that key, the trimmed Steam id and
    the app id, and is stamped with the second of the run. Every other key
    reads as before, whatever the outcome. *)
Theorem X1_run_touches_only_its_pair
    (src : Source) (user : User.t) (w : World.t) (s : State.t) (pk' : string) :
  let s' := (processOneUser_in src user w s).2 in
  let steamId := trim (User.steamId user) in
  State.table s' !! pk' = State.table s !! pk' ∨
  ∃ target saved,
    resolveTargetGame steamId w s = (Returned (Some target), s) ∧
    pk' = pk_of steamId (Target.appid target) ∧
    State.table s' !! pk' = Some saved ∧
    Item.PK saved = pk' ∧ Item.steamId saved = steamId ∧
    Item.appid saved = Target.appid target ∧
    Item.updatedAt saved = World.now w / 1000.
Proof.
  intros s' steamId. subst s'.
  destruct (processOneUser_in src user w s) as [o s1] eqn:Hrun. cbn [snd].
  apply processOneUser_effects in Hrun
    as [[-> _] | (target & playerJson & f & Ht & _ & Hrest)]; [by left|].
  cbv zeta in Hrest. destruct Hrest as (_ & _ & [[_ ->] | [_ Htable]]); [by left|].
  rewrite Htable. cbn [diff_of Diff.pk]. fold steamId.
  destruct (decide (pk' = pk_of steamId (Target.appid target))) as [->|Hne].
  - right. eexists target, _. rewrite lookup_insert_eq. split_and!; [done..| | | |].
    + unfold item_saved. by rewrite guardrail_PK.
    + unfold item_saved.
      by rewrite (proj1 (proj2 (guardrail_identity _ _))).
    + unfold item_saved.
      by rewrite (proj1 (proj2 (proj2 (guardrail_identity _ _)))).
    + unfold item_saved.
      by rewrite (proj1 (proj2 (proj2 (proj2 (guardrail_identity _ _))))).
  - left. by rewrite lookup_insert_ne.
Qed.

(** X2. A run that returns has delivered, to the user's webhook (or the
    default one), one embed per posted achievement, newest unlock first, in a
    number equal to the [posted] field of its result; the platinum message,
    if any, is a single payload sent after all of them, only when at least
    one embed was sent and the result reports [platinum: true]. *)
Theorem X2_posts_newest_first
    (src : Source) (user : User.t) (w : World.t) (s s' : State.t) (r : Result.t) :
  processOneUser_in src user w s = (Returned r, s') →
  let url := webhookUrl_of (World.env w) user in
  ∃ embeds celebration,
    State.delivered s' =
      State.delivered s ++ map (λ e, (url, EmbedPayload e)) embeds ++ celebration ∧
    Result.posted r = Z.of_nat (length embeds) ∧
    StronglySorted (λ x y, Embed.unlocktime y ≤ Embed.unlocktime x) embeds ∧
    (celebration = [] ∨
     embeds ≠ [] ∧ Result.platinum r = Some true ∧
     ∃ title image, celebration = [(url, PlatinumPayload (User.name user) title image)]).
Proof.
  intros Hrun url.
  apply processOneUser_in_anatomy in Hrun
    as [[[_ Hdel] [[e ?] | [_ Hr]]] | (target & playerJson & f & _ & _ & _ & Hrest)];
    [done | |].
  { exists [], []. simplify_eq. rewrite Hdel, app_nil_r.
    split_and!; [done | done | constructor | by left]. }
  cbv zeta in Hrest.
  destruct Hrest as (_ & [(e & k & ? & _) | (Hr & _ & _ & Hdel)]); [done|].
  set (d := diff_of _ _ _ _ _ _) in *.
  destruct (embeds_in_shape src (ctx_of (World.env w) user target d f) (Diff.toPost d))
    as (embeds & Hemb & Htimes).
  assert (length embeds = length (Diff.toPost d)) as Hlen.
  { by rewrite <- (length_map Embed.unlocktime), Htimes, length_map. }
  exists embeds, (celebration_of (World.env w) user d f).
  split_and!.
  - by rewrite Hdel, Hemb.
  - simplify_eq. cbn [Result.posted]. by rewrite Hlen.
  - apply (StronglySorted_map_unlocktime _ _ Htimes), toPost_sorted.
  - unfold celebration_of, celebrates.
    destruct (shouldCelebrate _ _ _) eqn:Hc; [right | by left].
    apply shouldCelebrate_true in Hc as (Hp & _ & Hne).
    split_and!.
    + intros ->. by destruct (Diff.toPost d).
    + simplify_eq. cbn [Result.platinum]. by rewrite Hp.
    + by eexists _, _.
Qed.

Lemma X2_witness :
  let w := ex_world ex_now (Json (Some ex_two_recent)) ex_schema webhook_ok in
  ∃ embeds celebration,
    State.delivered (processOneUser ex_user w ex_state1).2 =
      map (λ e, (webhookUrl_of ex_env ex_user, EmbedPayload e)) embeds ++ celebration ∧
    1 = Z.of_nat (length embeds).
Proof.
  intros w.
  destruct (X2_posts_newest_first index_mjs ex_user w ex_state1
              (processOneUser ex_user w ex_state1).2
              (Result.mk true "Ricky" 1 None (Some "440"%string)
                 (Some "Team Fortress 2"%string) (Some "2/2 (100%)"%string) (Some true)))
    as (embeds & celebration & Hdel & Hposted & _).
  - vm_compute. reflexivity.
  - exists embeds, celebration. split; [exact Hdel | exact Hposted].
Defined.

Lemma Set_from_NoDup (l : list string) : NoDup (Set_from l).
Proof. apply foldl_Set_add_NoDup, NoDup_nil_2. Qed.

Lemma Set_from_fixpoint (l : list string) : NoDup l → Set_from l = l.
Proof. intros Hl. unfold Set_from. by rewrite foldl_Set_add_fresh. Qed.

Lemma announced_after_NoDup (d : Diff.t) :
  NoDup (Diff.announcedSet d) → NoDup (announced_after d).
Proof. apply foldl_Set_add_NoDup. Qed.

Lemma diff_announcedSet_NoDup env now user target playerJson out_Item :
  NoDup (Diff.announcedSet (diff_of env now user target playerJson out_Item)).
Proof.
  cbn [diff_of Diff.announcedSet]. unfold announcedSet_of.
  destruct out_Item; apply Set_from_NoDup.
Qed.

(** X3. The record a run writes never carries the legacy [announced] field,
    and its [announcedApiNames], when present, lists each name once: loading
    it into a [Set] again gives the same names in the same order. When the
    list is absent the record is marked [announcedDropped] and loads as the
    empty set. *)
Theorem X3_saved_announced_is_a_set
    (src : Source) (user : User.t) (w : World.t) (s : State.t) (pk' : string) :
  let s' := (processOneUser_in src user w s).2 in
  State.table s' !! pk' = State.table s !! pk' ∨
  ∃ saved,
    State.table s' !! pk' = Some saved ∧
    Item.announced saved = None ∧
    match Item.announcedApiNames saved with
    | Some l => NoDup l ∧ Set_from l = l ∧ loaded_announced (Some saved) = l
    | None => Item.announcedDropped saved = Some true ∧ loaded_announced (Some saved) = []
    end.
Proof.
  intros s'. subst s'.
  destruct (processOneUser_in src user w s) as [o s1] eqn:Hrun. cbn [snd].
  apply processOneUser_effects in Hrun
    as [[-> _] | (target & playerJson & f & _ & _ & Hrest)]; [by left|].
  cbv zeta in Hrest. destruct Hrest as (_ & _ & [[_ ->] | [_ Htable]]); [by left|].
  set (d := diff_of _ _ _ _ _ _) in *.
  rewrite Htable.
  destruct (decide (pk' = Diff.pk d)) as [->|Hne]; [|left; by rewrite lookup_insert_ne].
  right. eexists. rewrite lookup_insert_eq. split; [done|].
  pose proof (guardrail_identity (MAX_ITEM_BYTES (World.env w))
                (item_built user target d f)) as (_ & _ & _ & _ & Hlegacy).
  fold (item_saved (World.env w) user target d f) in Hlegacy.
  cbn in Hlegacy. split; [done|].
  unfold loaded_announced. rewrite Hlegacy.
  destruct (guardrail_announced (MAX_ITEM_BYTES (World.env w))
              (item_built user target d f)) as [Hkeep | (Hnone & Hdrop & _)];
    fold (item_saved (World.env w) user target d f) in *.
  - rewrite Hkeep. cbn [item_built item_of Item.announcedApiNames].
    assert (NoDup (announced_after d)) as Hnd
      by apply announced_after_NoDup, diff_announcedSet_NoDup.
    split_and!; [done | by apply Set_from_fixpoint | done].
  - rewrite Hnone. done.
Qed.

Lemma List_filter_length_le {A} (f : A → bool) (l : list A) :
  (length (List.filter f l) ≤ length l)%nat.
Proof. induction l as [|a l IH]; simpl; [lia|]. destruct (f a); simpl; lia. Qed.

Lemma achieved_counts_le (playerAch : list PlayerAch.t) :
  (length (List.filter (λ a, (PlayerAch.achieved a =? 1)%Z) playerAch)
   + length (List.filter (λ a, (PlayerAch.achieved a =? 0)%Z) playerAch)
   ≤ length playerAch)%nat.
Proof.
  induction playerAch as [|a l IH]; simpl; [lia|].
  destruct (PlayerAch.achieved a =? 1) eqn:H1, (PlayerAch.achieved a =? 0) eqn:H0;
    simpl; lia.
Qed.

(** X4. The progress counts a run saves are read off the player list alone:
    [unlockedCount] is the number of its entries with [achieved] 1 and
    [lockedCount] the number with [achieved] 0, so an entry with any other
    value is counted in neither; sorting and the size guardrail leave both
    untouched. The progress text of the result is the one saved. *)
Theorem X4_saved_progress_counts
    (src : Source) (user : User.t) (w : World.t) (s s' : State.t) (r : Result.t)
    (target : Target.t) :
  let steamId := trim (User.steamId user) in
  resolveTargetGame steamId w s = (Returned (Some target), s) →
  processOneUser_in src user w s = (Returned r, s') →
  ∃ playerJson saved,
    World.GetPlayerAchievements w (Target.appid target) steamId = Json playerJson ∧
    State.table s' !! pk_of steamId (Target.appid target) = Some saved ∧
    let playerAch := default [] playerJson in
    Item.unlockedCount saved =
      Z.of_nat (length (List.filter (λ a, PlayerAch.achieved a =? 1) playerAch)) ∧
    Item.lockedCount saved =
      Z.of_nat (length (List.filter (λ a, PlayerAch.achieved a =? 0) playerAch)) ∧
    Item.unlockedCount saved + Item.lockedCount saved ≤ Z.of_nat (length playerAch) ∧
    Result.progressText r = Some (Item.progressText saved).
Proof.
  intros steamId Htarget Hrun.
  destruct (processOneUser_returned src user w s r s' target Htarget Hrun)
    as (playerJson & f & Hp & Hrest).
  cbv zeta in Hrest. destruct Hrest as (_ & Hr & Htable & _).
  set (d := diff_of _ _ _ _ _ _) in *.
  exists playerJson, (item_saved (World.env w) user target d f).
  split; [done|]. split; [by rewrite Htable; apply lookup_insert_eq|].
  intros playerAch.
  destruct (guardrail_counts (MAX_ITEM_BYTES (World.env w)) (item_built user target d f))
    as (Hu & Hl & _).
  fold (item_saved (World.env w) user target d f) in Hu, Hl.
  assert (Item.unlockedCount (item_saved (World.env w) user target d f) =
          Z.of_nat (length (List.filter (λ a, PlayerAch.achieved a =? 1) playerAch)))
    as Hu'.
  { rewrite Hu. cbn [item_built item_of Item.unlockedCount]. unfold unlockedCount_of.
    subst d. cbn [diff_of Diff.unlockedApiNames].
    unfold unlockedApiNames_of, unlocked_of.
    by rewrite length_map, sort_desc_length, length_map. }
  assert (Item.lockedCount (item_saved (World.env w) user target d f) =
          Z.of_nat (length (List.filter (λ a, PlayerAch.achieved a =? 0) playerAch)))
    as Hl'.
  { rewrite Hl. cbn [item_built item_of Item.lockedCount]. unfold lockedCount_of.
    subst d. cbn [diff_of Diff.lockedApiNames].
    unfold lockedApiNames_of. by rewrite length_map. }
  split_and!; [done | done | |].
  - rewrite Hu', Hl'. pose proof (achieved_counts_le playerAch). lia.
  - rewrite Hr. cbn [Result.progressText]. f_equal.
    unfold item_saved, applyDdbSizeGuardrail. by repeat case_match.
Qed.

Lemma X4_witness :
  let w := ex_world ex_now (Json (Some ex_recent)) ex_schema webhook_ok in
  ∃ saved,
    State.table (processOneUser ex_user w ex_state0).2 !! ex_pk = Some saved ∧
    Item.unlockedCount saved = 1 ∧ Item.lockedCount saved = 1.
Proof.
  intros w.
  destruct (X4_saved_progress_counts index_mjs ex_user w ex_state0
              (processOneUser ex_user w ex_state0).2
              (Result.mk true "Ricky" 1 None (Some "440"%string)
                 (Some "Team Fortress 2"%string) (Some "1/2 (50%)"%string) (Some false))
              ex_target)
    as (playerJson & saved & Hp & Hs & Hcounts).
  - vm_compute. reflexivity.
  - vm_compute. reflexivity.
  - exists saved. split; [exact Hs|].
    change (Json (Some ex_recent) = Json playerJson) in Hp. injection Hp as <-.
    cbv zeta in Hcounts. destruct Hcounts as (Hu & Hl & _).
    split; [exact Hu | exact Hl].
Defined.

(* ------------------------------------------------------------------ *)
(** ** The size guardrail and the ledger round trip *)

(** X5. What the guardrail hands to DynamoDB either fits the budget or has
    been stripped of all four lists and marked [announcedDropped]: no record
    over the budget still carries a list. *)
Theorem X5_guardrail_fits_or_stripped (MAX : Z) (item : Item.t) :
  let g := applyDdbSizeGuardrail MAX item in
  approxUtf8Bytes (Guarded.item g) ≤ MAX ∨
  (Guarded.truncated g = true ∧
   Item.unlockedApiNames (Guarded.item g) = None ∧
   Item.lockedApiNames (Guarded.item g) = None ∧
   Item.unannouncedUnlockedApiNames (Guarded.item g) = None ∧
   Item.announcedApiNames (Guarded.item g) = None ∧
   Item.announcedDropped (Guarded.item g) = Some true ∧
   Item.arraysTruncated (Guarded.item g) = Some true).
Proof.
  intros g. subst g. unfold applyDdbSizeGuardrail. cbv zeta.
  destruct (_ <=? MAX) eqn:H1; [left; by apply Z.leb_le|].
  destruct (_ >? MAX) eqn:H2; [by right|].
  left. cbn [Guarded.item]. apply Zgtb_false_le. exact H2.
Qed.

Lemma String_length_append (a b : string) :
  String.length (a ++ b) = (String.length a + String.length b)%nat.
Proof. induction a as [|c a IH]; simpl; [done|]. by rewrite IH. Qed.

Lemma String_length_concat_elem (sep x : string) (l : list string) :
  x ∈ l → (String.length x ≤ String.length (String.concat sep l))%nat.
Proof.
  induction l as [|y l IH]; [by intros ?%elem_of_nil|].
  intros [->|Hx]%elem_of_cons; destruct l as [|z l]; simpl.
  - lia.
  - rewrite String_length_append. lia.
  - by apply elem_of_nil in Hx.
  - specialize (IH Hx). simpl in IH. rewrite !String_length_append. lia.
Qed.

Lemma JSON_escape_length (c : ascii) : (1 ≤ String.length (JSON_escape c))%nat.
Proof. unfold JSON_escape. repeat case_match; simpl; lia. Qed.

Lemma JSON_escape_all_length (s : string) :
  (String.length s ≤ String.length (JSON_escape_all s))%nat.
Proof.
  induction s as [|c s IH]; simpl; [lia|].
  rewrite String_length_append. pose proof (JSON_escape_length c). lia.
Qed.

Lemma JSON_string_length (s : string) :
  (String.length s + 2 ≤ String.length (JSON_string s))%nat.
Proof.
  unfold JSON_string. cbn [String.length]. rewrite String_length_append.
  cbn [String.length]. pose proof (JSON_escape_all_length s). lia.
Qed.

Lemma JSON_object_member_length (members : list (list string)) (m : string) :
  m ∈ concat members → (String.length m ≤ String.length (JSON_object members))%nat.
Proof.
  intros Hm. unfold JSON_object. rewrite !String_length_append.
  pose proof (String_length_concat_elem "," m _ Hm). lia.
Qed.

(** The serialized record is at least as long as its game title. *)
Lemma approxUtf8Bytes_gameTitle (i : Item.t) :
  Z.of_nat (String.length (Item.gameTitle i)) ≤ approxUtf8Bytes i.
Proof.
  unfold approxUtf8Bytes, JSON_stringify. apply inj_le.
  set (member := (JSON_string "gameTitle" ++ ":" ++ JSON_string (Item.gameTitle i))%string).
  transitivity (String.length member).
  - subst member. rewrite !String_length_append.
    pose proof (JSON_string_length (Item.gameTitle i)). lia.
  - apply JSON_object_member_length.
    cbn [concat JSON_member app]. do 4 right. left.
Qed.

(** X6. The guardrail gives no guarantee: it never looks at the scalar
    fields, so a record whose game title alone is longer than the budget
    leaves it with every list dropped and still over the budget. *)
Theorem X6_guardrail_is_best_effort (MAX : Z) (item : Item.t) :
  MAX < Z.of_nat (String.length (Item.gameTitle item)) →
  let g := applyDdbSizeGuardrail MAX item in
  MAX < Guarded.bytes g ∧ Guarded.truncated g = true ∧
  Item.announcedApiNames (Guarded.item g) = None ∧
  Item.gameTitle (Guarded.item g) = Item.gameTitle item.
Proof.
  intros Hlong g. subst g. unfold applyDdbSizeGuardrail. cbv zeta.
  pose proof (approxUtf8Bytes_gameTitle item) as H0.
  pose proof (approxUtf8Bytes_gameTitle (trim_arrays item (approxUtf8Bytes item))) as H1.
  pose proof (approxUtf8Bytes_gameTitle
                (drop_announced (trim_arrays item (approxUtf8Bytes item)))) as H2.
  cbn [trim_arrays drop_announced Item.gameTitle] in H1, H2.
  destruct (_ <=? MAX) eqn:E1; [apply Z.leb_le in E1; lia|].
  destruct (_ >? MAX) eqn:E2; [|apply Zgtb_false_le in E2; lia].
  cbn [Guarded.bytes Guarded.truncated Guarded.item]. split_and!; [lia | done..].
Qed.

Lemma X6_witness :
  let g := applyDdbSizeGuardrail 5 ex_item_prior in
  5 < Guarded.bytes g ∧ Guarded.truncated g = true.
Proof.
  intros g.
  destruct (X6_guardrail_is_best_effort 5 ex_item_prior) as (H1 & H2 & _).
  - vm_compute. reflexivity.
  - split; [exact H1 | exact H2].
Defined.

(** X7. Saving then loading. After [putStateItem] returns, [getState] on the
    record's key (the read succeeding) finds the record, with the platinum
    latch as it was built and the announced names as they were built, unless
    the record was over the budget, in which case the names may load as the
    legacy field (empty when that one is absent). Loading any other key is
    unaffected by the save, and the load itself changes nothing. *)
Theorem X7_put_then_get
    (item : Item.t) (w w' : World.t) (s s1 : State.t) :
  putStateItem item w s = (Returned tt, s1) →
  World.ddbGet w' (Item.PK item) = None →
  (∃ st,
     getState (Item.PK item) w' s1 = (Returned st, s1) ∧
     Loaded.exists_ st = true ∧
     Loaded.platinumAnnounced st = Item.platinumAnnounced item ∧
     (Loaded.announcedApiNames st = loaded_announced (Some item) ∨
      Loaded.announcedApiNames st = default [] (Item.announced item) ∧
      MAX_ITEM_BYTES (World.env w) < approxUtf8Bytes item)) ∧
  ∀ pk', pk' ≠ Item.PK item → (getState pk' w' s1).1 = (getState pk' w' s).1.
Proof.
  intros Hput Hget.
  apply putStateItem_inv in Hput as [(e & ? & _) | (_ & _ & Htable & _)]; [done|].
  rewrite guardrail_PK in Htable.
  split.
  - unfold getState, bind, ask, get, throw, ret. rewrite Hget, Htable, lookup_insert_eq.
    eexists. split; [done|]. cbn [Loaded.exists_ Loaded.platinumAnnounced
                                   Loaded.announcedApiNames].
    split; [done|]. split; [apply guardrail_platinumAnnounced|].
    pose proof (guardrail_identity (MAX_ITEM_BYTES (World.env w)) item)
      as (_ & _ & _ & _ & Hlegacy).
    cbv zeta in Hlegacy. unfold loaded_announced. rewrite Hlegacy.
    destruct (guardrail_announced (MAX_ITEM_BYTES (World.env w)) item)
      as [Hkeep | (Hnone & _ & Hover & _)].
    + left. by rewrite Hkeep.
    + right. by rewrite Hnone.
  - intros pk' Hne. unfold getState, bind, ask, get, throw, ret.
    rewrite Htable, lookup_insert_ne by done. by destruct (World.ddbGet w' pk').
Qed.

Lemma X7_witness :
  let w := ex_world ex_now (Json (Some ex_recent)) ex_schema webhook_ok in
  ∃ st, getState ex_pk w (putStateItem ex_item_latched w ex_state0).2
        = (Returned st, (putStateItem ex_item_latched w ex_state0).2) ∧
        Loaded.platinumAnnounced st = true.
Proof.
  intros w.
  destruct (X7_put_then_get ex_item_latched w w ex_state0
              (putStateItem ex_item_latched w ex_state0).2)
    as [(st & Hst & _ & Hp & _) _].
  - vm_compute. reflexivity.
  - reflexivity.
  - exists st. split; [exact Hst | exact Hp].
Defined.

Lemma List_filter_all {A} (f : A → bool) (l : list A) :
  (∀ x, x ∈ l → f x = true) → List.filter f l = l.
Proof.
  induction l as [|a l IH]; intros H; simpl; [done|].
  rewrite (H a) by left. f_equal. apply IH. intros x Hx. apply H. by right.
Qed.

(** X8. After the guardrail's last resort the memory of what was announced is
    gone: a run that loads a record without [announcedApiNames] (and without
    the legacy field) posts every unlock that is inside the recency window,
    whether or not it was announced before. *)
Theorem X8_dropped_names_are_posted_again
    (src : Source) (user : User.t) (w : World.t) (s s' : State.t) (r : Result.t)
    (target : Target.t) (saved : Item.t) :
  let env := World.env w in
  let steamId := trim (User.steamId user) in
  resolveTargetGame steamId w s = (Returned (Some target), s) →
  State.table s !! pk_of steamId (Target.appid target) = Some saved →
  Item.announcedApiNames saved = None →
  Item.announced saved = None →
  processOneUser_in src user w s = (Returned r, s') →
  ∃ playerJson,
    World.GetPlayerAchievements w (Target.appid target) steamId = Json playerJson ∧
    let recent := unlockedRecent_of (unlocked_of (default [] playerJson))
                    (World.now w / 1000 - windowSeconds_of env user) in
    Result.posted r = Z.of_nat (length recent) ∧
    ∃ k, State.delivered s' =
           State.delivered s ++
             embeds_in src (ctx_of env user target
                              (diff_of env (World.now w) user target playerJson
                                 (Some saved)) k) recent
             ++ celebration_of env user
                  (diff_of env (World.now w) user target playerJson (Some saved)) k.
Proof.
  intros env steamId Htarget Hsaved Hnone Hlegacy Hrun.
  destruct (processOneUser_returned src user w s r s' target Htarget Hrun)
    as (playerJson & f & Hp & Hrest).
  cbv zeta in Hrest. fold steamId env in Hrest. rewrite Hsaved in Hrest.
  destruct Hrest as (_ & Hr & _ & Hdel).
  assert (Diff.toPost (diff_of env (World.now w) user target playerJson (Some saved))
          = unlockedRecent_of (unlocked_of (default [] playerJson))
              (World.now w / 1000 - windowSeconds_of env user)) as HtoPost.
  { cbn [diff_of Diff.toPost]. unfold toPost_of, announcedSet_of, loaded_announced.
    rewrite Hnone, Hlegacy. cbn [default]. by apply List_filter_all. }
  exists playerJson. split; [done|]. intros recent.
  rewrite HtoPost in Hr, Hdel. fold recent in Hr, Hdel.
  split; [by rewrite Hr|]. by exists f.
Qed.

Lemma X8_witness :
  let w := ex_world ex_now (Json (Some ex_recent)) ex_schema webhook_ok in
  let s := State.mk {[ex_pk := drop_announced (trim_arrays ex_item_prior 400000)]}
             [] [] ∅ ∅ in
  ∃ playerJson,
    World.GetPlayerAchievements w "440" "76561198000000000" = Json playerJson ∧
    1 = Z.of_nat (length (unlockedRecent_of (unlocked_of (default [] playerJson))
                            (ex_now / 1000 - 900))).
Proof.
  intros w s.
  destruct (X8_dropped_names_are_posted_again index_mjs ex_user w s
              (processOneUser ex_user w s).2
              (Result.mk true "Ricky" 1 None (Some "440"%string)
                 (Some "Team Fortress 2"%string) (Some "1/2 (50%)"%string) (Some false))
              ex_target (drop_announced (trim_arrays ex_item_prior 400000)))
    as (playerJson & Hp & Hposted & _).
  - vm_compute. reflexivity.
  - vm_compute. reflexivity.
  - reflexivity.
  - reflexivity.
  - vm_compute. reflexivity.
  - exists playerJson. split; [exact Hp | exact Hposted].
Defined.

(* ------------------------------------------------------------------ *)
(** ** The schema and rarity caches *)

(** X9. [getSchemaForApp] caches what it fetched and nothing else. When it
    returns, the schema is in the cache under the app id and every later
    call for that app returns the same schema without asking Steam again,
    however Steam would answer then. When it throws, nothing was cached and
    the state is as before, so the next call asks again. Entries of other
    apps, the rarity cache and the event log are never touched. *)
Theorem X9_schema_cache (appid : string) (w : World.t) (s : State.t) :
  let run := getSchemaForApp appid w s in
  match run.1 with
  | Returned schema =>
      State.schemaCache run.2 !! appid = Some schema ∧
      ∀ w', getSchemaForApp appid w' run.2 = (Returned schema, run.2)
  | Thrown _ => run.2 = s ∧ State.schemaCache s !! appid = None
  end ∧
  (∀ other, other ≠ appid →
     State.schemaCache run.2 !! other = State.schemaCache s !! other) ∧
  State.rarityCache run.2 = State.rarityCache s ∧
  State.events run.2 = State.events s.
Proof.
  intros run. subst run.
  assert (∀ cached (s1 : State.t), State.schemaCache s1 !! appid = Some cached →
            ∀ w', getSchemaForApp appid w' s1 = (Returned cached, s1)) as Hhit.
  { intros cached s1 H w'. unfold getSchemaForApp, bind, ask, get, ret. by rewrite H. }
  destruct (State.schemaCache s !! appid) as [cached|] eqn:Hc.
  { rewrite (Hhit cached s Hc w). cbn. split_and!; [done | by apply Hhit | done..]. }
  destruct (getSchemaForApp appid w s) as [o s1] eqn:Hrun. cbn [fst snd].
  unfold getSchemaForApp in Hrun.
  unfold bind, ask, get, steamGet, put, ret, throw in Hrun. rewrite Hc in Hrun.
  destruct (World.GetSchemaForGame w appid) as [st b|m|j]; simplify_eq.
  - split_and!; done.
  - split_and!; done.
  - split_and!; try done.
    + cbn. by rewrite lookup_insert_eq.
    + apply Hhit. cbn. by rewrite lookup_insert_eq.
    + intros other Hne. cbn. by rewrite lookup_insert_ne.
Qed.

(** X10. [getRarityForApp] caches its answer, the absence of data included.
    When Steam answers with no percentages (missing or empty list), [null]
    is returned and cached, and every later call for that app returns [null]
    without asking again, even if Steam has data by then. When the request
    fails nothing is cached. Other entries, the schema cache and the event
    log are never touched. *)
Theorem X10_rarity_cache (appid : string) (w : World.t) (s : State.t) :
  let run := getRarityForApp appid w s in
  match run.1 with
  | Returned cached =>
      State.rarityCache run.2 !! appid = Some cached ∧
      ∀ w', getRarityForApp appid w' run.2 = (Returned cached, run.2)
  | Thrown _ => run.2 = s ∧ State.rarityCache s !! appid = None
  end ∧
  (State.rarityCache s !! appid = None →
   (World.GetGlobalAchievementPercentagesForApp w appid = Json None ∨
    World.GetGlobalAchievementPercentagesForApp w appid = Json (Some [])) →
   run.1 = Returned None ∧ State.rarityCache run.2 !! appid = Some None) ∧
  (∀ other, other ≠ appid →
     State.rarityCache run.2 !! other = State.rarityCache s !! other) ∧
  State.schemaCache run.2 = State.schemaCache s ∧
  State.events run.2 = State.events s.
Proof.
  intros run. subst run.
  assert (∀ cached (s1 : State.t), State.rarityCache s1 !! appid = Some cached →
            ∀ w', getRarityForApp appid w' s1 = (Returned cached, s1)) as Hhit.
  { intros cached s1 H w'. unfold getRarityForApp, bind, ask, get, ret. by rewrite H. }
  destruct (State.rarityCache s !! appid) as [cached|] eqn:Hc.
  { rewrite (Hhit cached s Hc w). cbn. split_and!; [done | by apply Hhit | done..]. }
  destruct (getRarityForApp appid w s) as [o s1] eqn:Hrun. cbn [fst snd].
  unfold getRarityForApp in Hrun.
  unfold bind, ask, get, steamGet, put, ret, throw in Hrun. rewrite Hc in Hrun.
  destruct (World.GetGlobalAchievementPercentagesForApp w appid) as [st b|m|j] eqn:Hw.
  - simplify_eq. split_and!; try done. by intros _ [?|?].
  - simplify_eq. split_and!; try done. by intros _ [?|?].
  - destruct (default [] j) as [|x arr] eqn:Hj; simplify_eq.
    + split_and!; try done.
      * cbn. by rewrite lookup_insert_eq.
      * apply Hhit. cbn. by rewrite lookup_insert_eq.
      * intros _ _. cbn. by rewrite lookup_insert_eq.
      * intros other Hne. cbn. by rewrite lookup_insert_ne.
    + split_and!; try done.
      * cbn. by rewrite lookup_insert_eq.
      * apply Hhit. cbn. by rewrite lookup_insert_eq.
      * intros _ [?|?]; simplify_eq.
      * intros other Hne. cbn. by rewrite lookup_insert_ne.
Qed.

Lemma Map_from_foldl_lookup {V} (entries : list (string * V)) (m : gmap string V)
    (k : string) :
  foldl (λ m kv, <[kv.1 := kv.2]> m) m entries !! k =
  match last (List.filter (λ kv, bool_decide (kv.1 = k)) entries) with
  | Some kv => Some kv.2
  | None => m !! k
  end.
Proof.
  revert m. induction entries as [|[k' v'] l IH]; intros m; [done|].
  cbn [foldl List.filter fst snd]. rewrite IH. case_bool_decide as Hk.
  - subst k'. destruct (List.filter _ l) as [|kv l'] eqn:Hf.
    + cbn. by rewrite lookup_insert_eq.
    + change (last ((k, v') :: kv :: l')) with (last (kv :: l')).
      destruct (last (kv :: l')) eqn:Hlast; [done|].
      by apply last_None in Hlast.
  - destruct (last _); [done|]. by rewrite lookup_insert_ne.
Qed.

(** [new Map(entries).get(k)] is the value of the last entry with key [k]. *)
Lemma Map_from_lookup {V} (entries : list (string * V)) (k : string) :
  Map_from entries !! k =
  snd <$> last (List.filter (λ kv, bool_decide (kv.1 = k)) entries).
Proof.
  unfold Map_from. rewrite Map_from_foldl_lookup, lookup_empty.
  by destruct (last _).
Qed.

Lemma Map_from_size {V} (entries : list (string * V)) :
  (size (Map_from entries) ≤ length entries)%nat.
Proof.
  unfold Map_from.
  assert (∀ m : gmap string V,
            (size (foldl (λ m kv, <[kv.1 := kv.2]> m) m entries)
             ≤ size m + length entries)%nat) as H.
  { induction entries as [|[k v] l IH]; intros m; simpl; [lia|].
    etransitivity; [apply IH|]. simpl.
    destruct (m !! k) eqn:Hk.
    - rewrite map_size_insert_Some by done. lia.
    - rewrite map_size_insert_None by done. lia. }
  specialize (H ∅). by rewrite map_size_empty in H.
Qed.

(** X11. The schema a fetch builds. [totalCount] is the length of the
    achievement list Steam sent (0 when the list is missing), duplicates
    included, while [schemaByApi] has one entry per name: looking a name up
    gives the last achievement of the list with that name, and nothing when
    no achievement has it. So the map never has more entries than
    [totalCount]. *)
Theorem X11_schema_lookup
    (appid : string) (w : World.t) (s : State.t) (schemaJson : SchemaJson.t) :
  State.schemaCache s !! appid = None →
  World.GetSchemaForGame w appid = Json schemaJson →
  ∃ schema,
    (getSchemaForApp appid w s).1 = Returned schema ∧
    let achievements := default [] (SchemaJson.achievements schemaJson) in
    Schema.totalCount schema = Z.of_nat (length achievements) ∧
    Schema.schemaGameName schema = SchemaJson.gameName schemaJson ∧
    (∀ name,
       Schema.schemaByApi schema !! name =
       last (List.filter (λ a, bool_decide (SchemaAch.name a = name)) achievements)) ∧
    (∀ name a, Schema.schemaByApi schema !! name = Some a →
               a ∈ achievements ∧ SchemaAch.name a = name) ∧
    (∀ name, Schema.schemaByApi schema !! name = None ↔
             ∀ a, a ∈ achievements → SchemaAch.name a ≠ name) ∧
    Z.of_nat (size (Schema.schemaByApi schema)) ≤ Schema.totalCount schema.
Proof.
  intros Hmiss Hjson. eexists. split.
  { unfold getSchemaForApp, bind, ask, get, steamGet, put, ret.
    rewrite Hmiss, Hjson. reflexivity. }
  intros achievements. cbn [Schema.totalCount Schema.schemaGameName Schema.schemaByApi].
  fold achievements.
  assert (∀ name,
            Map_from (map (λ a, (SchemaAch.name a, a)) achievements) !! name =
            last (List.filter (λ a, bool_decide (SchemaAch.name a = name)) achievements))
    as Hlookup.
  { intros name. rewrite Map_from_lookup.
    induction achievements as [|a l IH] using rev_ind; [done|].
    rewrite map_app, !List.filter_app. simpl.
    case_bool_decide; simpl.
    - by rewrite !last_snoc.
    - by rewrite !app_nil_r. }
  split_and!; [done | done | exact Hlookup | | |].
  - intros name a. rewrite Hlookup. intros Hlast.
    apply last_Some_elem_of, elem_of_List_filter in Hlast as [Ha Hn].
    split; [done|]. by apply bool_decide_eq_true in Hn.
  - intros name. rewrite Hlookup, last_None. split.
    + intros Hnil a Ha Hname. subst name.
      assert (a ∈ List.filter (λ a0, bool_decide (SchemaAch.name a0 = SchemaAch.name a))
                achievements) as Hin
        by (apply elem_of_List_filter; split; [done | by apply bool_decide_eq_true]).
      rewrite Hnil in Hin. by apply elem_of_nil in Hin.
    + intros Hnone. apply List_filter_nil. intros a Ha.
      apply bool_decide_eq_false. by apply Hnone.
  - pose proof (Map_from_size (map (λ a, (SchemaAch.name a, a)) achievements)) as Hs.
    rewrite length_map in Hs. lia.
Qed.

Lemma X11_witness :
  let w := ex_world ex_now (Json (Some ex_recent)) ex_schema webhook_ok in
  ∃ schema, (getSchemaForApp "440" w ex_state0).1 = Returned schema ∧
            Schema.totalCount schema = 2.
Proof.
  intros w.
  destruct (X11_schema_lookup "440" w ex_state0
              (SchemaJson.mk (Some "Team Fortress 2"%string)
                 (Some [SchemaAch.mk "A" (Some "First Blood"%string)
                          (Some "Get a kill"%string) None;
                        SchemaAch.mk "B" (Some "Medic!"%string) None None])))
    as (schema & Hrun & Hrest).
  - reflexivity.
  - reflexivity.
  - exists schema. split; [exact Hrun|].
    cbv zeta in Hrest. destruct Hrest as (Htotal & _). exact Htotal.
Defined.

(* ------------------------------------------------------------------ *)
(** ** The event log *)

(** X12. [recordAchievementEvent] is fire-and-forget: it never throws,
    whatever DynamoDB answers, and touches nothing but the event log. It
    leaves the log as it was or appends the one row, and it appends only
    when the events table is configured, the put succeeded and no row has
    the same key; a second recording of a row whose key is in the log is a
    no-op. *)
Theorem X12_event_recording (e : Event.t) (w : World.t) (s : State.t) :
  let run := recordAchievementEvent e w s in
  run.1 = Returned tt ∧
  State.table run.2 = State.table s ∧
  State.delivered run.2 = State.delivered s ∧
  State.schemaCache run.2 = State.schemaCache s ∧
  State.rarityCache run.2 = State.rarityCache s ∧
  (run.2 = s ∨
   State.events run.2 = State.events s ++ [e] ∧
   (Event.key e ∉ event_keys s) ∧
   World.eventPut w e = None ∧
   truthy (default "" (Env.EVENTS_TABLE (World.env w))) = true) ∧
  (Event.key e ∈ event_keys s ∨ Env.EVENTS_TABLE (World.env w) = None → run.2 = s) ∧
  keeps_events_unique s run.2.
Proof.
  intros run. subst run.
  destruct (recordAchievementEvent e w s) as [o s1] eqn:Hrun. cbn [fst snd].
  unfold recordAchievementEvent in Hrun. unfold bind at 1, ask in Hrun.
  unfold keeps_events_unique, event_keys.
  destruct (Env.EVENTS_TABLE (World.env w)) as [table|] eqn:Htable;
    cbn [default from_option id truthy] in *; cycle 1.
  { unfold ret in Hrun. simplify_eq. split_and!; auto. }
  destruct (truthy table) eqn:Htruthy; cycle 1.
  { unfold ret in Hrun. simplify_eq. split_and!; auto. }
  unfold swallow, bind, get, put, throw in Hrun.
  destruct (World.eventPut w e) eqn:Hput.
  { simplify_eq. split_and!; auto. }
  case_bool_decide as Hin; simplify_eq.
  - split_and!; auto.
  - cbn. split_and!; try done.
    + right. done.
    + intros [?|?]; done.
    + intros Hnd. rewrite map_app. apply NoDup_app. split_and!; [done | | ].
      * intros k Hk ->%list_elem_of_singleton. done.
      * apply NoDup_singleton.
Qed.

(* ------------------------------------------------------------------ *)
(** ** What a run leaves in place *)

Lemma grows_refl s : grows s s.
Proof. by constructor. Qed.

Lemma grows_trans s1 s2 s3 : grows s1 s2 → grows s2 s3 → grows s1 s3.
Proof. intros [] []. constructor; by etransitivity. Qed.

Lemma keeps_events_unique_refl s : keeps_events_unique s s.
Proof. by intros ?. Qed.

Lemma keeps_events_unique_trans s1 s2 s3 :
  keeps_events_unique s1 s2 → keeps_events_unique s2 s3 → keeps_events_unique s1 s3.
Proof. unfold keeps_events_unique. auto. Qed.

(** A relation that is reflexive, transitive and kept by the five steps that
    change the state is kept by a whole run, and by any sequence of runs. *)
Section Preserves.
Variable R : State.t → State.t → Prop.
Hypothesis R_refl : ∀ s, R s s.
Hypothesis R_trans : ∀ s1 s2 s3, R s1 s2 → R s2 s3 → R s1 s3.
Hypothesis R_getSchemaForApp : ∀ appid, preserves R (getSchemaForApp appid).
Hypothesis R_getRarityForApp : ∀ appid, preserves R (getRarityForApp appid).
Hypothesis R_postDiscordPayload : ∀ url payload, preserves R (postDiscordPayload url payload).
Hypothesis R_recordAchievementEvent : ∀ e, preserves R (recordAchievementEvent e).
Hypothesis R_putStateItem : ∀ item, preserves R (putStateItem item).

Lemma preserves_ret {A} (a : A) : preserves R (ret a).
Proof. intros w s. apply R_refl. Qed.

Lemma preserves_throw {A} (message : string) : preserves R (throw (A:=A) message).
Proof. intros w s. apply R_refl. Qed.

Lemma preserves_ask : preserves R ask.
Proof. intros w s. apply R_refl. Qed.

Lemma preserves_bind {A B} (m : M A) (k : A → M B) :
  preserves R m → (∀ a, preserves R (k a)) → preserves R (bind m k).
Proof.
  intros Hm Hk w s. unfold bind. specialize (Hm w s).
  destruct (m w s) as [[a|e] s1]; [|done].
  eapply R_trans; [exact Hm | apply Hk].
Qed.

Lemma preserves_same {A} (m : M A) : (∀ w s, (m w s).2 = s) → preserves R m.
Proof. intros H w s. rewrite H. apply R_refl. Qed.

Lemma preserves_steamGet {J} (res : Response J) : preserves R (steamGet res).
Proof. apply preserves_same. intros w s. by destruct res. Qed.

Lemma preserves_resolveTargetGame steamId : preserves R (resolveTargetGame steamId).
Proof.
  apply preserves_same. intros w s.
  destruct (resolveTargetGame steamId w s) as [o s'] eqn:H.
  by apply resolveTargetGame_state in H.
Qed.

Lemma preserves_getState pk : preserves R (getState pk).
Proof.
  apply preserves_same. intros w s.
  destruct (getState pk w s) as [o s'] eqn:H. by apply getState_inv in H as [-> _].
Qed.

Lemma preserves_formatLocalDateFromUnix sec tz :
  preserves R (formatLocalDateFromUnix sec tz).
Proof.
  apply preserves_same. intros w s.
  destruct (formatLocalDateFromUnix sec tz w s) as [o s'] eqn:H.
  by apply formatLocalDateFromUnix_inv in H.
Qed.

Lemma preserves_postPlatinumCongrats name url gameTitle :
  preserves R (postPlatinumCongrats name url gameTitle).
Proof. intros w s. apply R_postDiscordPayload. Qed.

Ltac preserves_step :=
  lazymatch goal with
  | |- preserves _ (bind _ _) => apply preserves_bind; [|intros ?]
  | |- preserves _ (ret _) => apply preserves_ret
  | |- preserves _ (throw _) => apply preserves_throw
  | |- preserves _ ask => apply preserves_ask
  | |- preserves _ (steamGet _) => apply preserves_steamGet
  | |- preserves _ (resolveTargetGame _) => apply preserves_resolveTargetGame
  | |- preserves _ (getState _) => apply preserves_getState
  | |- preserves _ (formatLocalDateFromUnix _ _) =>
      apply preserves_formatLocalDateFromUnix
  | |- preserves _ (getSchemaForApp _) => apply R_getSchemaForApp
  | |- preserves _ (getRarityForApp _) => apply R_getRarityForApp
  | |- preserves _ (postDiscordEmbed _ _) => apply R_postDiscordPayload
  | |- preserves _ (postPlatinumCongrats _ _ _) => apply preserves_postPlatinumCongrats
  | |- preserves _ (recordAchievementEvent _) => apply R_recordAchievementEvent
  | |- preserves _ (putStateItem _) => apply R_putStateItem
  | |- preserves _ (match ?x with _ => _ end) => destruct x
  | |- preserves _ (let _ := _ in _) => cbv zeta
  end.

Lemma preserves_postAll c toPost announcedSet : preserves R (postAll c toPost announcedSet).
Proof.
  revert announcedSet. induction toPost as [|a rest IH]; intros set; simpl;
    [apply preserves_ret|].
  repeat preserves_step. apply IH.
Qed.

Lemma preserves_Part000_postAll c toPost announcedSet :
  preserves R (Part000.postAll c toPost announcedSet).
Proof.
  revert announcedSet. induction toPost as [|a rest IH]; intros set; simpl;
    [apply preserves_ret|].
  repeat preserves_step. apply IH.
Qed.

Lemma preserves_processOneUser user : preserves R (processOneUser user).
Proof.
  unfold processOneUser.
  repeat first [apply preserves_postAll | preserves_step].
Qed.

Lemma preserves_Part000_processOneUser user : preserves R (Part000.processOneUser user).
Proof.
  unfold Part000.processOneUser.
  repeat first [apply preserves_Part000_postAll | preserves_step].
Qed.

Lemma preserves_processOneUser_in src user : preserves R (processOneUser_in src user).
Proof.
  destruct src; [apply preserves_processOneUser | apply preserves_Part000_processOneUser].
Qed.

Lemma preserves_runs (l : list (Source * User.t * World.t)) (s : State.t) : R s (runs l s).
Proof.
  revert s. induction l as [|[[src user] w] l IH]; intros s; simpl; [apply R_refl|].
  eapply R_trans; [apply preserves_processOneUser_in | apply IH].
Qed.

End Preserves.

Lemma grows_getSchemaForApp appid : preserves grows (getSchemaForApp appid).
Proof.
  intros w s. destruct (getSchemaForApp appid w s) as [o s1] eqn:Hrun. cbn [snd].
  unfold getSchemaForApp in Hrun. unfold bind, ask, get, steamGet, put, ret, throw in Hrun.
  destruct (State.schemaCache s !! appid) eqn:Hc; [simplify_eq; apply grows_refl|].
  destruct (World.GetSchemaForGame w appid); simplify_eq; try apply grows_refl.
  constructor; cbn; try done. by apply insert_subseteq.
Qed.

Lemma grows_getRarityForApp appid : preserves grows (getRarityForApp appid).
Proof.
  intros w s. destruct (getRarityForApp appid w s) as [o s1] eqn:Hrun. cbn [snd].
  unfold getRarityForApp in Hrun. unfold bind, ask, get, steamGet, put, ret, throw in Hrun.
  destruct (State.rarityCache s !! appid) eqn:Hc; [simplify_eq; apply grows_refl|].
  destruct (World.GetGlobalAchievementPercentagesForApp w appid) as [| |j];
    simplify_eq; try apply grows_refl.
  destruct (default [] j); simplify_eq; constructor; cbn; try done;
    by apply insert_subseteq.
Qed.

Lemma grows_postDiscordPayload url payload : preserves grows (postDiscordPayload url payload).
Proof.
  intros w s. unfold postDiscordPayload, bind, ask, get, put, throw.
  destruct (World.webhook _ _ _ _) as [[status body]|]; cbn; [apply grows_refl|].
  constructor; cbn; try done. by eexists.
Qed.

Lemma grows_recordAchievementEvent e : preserves grows (recordAchievementEvent e).
Proof.
  intros w s. unfold recordAchievementEvent, bind, ask, swallow, get, put, throw, ret.
  destruct (truthy _); [|apply grows_refl].
  destruct (World.eventPut w e); [apply grows_refl|].
  case_bool_decide; cbn; [apply grows_refl|].
  constructor; cbn; try done. by eexists.
Qed.

Lemma grows_putStateItem item : preserves grows (putStateItem item).
Proof.
  intros w s. unfold putStateItem, bind, ask, get, put, throw.
  destruct (World.ddbPut _ _); cbn; [apply grows_refl|].
  constructor; cbn; try done. apply dom_insert_subseteq.
Qed.

Lemma unique_same_events {A} (m : M A) :
  (∀ w s, State.events (m w s).2 = State.events s) → preserves keeps_events_unique m.
Proof. intros H w s. unfold keeps_events_unique, event_keys. by rewrite H. Qed.

Lemma unique_getSchemaForApp appid : preserves keeps_events_unique (getSchemaForApp appid).
Proof.
  apply unique_same_events. intros w s.
  unfold getSchemaForApp, bind, ask, get, steamGet, put, ret, throw.
  destruct (State.schemaCache s !! appid); [done|].
  by destruct (World.GetSchemaForGame w appid).
Qed.

Lemma unique_getRarityForApp appid : preserves keeps_events_unique (getRarityForApp appid).
Proof.
  apply unique_same_events. intros w s.
  unfold getRarityForApp, bind, ask, get, steamGet, put, ret, throw.
  destruct (State.rarityCache s !! appid); [done|].
  destruct (World.GetGlobalAchievementPercentagesForApp w appid) as [| |j]; [done..|].
  by destruct (default [] j).
Qed.

Lemma unique_postDiscordPayload url payload :
  preserves keeps_events_unique (postDiscordPayload url payload).
Proof.
  apply unique_same_events. intros w s.
  unfold postDiscordPayload, bind, ask, get, put, throw.
  by destruct (World.webhook _ _ _ _) as [[status body]|].
Qed.

Lemma unique_recordAchievementEvent e :
  preserves keeps_events_unique (recordAchievementEvent e).
Proof.
  intros w s. unfold keeps_events_unique, event_keys.
  unfold recordAchievementEvent, bind, ask, swallow, get, put, throw, ret.
  destruct (truthy _); [|done].
  destruct (World.eventPut w e); [done|].
  case_bool_decide as Hin; cbn; [done|].
  intros Hnd. rewrite map_app. apply NoDup_app. split_and!; [done | |].
  - intros k Hk ->%list_elem_of_singleton. done.
  - apply NoDup_singleton.
Qed.

Lemma unique_putStateItem item : preserves keeps_events_unique (putStateItem item).
Proof.
  apply unique_same_events. intros w s.
  unfold putStateItem, bind, ask, get, put, throw.
  by destruct (World.ddbPut _ _).
Qed.

(** X13. Runs only add. Over any sequence of runs of either file, with any
    users and any answers of Steam, Discord and DynamoDB, whether the runs
    return or throw: the deliveries and the event log are only appended to,
    the schema and rarity caches only gain entries and never replace one, and
    no key leaves the state table. *)
Theorem X13_runs_only_add (l : list (Source * User.t * World.t)) (s : State.t) :
  let s' := runs l s in
  State.delivered s `prefix_of` State.delivered s' ∧
  State.events s `prefix_of` State.events s' ∧
  State.schemaCache s ⊆ State.schemaCache s' ∧
  State.rarityCache s ⊆ State.rarityCache s' ∧
  dom (State.table s) ⊆ dom (State.table s').
Proof.
  intros s'. subst s'.
  destruct (preserves_runs grows grows_refl grows_trans grows_getSchemaForApp
              grows_getRarityForApp grows_postDiscordPayload
              grows_recordAchievementEvent grows_putStateItem l s).
  done.
Qed.

(** X14. The event log never holds two rows with the same key (user, unlock
    time, app and achievement): if its keys are pairwise distinct before a
    sequence of runs, they are after it. *)
Theorem X14_event_keys_stay_unique
    (l : list (Source * User.t * World.t)) (s : State.t) :
  NoDup (event_keys s) → NoDup (event_keys (runs l s)).
Proof.
  apply (preserves_runs keeps_events_unique keeps_events_unique_refl
           keeps_events_unique_trans unique_getSchemaForApp unique_getRarityForApp
           unique_postDiscordPayload unique_recordAchievementEvent
           unique_putStateItem l s).
Qed.

Lemma X14_witness :
  let env := Env.mk "https://discord.test/hook" "America/New_York" (Some 900) (Some 3)
               "https://i.imgur.com/8mQe7pD.jpeg" (Some 350000) (Some "events"%string) in
  let w := World.mk env ex_now
             (λ _, Json (Some (Player.mk (Some "440"%string)
                                 (Some "Team Fortress 2"%string))))
             (λ _, Json None) (λ _ _, Json (Some ex_two_recent)) (λ _, ex_schema)
             (λ _, Json None) webhook_ok (λ _, None) (λ _, None) (λ _, None)
             (λ _ _, Some "11/14/2023, 5:13:10 PM"%string) in
  let s' := runs [(index_mjs, ex_user, w); (index_mjs, ex_user, w)] ex_state0 in
  length (State.events s') = 2%nat ∧ NoDup (event_keys s').
Proof.
  intros env w s'. split; [vm_compute; reflexivity|].
  apply (X14_event_keys_stay_unique
           [(index_mjs, ex_user, w); (index_mjs, ex_user, w)] ex_state0).
  apply NoDup_nil_2.
Defined.

(* ------------------------------------------------------------------ *)
(** ** A run with nothing to post *)

Lemma bind_Returned {A B} (m : M A) (k : A → M B) w s a s1 :
  m w s = (Returned a, s1) → bind m k w s = k a w s1.
Proof. intros H. unfold bind. by rewrite H. Qed.

Lemma getState_Returned pk w s :
  World.ddbGet w pk = None →
  getState pk w s =
    (Returned (Loaded.mk
                 (match State.table s !! pk with Some _ => true | None => false end)
                 (loaded_announced (State.table s !! pk))
                 (match State.table s !! pk with
                  | Some i => Item.platinumAnnounced i
                  | None => false
                  end)), s).
Proof. intros H. unfold getState, bind, ask, get, ret. by rewrite H. Qed.

(** With nothing to post, [processOneUser] of [src/index.mjs] goes from the
    loaded record straight to the save. *)
Lemma processOneUser_quiet user w s target playerJson :
  let env := World.env w in
  let steamId := trim (User.steamId user) in
  let d := diff_of env (World.now w) user target playerJson
             (State.table s !! pk_of steamId (Target.appid target)) in
  let f0 : Fetched := (None, None, None, Target.gameTitle target) in
  resolveTargetGame steamId w s = (Returned (Some target), s) →
  World.GetPlayerAchievements w (Target.appid target) steamId = Json playerJson →
  World.ddbGet w (pk_of steamId (Target.appid target)) = None →
  Diff.toPost d = [] →
  processOneUser user w s =
    (putStateItem
       (item_of (Diff.pk d) (User.name user) steamId (Target.appid target)
          (Target.gameTitle target) (total_of d f0) (unlockedCount_of d)
          (lockedCount_of d)
          (progressText_of (unlockedCount_of d) (total_of d f0)
             (percent (unlockedCount_of d) (total_of d f0)))
          (Diff.unlockedApiNames d) (Diff.lockedApiNames d) (Diff.announcedSet d)
          (Diff.platinumFlag d) (Diff.nowSec d)) ;;
     ret (Result.mk true (User.name user) 0 None (Some (Target.appid target))
            (Some (Target.gameTitle target))
            (Some (progressText_of (unlockedCount_of d) (total_of d f0)
                     (percent (unlockedCount_of d) (total_of d f0))))
            (Some (platinum_of d f0)))) w s.
Proof.
  intros env steamId d f0 Htarget Hp Hget HtoPost.
  unfold processOneUser. unfold bind at 1, ask. fold env steamId.
  rewrite (bind_Returned _ _ _ _ _ _ Htarget). cbv beta iota.
  rewrite (bind_Returned (steamGet _) _ w s playerJson s) by (by rewrite Hp).
  fold (pk_of steamId (Target.appid target)).
  rewrite (bind_Returned (getState _) _ w s _ s (getState_Returned _ _ _ Hget)).
  cbn [Loaded.exists_ Loaded.announcedApiNames Loaded.platinumAnnounced].
  change (toPost_of _ _ _) with (Diff.toPost d). rewrite HtoPost.
  reflexivity.
Qed.

(** Game selection does not read the schema or the rarity endpoint. *)
Lemma resolveTargetGame_catalogue steamId w schema rarity s :
  resolveTargetGame steamId (with_catalogue w schema rarity) s =
  resolveTargetGame steamId w s.
Proof.
  unfold resolveTargetGame, bind, ask, steamGet, ret, throw.
  cbn [with_catalogue World.GetPlayerSummaries World.GetRecentlyPlayedGames].
  destruct (World.GetPlayerSummaries w steamId) as [| |player]; [done..|].
  destruct (player ≫= Player.gameid) as [[|c g]|]; [|done|];
    (destruct (World.GetRecentlyPlayedGames w steamId) as [| |game]; [done..|];
     by repeat case_match).
Qed.

(** X15. Lazy fetching in [src/index.mjs]. A run that returns with
    [posted: 0] has not asked Steam for the schema or the rarity of the game:
    it delivered nothing, left both caches and the event log exactly as they
    were, and returns the same result and the same state whatever Steam
    would have answered to those two requests. *)
Theorem X15_nothing_to_post_fetches_nothing
    (user : User.t) (w : World.t) (s s' : State.t) (r : Result.t) :
  processOneUser user w s = (Returned r, s') →
  Result.posted r = 0 →
  State.delivered s' = State.delivered s ∧
  State.schemaCache s' = State.schemaCache s ∧
  State.rarityCache s' = State.rarityCache s ∧
  State.events s' = State.events s ∧
  ∀ schema rarity,
    processOneUser user (with_catalogue w schema rarity) s = (Returned r, s').
Proof.
  intros Hrun Hposted. pose proof Hrun as Hanatomy.
  apply processOneUser_anatomy in Hanatomy
    as [[_ [[e ?] | [Hnone _]]] | (target & playerJson & f & Ht & Hp & Hget & Hrest)];
    [done | |].
  - assert (∀ w1, resolveTargetGame (trim (User.steamId user)) w1 s = (Returned None, s) →
                  processOneUser user w1 s =
                  (Returned (Result.mk true (User.name user) 0
                               (Some "no_current_or_recent_game"%string)
                               None None None None), s)) as Hnotarget.
    { intros w1 H1. unfold processOneUser. unfold bind at 1, ask.
      by rewrite (bind_Returned _ _ _ _ _ _ H1). }
    rewrite (Hnotarget w Hnone) in Hrun. simplify_eq.
    split_and!; try done. intros schema rarity. apply Hnotarget.
    by rewrite resolveTargetGame_catalogue.
  - cbv zeta in Hrest. destruct Hrest as (_ & [(e & k & ? & _) | (Hr & _)]); [done|].
    set (d := diff_of _ _ _ _ _ _) in *.
    assert (Diff.toPost d = []) as HtoPost.
    { injection Hr as Hr. rewrite Hr in Hposted. cbn [Result.posted] in Hposted.
      change (toPost_of _ _ _) with (Diff.toPost d) in Hposted.
      destruct (Diff.toPost d); [done | simpl in Hposted; lia]. }
    pose proof (processOneUser_quiet user w s target playerJson Ht Hp Hget HtoPost)
      as Hquiet.
    assert (∀ schema rarity,
              processOneUser user (with_catalogue w schema rarity) s =
              processOneUser user w s) as Hsame.
    { intros schema rarity. rewrite Hquiet.
      rewrite (processOneUser_quiet user (with_catalogue w schema rarity) s target
                 playerJson); [|by rewrite resolveTargetGame_catalogue|done..].
      unfold putStateItem, bind, ask, get, put, throw, ret.
      cbn [with_catalogue World.env World.ddbPut World.now].
      by destruct (World.ddbPut _ _). }
    pose proof Hrun as Hrun0.
    rewrite Hquiet in Hrun. unfold putStateItem, bind, ask, get, put, throw, ret in Hrun.
    destruct (World.ddbPut _ _); [done|].
    split_and!; try (by simplify_eq).
    intros schema rarity. by rewrite Hsame.
Qed.

Lemma X15_witness :
  let w := ex_world ex_now (Json (Some ex_recent)) ex_schema webhook_ok in
  State.schemaCache (processOneUser ex_user w ex_state1).2 = ∅ ∧
  (processOneUser ex_user
     (with_catalogue w (λ _, Rejects "down"%string) (λ _, Rejects "down"%string))
     ex_state1).1
  = Returned (Result.mk true "Ricky" 0 None (Some "440"%string)
                (Some "Team Fortress 2"%string) (Some "1/2 (50%)"%string) (Some false)).
Proof.
  intros w.
  destruct (X15_nothing_to_post_fetches_nothing ex_user w ex_state1
              (processOneUser ex_user w ex_state1).2
              (Result.mk true "Ricky" 0 None (Some "440"%string)
                 (Some "Team Fortress 2"%string) (Some "1/2 (50%)"%string) (Some false)))
    as (_ & Hschema & _ & _ & Hsame).
  - vm_compute. reflexivity.
  - reflexivity.
  - split; [exact Hschema|]. by rewrite Hsame.
Defined.

(** X16. When the ledger cannot be read for the pair a run resolved, the run
    throws without delivering anything and without writing the table: no
    achievement is announced blind. *)
Theorem X16_unreadable_ledger_posts_nothing
    (src : Source) (user : User.t) (w : World.t) (s : State.t) (target : Target.t)
    (message : string) :
  let steamId := trim (User.steamId user) in
  resolveTargetGame steamId w s = (Returned (Some target), s) →
  World.ddbGet w (pk_of steamId (Target.appid target)) = Some message →
  let run := processOneUser_in src user w s in
  (∃ e, run.1 = Thrown e) ∧
  State.table run.2 = State.table s ∧
  State.delivered run.2 = State.delivered s.
Proof.
  intros steamId Htarget Hget run. subst run.
  destruct (processOneUser_in src user w s) as [o s'] eqn:Hrun. cbn [fst snd].
  apply processOneUser_in_anatomy in Hrun
    as [[[Ht Hd] [[e ->] | [Hnone _]]] | (target' & playerJson & f & Ht & _ & Hnone & _)].
  - split; [by exists e | done].
  - fold steamId in Hnone. congruence.
  - fold steamId in Ht, Hnone. rewrite Htarget in Ht. simplify_eq.
Qed.

Lemma X16_witness :
  let w := World.mk ex_env ex_now
             (λ _, Json (Some (Player.mk (Some "440"%string)
                                 (Some "Team Fortress 2"%string))))
             (λ _, Json None) (λ _ _, Json (Some ex_recent)) (λ _, ex_schema)
             (λ _, Json None) webhook_ok
             (λ _, Some "ProvisionedThroughputExceededException"%string)
             (λ _, None) (λ _, None)
             (λ _ _, Some "11/14/2023, 5:13:10 PM"%string) in
  State.delivered (processOneUser ex_user w ex_state0).2 = [] ∧
  State.delivered (Part000.processOneUser ex_user w ex_state0).2 = [].
Proof.
  intros w.
  destruct (X16_unreadable_ledger_posts_nothing index_mjs ex_user w ex_state0 ex_target
              "ProvisionedThroughputExceededException") as (_ & _ & H1);
    [vm_compute; reflexivity | reflexivity |].
  destruct (X16_unreadable_ledger_posts_nothing part_000 ex_user w ex_state0 ex_target
              "ProvisionedThroughputExceededException") as (_ & _ & H2);
    [vm_compute; reflexivity | reflexivity |].
  split; [exact H1 | exact H2].
Defined.

(* ------------------------------------------------------------------ *)
(** ** The runner: what the copies never share *)

Section RunnerExclusionFacts.
Context {U R W : Type}.
Variable worker : U → W → Outcome R * W.
Variable items : list U.

Local Abbreviation Pool := (@Pool U R W).
Local Abbreviation step := (step worker items).
Local Abbreviation run := (run worker items).
Local Abbreviation init := (@init U R W items).

Lemma Exclusive_init concurrency w : Exclusive (init concurrency w).
Proof.
  split; simpl.
  - intros r c u [? _]%lookup_replicate. done.
  - intros r c u sl [? _]%lookup_replicate. done.
  - intros r r' c u u' [? _]%lookup_replicate. done.
  - intros i sl [? _]%lookup_replicate. done.
Qed.

Lemma Exclusive_step r (p : Pool) : Exclusive p → Exclusive (step r p).
Proof.
  intros [Hclaimed Hpending Hunique Hwritten]. unfold step.
  destruct (runners p !! r) as [[|c u|]|] eqn:Hr; [| |by split..].
  - pose proof (lookup_lt_Some _ _ _ Hr) as Hrlt.
    destruct (items !! idx p) as [u|] eqn:Hu;
      split; cbn [idx results runners world started].
    + intros r' c u'. destruct (decide (r = r')) as [<- | Hne].
      { rewrite list_lookup_insert_eq by done. intros; simplify_eq. lia. }
      rewrite list_lookup_insert_ne by done. intros ?%Hclaimed. lia.
    + intros r' c u' sl. destruct (decide (r = r')) as [<- | Hne].
      { rewrite list_lookup_insert_eq by done. intros ? ?%Hwritten; simplify_eq. lia. }
      rewrite list_lookup_insert_ne by done. apply Hpending.
    + intros r1 r2 c u1 u2.
      destruct (decide (r = r1)) as [<- | Hne1], (decide (r = r2)) as [<- | Hne2];
        [done | | |].
      * rewrite list_lookup_insert_eq, list_lookup_insert_ne by done.
        intros ? ?%Hclaimed; simplify_eq. lia.
      * rewrite list_lookup_insert_ne, list_lookup_insert_eq by done.
        intros ?%Hclaimed ?; simplify_eq. lia.
      * rewrite !list_lookup_insert_ne by done. apply Hunique.
    + intros i sl ?%Hwritten. lia.
    + intros r' c u'. destruct (decide (r = r')) as [<- | Hne].
      { by rewrite list_lookup_insert_eq. }
      rewrite list_lookup_insert_ne by done. intros ?%Hclaimed. lia.
    + intros r' c u' sl. destruct (decide (r = r')) as [<- | Hne].
      { by rewrite list_lookup_insert_eq. }
      rewrite list_lookup_insert_ne by done. apply Hpending.
    + intros r1 r2 c u1 u2.
      destruct (decide (r = r1)) as [<- | Hne1]; [by rewrite list_lookup_insert_eq|].
      destruct (decide (r = r2)) as [<- | Hne2];
        [by rewrite (list_lookup_insert_eq (runners p)) by done|].
      rewrite !list_lookup_insert_ne by done. apply Hunique.
    + intros i sl ?%Hwritten. lia.
  - pose proof (lookup_lt_Some _ _ _ Hr) as Hrlt.
    destruct (worker u (world p)) as [o w'] eqn:Hw.
    split; cbn [idx results runners world started].
    + intros r' c' u'. destruct (decide (r = r')) as [<- | Hne].
      { by rewrite list_lookup_insert_eq. }
      rewrite list_lookup_insert_ne by done. apply Hclaimed.
    + intros r' c' u' sl. destruct (decide (r = r')) as [<- | Hne].
      { by rewrite list_lookup_insert_eq. }
      rewrite list_lookup_insert_ne by done. intros Hr'.
      assert (c ≠ c') as Hc by (intros ->; by apply Hne, (Hunique r r' c' u u')).
      rewrite list_lookup_insert_ne by done. by eapply Hpending.
    + intros r1 r2 c' u1 u2.
      destruct (decide (r = r1)) as [<- | Hne1]; [by rewrite list_lookup_insert_eq|].
      destruct (decide (r = r2)) as [<- | Hne2];
        [by rewrite (list_lookup_insert_eq (runners p)) by done|].
      rewrite !list_lookup_insert_ne by done. apply Hunique.
    + intros i sl. destruct (decide (c = i)) as [<- | Hne].
      { intros _. by eapply Hclaimed. }
      rewrite list_lookup_insert_ne by done. apply Hwritten.
Qed.

Lemma Exclusive_run schedule (p : Pool) : Exclusive p → Exclusive (run schedule p).
Proof.
  revert p. induction schedule as [|r l IH]; intros p Hp; simpl; [done|].
  apply IH, Exclusive_step, Hp.
Qed.

(** A step leaves every written slot as it is. *)
Lemma step_keeps_slot r (p : Pool) i sl :
  Exclusive p → results p !! i = Some (Some sl) →
  results (step r p) !! i = Some (Some sl).
Proof.
  intros [_ Hpending _ _] Hi. unfold step.
  destruct (runners p !! r) as [[|c u|]|] eqn:Hr; [| |done..].
  - by destruct (items !! idx p).
  - destruct (worker u (world p)) as [o w']. cbn [results].
    rewrite list_lookup_insert_ne; [done|]. intros ->. by eapply Hpending.
Qed.

Lemma run_keeps_slot schedule (p : Pool) i sl :
  Exclusive p → results p !! i = Some (Some sl) →
  results (run schedule p) !! i = Some (Some sl).
Proof.
  revert p. induction schedule as [|r l IH]; intros p Hp Hi; simpl; [done|].
  apply IH; [by apply Exclusive_step | by apply step_keeps_slot].
Qed.

Lemma in_flight_le (p : Pool) : (in_flight p ≤ length (runners p))%nat.
Proof. apply List_filter_length_le. Qed.

End RunnerExclusionFacts.

(** X17. The concurrency limit holds at every moment of every schedule: the
    number of workers in flight never exceeds the limit, nor the number of
    units; no two copies of [runner] work on the same unit; and the slot of
    a unit in flight is still empty. *)
Theorem X17_runner_respects_the_limit {U R W : Type}
    (worker : U → W → Outcome R * W) (items : list U) (concurrency : Z) (w : W)
    (schedule : list nat) :
  let p := run worker items schedule (init items concurrency w) in
  (in_flight p ≤ Z.to_nat concurrency)%nat ∧
  (in_flight p ≤ length items)%nat ∧
  (∀ r r' i u u',
     runners p !! r = Some (Awaiting i u) → runners p !! r' = Some (Awaiting i u') →
     r = r') ∧
  (∀ r i u, runners p !! r = Some (Awaiting i u) →
            items !! i = Some u ∧ results p !! i = Some None).
Proof.
  intros p.
  pose proof (Exclusive_run worker items schedule _ (Exclusive_init items concurrency w))
    as [Hclaimed Hpending Hunique Hwritten].
  pose proof (Inv_run worker items schedule _ (Inv_init worker items concurrency w))
    as [Hlen _ _ Hawait _ _].
  fold p in Hclaimed, Hpending, Hunique, Hwritten, Hlen, Hawait.
  assert (length (runners p) = Z.to_nat (Z.min concurrency (Z.of_nat (length items))))
    as Hrunners.
  { subst p. rewrite run_runners_length. simpl. apply length_replicate. }
  pose proof (in_flight_le p) as Hle.
  split_and!; [lia | lia | exact Hunique |].
  intros r i u Hr. pose proof (Hawait _ _ _ Hr) as Hu. split; [done|].
  pose proof (lookup_lt_Some _ _ _ Hu) as Hlt. rewrite <- Hlen in Hlt.
  destruct (lookup_lt_is_Some_2 _ _ Hlt) as [[sl|] Hsl]; [|done].
  by apply (Hpending r i u sl) in Hr.
Qed.

(** X18. A result, once written, is final: whatever the copies of [runner]
    do afterwards, the slot of a unit whose worker has settled keeps the
    value it was given. *)
Theorem X18_written_slot_is_final {U R W : Type}
    (worker : U → W → Outcome R * W) (items : list U) (concurrency : Z) (w : W)
    (schedule later : list nat) (i : nat) (sl : Slot) :
  results (run worker items schedule (init items concurrency w)) !! i = Some (Some sl) →
  results (run worker items (schedule ++ later) (init items concurrency w)) !! i
  = Some (Some sl).
Proof.
  intros Hi. unfold run. rewrite foldl_app.
  apply (run_keeps_slot worker items later); [|exact Hi].
  apply Exclusive_run, Exclusive_init.
Qed.

Lemma X18_witness :
  results (run ex_worker [1; 2; 3] ([0; 1; 0] ++ [1; 0; 1; 0; 1; 0; 1])%nat
             (init [1; 2; 3] 2 tt)) !! 0%nat
  = Some (Some (Value 10)).
Proof.
  apply (X18_written_slot_is_final ex_worker [1; 2; 3] 2 tt [0; 1; 0]%nat
           [1; 0; 1; 0; 1; 0; 1]%nat 0%nat (Value 10)).
  reflexivity.
Defined.

(* ------------------------------------------------------------------ *)
(** ** The runner with a single copy *)

Section RunnerSequentialFacts.
Context {U R W : Type}.
Variable worker : U → W → Outcome R * W.
Variable items : list U.

Local Abbreviation Pool := (@Pool U R W).
Local Abbreviation step := (step worker items).
Local Abbreviation run := (run worker items).
Local Abbreviation init := (@init U R W items).
Local Abbreviation sequential := (sequential worker).
Local Abbreviation after_units := (after_units worker items).

Lemma sequential_snoc (l : list U) (u : U) (w : W) :
  sequential (l ++ [u]) w =
  let '(o, w') := worker u (sequential l w).2 in ((sequential l w).1 ++ [settle o], w').
Proof. unfold sequential. by rewrite foldl_app. Qed.

Lemma sequential_length (l : list U) (w : W) : length (sequential l w).1 = length l.
Proof.
  induction l as [|u l IH] using rev_ind; [done|].
  rewrite sequential_snoc. destruct (worker u _) as [o w']. cbn [fst].
  rewrite !length_app, IH. done.
Qed.

Lemma after_units_init (w : W) : items ≠ [] → after_units w 0 (init 1 w).
Proof.
  intros Hne. unfold after_units, init. cbn [idx results runners world].
  destruct items as [|u l]; [done|].
  split_and!; [simpl; lia | by rewrite Nat.sub_0_r | done |].
  left. split; [|done].
  replace (Z.min 1 (Z.of_nat (length (u :: l)))) with 1 by (simpl; lia). done.
Qed.

Lemma after_units_step (w : W) (k r : nat) (p : Pool) :
  after_units w k p → ∃ k', after_units w k' (step r p).
Proof.
  intros (Hk & Hres & Hworld & Hstate). unfold step.
  destruct r as [|r]; cycle 1.
  { exists k.
    assert (runners p !! S r = None) as ->; [|done].
    by destruct Hstate as [[-> _] | [(u & -> & _) | [-> _]]]. }
  destruct Hstate as [[Hrun Hidx] | [(u & Hrun & Hu & Hidx) | [Hrun ->]]]; rewrite Hrun.
  - cbn [lookup list_lookup]. rewrite Hidx.
    destruct (items !! k) as [u|] eqn:Hu.
    + exists k. unfold after_units. cbn [idx results runners world].
      split_and!; [done..|]. right. left. by exists u.
    + exists k. unfold after_units. cbn [idx results runners world].
      apply lookup_ge_None_1 in Hu.
      split_and!; [done..|]. right. right. split; [done | lia].
  - cbn [lookup list_lookup].
    destruct (worker u (world p)) as [o w'] eqn:Hw.
    exists (S k). unfold after_units. cbn [idx results runners world].
    pose proof (lookup_lt_Some _ _ _ Hu) as Hlt.
    assert (sequential (take (S k) items) w =
            ((sequential (take k items) w).1 ++ [settle o], w')) as Hseq.
    { rewrite (take_S_r _ _ _ Hu), sequential_snoc, <- Hworld, Hw. done. }
    rewrite Hseq. cbn [fst snd].
    split_and!; [lia | | done |].
    + rewrite Hres.
      replace (length items - k)%nat with (S (length items - S k)) by lia.
      cbn [replicate].
      rewrite insert_app_r_alt;
        rewrite length_fmap, sequential_length, length_take, Nat.min_l by lia;
        [|lia].
      rewrite Nat.sub_diag. cbn [list_insert insert].
      rewrite fmap_app, <- app_assoc. done.
    + left. done.
  - cbn [lookup list_lookup]. exists (length items). unfold after_units.
    split_and!; [done..|]. right. right. done.
Qed.

Lemma after_units_run (w : W) (schedule : list nat) (k : nat) (p : Pool) :
  after_units w k p → ∃ k', after_units w k' (run schedule p).
Proof.
  revert k p. induction schedule as [|r l IH]; intros k p Hp; simpl; [by exists k|].
  destruct (after_units_step w k r p Hp) as [k' Hk']. by eapply IH.
Qed.

(** With one copy, once it has returned the units were processed in input
    order, each on the state the previous one left. *)
Lemma single_runner_sequential (w : W) (schedule : list nat) :
  let p := run schedule (init 1 w) in
  settled p = true →
  results p = Some <$> (sequential items w).1 ∧ world p = (sequential items w).2.
Proof.
  intros p Hs. destruct (decide (items = [])) as [Hnil | Hne].
  { subst p. assert (run schedule (init 1 w) = init 1 w) as ->.
    { apply run_settled. unfold init, settled. rewrite Hnil. done. }
    unfold init. rewrite Hnil. done. }
  destruct (after_units_run w schedule 0 _ (after_units_init w Hne))
    as (k & Hk & Hres & Hworld & Hstate).
  fold p in Hres, Hworld, Hstate.
  destruct Hstate as [[Hrun _] | [(u & Hrun & _) | [_ ->]]].
  - unfold settled in Hs. by rewrite Hrun in Hs.
  - unfold settled in Hs. by rewrite Hrun in Hs.
  - rewrite firstn_all in Hres, Hworld. rewrite Nat.sub_diag in Hres.
    by rewrite app_nil_r in Hres.
Qed.

End RunnerSequentialFacts.

Lemma sequential_run_unit (l : list (Source * User.t * World.t)) (s : State.t) :
  (sequential run_unit l s).2 = runs l s.
Proof.
  unfold sequential.
  assert (∀ acc, (foldl (λ acc u, let '(o, w') := run_unit u acc.2 in
                                  (acc.1 ++ [settle o], w')) acc l).2 = runs l acc.2)
    as H; [|apply (H ([], s))].
  induction l as [|[[src user] w] l IH]; intros acc; simpl; [done|].
  rewrite IH. unfold run_unit. cbn [fst snd].
  by destruct (processOneUser_in src user w acc.2).
Qed.

Lemma sequential_lookup {U R W} (worker : U → W → Outcome R * W) (l : list U) (w : W)
    (i : nat) (u : U) :
  l !! i = Some u →
  (sequential worker l w).1 !! i =
  Some (settle (worker u (sequential worker (take i l) w).2).1).
Proof.
  revert i u. induction l as [|x l IH] using rev_ind; intros i u Hi; [done|].
  rewrite sequential_snoc. destruct (worker x _) as [o w'] eqn:Hw. cbn [fst].
  destruct (decide (i < length l)%nat) as [Hlt | Hge].
  - rewrite lookup_app_l in Hi by done.
    rewrite lookup_app_l by (by rewrite sequential_length).
    rewrite take_app_le by lia. by apply IH.
  - apply lookup_lt_Some in Hi as Hlen. rewrite length_app in Hlen. simpl in Hlen.
    assert (i = length l) as -> by lia.
    rewrite lookup_app_r, Nat.sub_diag in Hi by done. simplify_eq/=.
    rewrite lookup_app_r by (by rewrite sequential_length).
    rewrite sequential_length, Nat.sub_diag, take_app_length. by rewrite Hw.
Qed.

(** X19. With a concurrency limit of 1 the runner is a plain loop: under
    every schedule, once it resolves, the results are those of processing
    the units one after the other in input order, each unit working on the
    state the previous one left, and the final state is the one the last
    unit left. *)
Theorem X19_single_runner_is_sequential {U R W : Type}
    (worker : U → W → Outcome R * W) (items : list U) (w : W) (schedule : list nat)
    (res : list (option Slot)) :
  runWithConcurrency worker items 1 w schedule = Some res →
  res = Some <$> (sequential worker items w).1 ∧
  world (run worker items schedule (init items 1 w)) = (sequential worker items w).2 ∧
  ∀ i u, items !! i = Some u →
         res !! i = Some (Some (settle (worker u (sequential worker (take i items) w).2).1)).
Proof.
  unfold runWithConcurrency. cbv zeta.
  destruct (settled _) eqn:Hs; [|done]. intros ?; simplify_eq.
  destruct (single_runner_sequential worker items w schedule Hs) as [Hres Hworld].
  split_and!; [done | done |].
  intros i u Hi. rewrite Hres, list_lookup_fmap.
  by rewrite (sequential_lookup worker items w i u Hi).
Qed.

Lemma X19_witness :
  runWithConcurrency ex_worker [1; 2; 3] 1 tt [0; 0; 0; 0; 0; 0; 0]%nat
  = Some [Some (Value 10); Some (Failure "boom"); Some (Value 30)] ∧
  [Some (Value 10); Some (Failure "boom"); Some (Value 30)]
  = Some <$> (sequential ex_worker [1; 2; 3] tt).1.
Proof.
  assert (runWithConcurrency ex_worker [1; 2; 3] 1 tt [0; 0; 0; 0; 0; 0; 0]%nat
          = Some [Some (Value 10); Some (Failure "boom"); Some (Value 30)]) as Hrun
    by reflexivity.
  split; [exact Hrun|].
  destruct (X19_single_runner_is_sequential ex_worker [1; 2; 3] tt
              [0; 0; 0; 0; 0; 0; 0]%nat
              [Some (Value 10); Some (Failure "boom"); Some (Value 30)] Hrun)
    as (Hres & _ & _).
  exact Hres.
Defined.

(** X20. A batch run with [CONCURRENCY=1] is a sequence of runs: once the
    runner resolves, the state is the one left by running the units in input
    order, and the slot of each unit holds what its run returned or threw on
    the state the units before it left. *)
Theorem X20_batch_of_one_is_runs
    (l : list (Source * User.t * World.t)) (s : State.t) (schedule : list nat)
    (res : list (option Slot)) :
  runWithConcurrency run_unit l 1 s schedule = Some res →
  world (run run_unit l schedule (init l 1 s)) = runs l s ∧
  length res = length l ∧
  ∀ i src user w, l !! i = Some (src, user, w) →
    res !! i = Some (Some (settle (processOneUser_in src user w (runs (take i l) s)).1)).
Proof.
  unfold runWithConcurrency. cbv zeta.
  destruct (settled _) eqn:Hs; [|done]. intros ?; simplify_eq.
  destruct (single_runner_sequential run_unit l s schedule Hs) as [Hres Hworld].
  split_and!.
  - by rewrite Hworld, sequential_run_unit.
  - by rewrite Hres, length_fmap, sequential_length.
  - intros i src user w Hi. rewrite Hres, list_lookup_fmap.
    rewrite (sequential_lookup run_unit l s i _ Hi), sequential_run_unit. done.
Qed.

Lemma X20_witness :
  let w := ex_world ex_now (Json (Some ex_recent)) ex_schema webhook_ok in
  let l := [(index_mjs, ex_user, w); (part_000, ex_user, w)] in
  world (run run_unit l [0; 0; 0; 0; 0]%nat (init l 1 ex_state0)) = runs l ex_state0.
Proof.
  intros w l.
  destruct (X20_batch_of_one_is_runs l ex_state0 [0; 0; 0; 0; 0]%nat
              (results (run run_unit l [0; 0; 0; 0; 0]%nat (init l 1 ex_state0))))
    as (H & _).
  - vm_compute. reflexivity.
  - exact H.
Defined.

(* ------------------------------------------------------------------ *)
(** ** Rarity tier and embed colour *)

(** X21. The colour of an embed agrees with the rarity tier named for the
    same percentage: gold for Legendary, orange for Epic, purple for Rare,
    blue for Uncommon, green for Common. The red of an embed without rarity
    is none of these, so in [src/index.mjs] an embed is red exactly when the
    achievement has no finite rarity percentage, while in
    [src/unnamed/part_000] every embed is red. *)
Theorem X21_colour_matches_tier (pct : float) (c : Ctx.t) (a : Unlocked.t) :
  (rarityTier pct, rarityColor pct) ∈
    [("Legendary"%string, 0xF1C40F); ("Epic"%string, 0xE67E22);
     ("Rare"%string, 0x9B59B6); ("Uncommon"%string, 0x3498DB);
     ("Common"%string, 0x2ECC71)] ∧
  rarityColor pct ≠ 0xE74C3C ∧
  (Embed.color (embed_of c a) = 0xE74C3C ↔ Embed.rarityPct (embed_of c a) = None) ∧
  (∀ p, Embed.rarityPct (embed_of c a) = Some p →
        PrimFloat.is_finite p = true ∧ Embed.color (embed_of c a) = rarityColor p) ∧
  Embed.color (Part000.embed_of c a) = 0xE74C3C ∧
  Embed.rarityPct (Part000.embed_of c a) = None.
Proof.
  assert (∀ p, rarityColor p ≠ 0xE74C3C) as Hred.
  { intros p. unfold rarityColor. by repeat case_match. }
  split_and!; [| apply Hred | | | done | done].
  - unfold rarityTier, rarityColor.
    destruct (PrimFloat.ltb pct (Number_of_Z 1)); [by left|].
    destruct (PrimFloat.ltb pct (Number_of_Z 5)); [right; by left|].
    destruct (PrimFloat.ltb pct (Number_of_Z 20)); [do 2 right; by left|].
    destruct (PrimFloat.ltb pct (Number_of_Z 50)); [do 3 right; by left|].
    do 4 right. by left.
  - cbn [embed_of Embed.color Embed.rarityPct].
    destruct (rarityPct_of c a) as [p|]; [|done].
    split; [by intros ?%Hred | done].
  - cbn [embed_of Embed.color Embed.rarityPct]. intros p Hp. rewrite Hp.
    split; [|done]. unfold rarityPct_of in Hp.
    destruct (Ctx.rarityMap c ≫= _) as [v|]; [|done].
    by destruct (PrimFloat.is_finite v) eqn:Hv; simplify_eq.
Qed.

(* ------------------------------------------------------------------ *)
(** ** The order of [unlocked] *)

Lemma insert_desc_Permutation (a : Unlocked.t) (l : list Unlocked.t) :
  insert_desc a l ≡ₚ a :: l.
Proof.
  induction l as [|b l IH]; simpl; [done|].
  destruct (_ >? 0); [|done]. rewrite IH. apply Permutation_swap.
Qed.

Lemma sort_desc_Permutation (l : list Unlocked.t) : sort_desc l ≡ₚ l.
Proof.
  induction l as [|a l IH]; simpl; [done|].
  by rewrite insert_desc_Permutation, IH.
Qed.

Lemma filter_time_insert_desc (t : Z) (a : Unlocked.t) (l : list Unlocked.t) :
  List.filter (λ x, Unlocked.unlocktime x =? t) (insert_desc a l) =
  List.filter (λ x, Unlocked.unlocktime x =? t) (a :: l).
Proof.
  induction l as [|b l IH]; [done|].
  cbn [insert_desc]. destruct (_ >? 0) eqn:Hcmp; [|done].
  apply Z.gtb_lt in Hcmp. cbn [List.filter] in *. rewrite IH.
  destruct (Unlocked.unlocktime a =? t) eqn:Ha, (Unlocked.unlocktime b =? t) eqn:Hb;
    try done.
  apply Z.eqb_eq in Ha, Hb. lia.
Qed.

Lemma filter_time_sort_desc (t : Z) (l : list Unlocked.t) :
  List.filter (λ x, Unlocked.unlocktime x =? t) (sort_desc l) =
  List.filter (λ x, Unlocked.unlocktime x =? t) l.
Proof.
  induction l as [|a l IH]; [done|].
  cbn [sort_desc foldr]. fold (sort_desc l).
  rewrite filter_time_insert_desc. cbn [List.filter]. by rewrite IH.
Qed.

(** X22. [unlocked] is the stable sort of the achieved entries: it holds
    exactly the entries of the player list with [achieved] 1 (a missing
    unlock time read as 0), newest first, and entries unlocked at the same
    second keep the order the player list gave them. *)
Theorem X22_unlocked_is_the_stable_sort (playerAch : list PlayerAch.t) :
  let achieved :=
    map (λ a, Unlocked.mk (PlayerAch.apiname a) (default 0 (PlayerAch.unlocktime a)))
      (List.filter (λ a, PlayerAch.achieved a =? 1) playerAch) in
  unlocked_of playerAch ≡ₚ achieved ∧
  StronglySorted (λ x y, Unlocked.unlocktime y ≤ Unlocked.unlocktime x)
    (unlocked_of playerAch) ∧
  ∀ t, List.filter (λ x, Unlocked.unlocktime x =? t) (unlocked_of playerAch) =
       List.filter (λ x, Unlocked.unlocktime x =? t) achieved.
Proof.
  intros achieved. split_and!.
  - apply sort_desc_Permutation.
  - apply unlocked_of_sorted.
  - intros t. apply filter_time_sort_desc.
Qed.

(* ------------------------------------------------------------------ *)
(** ** The totals of [handler] *)

Lemma filter_embeds_in src c toPost :
  length (List.filter is_EmbedPayload (embeds_in src c toPost)) = length toPost.
Proof.
  destruct (embeds_in_shape src c toPost) as (embeds & -> & Htimes).
  rewrite <- (length_map Unlocked.unlocktime), <- Htimes, length_map.
  clear Htimes. induction embeds as [|e l IH]; simpl; [done|]. by rewrite IH.
Qed.

Lemma filter_celebration_of env user d f :
  List.filter is_EmbedPayload (celebration_of env user d f) = [].
Proof. unfold celebration_of. by destruct (celebrates d f). Qed.

(** A run that returns has delivered as many embeds as it reports; a run
    that throws has delivered some or none. *)
Lemma run_unit_embeds u s :
  embeds_delivered s ≤ embeds_delivered (run_unit u s).2 ∧
  ∀ r, (run_unit u s).1 = Returned r →
       embeds_delivered (run_unit u s).2 = embeds_delivered s + Result.posted r.
Proof.
  destruct u as [[src user] w]. unfold run_unit. cbn [fst snd]. split.
  - destruct (preserves_processOneUser_in grows grows_refl grows_trans
                grows_getSchemaForApp grows_getRarityForApp grows_postDiscordPayload
                grows_recordAchievementEvent grows_putStateItem src user w s)
      as [[k Hk] _ _ _ _].
    unfold embeds_delivered. rewrite Hk, List.filter_app, length_app. lia.
  - intros r Hr.
    destruct (processOneUser_in src user w s) as [o s'] eqn:Hrun. cbn [fst snd] in *.
    subst o.
    apply processOneUser_in_anatomy in Hrun
      as [[[_ Hdel] [[e ?] | [_ Hr]]] | (target & playerJson & f & _ & _ & _ & Hrest)];
      [done | |].
    { simplify_eq. cbn [Result.posted]. unfold embeds_delivered. rewrite Hdel. lia. }
    cbv zeta in Hrest.
    destruct Hrest as (_ & [(e & k & ? & _) | (Hr & _ & _ & Hdel)]); [done|].
    set (d := diff_of _ _ _ _ _ _) in *.
    injection Hr as ->. cbn [Result.posted].
    change (toPost_of _ _ _) with (Diff.toPost d).
    unfold embeds_delivered.
    rewrite Hdel, !List.filter_app, filter_celebration_of, app_nil_r, length_app.
    rewrite filter_embeds_in. lia.
Qed.

Lemma postedTotal_of_acc (l : list (option (Slot (R:=Result.t)))) (a : Z) :
  foldl (λ sum r, sum + posted_or_0 r) a l = a + postedTotal_of l.
Proof.
  unfold postedTotal_of. revert a. induction l as [|x l IH]; intros a; simpl; [lia|].
  rewrite IH, (IH (0 + _)). lia.
Qed.

Lemma postedTotal_of_cons x (l : list (option (Slot (R:=Result.t)))) :
  postedTotal_of (x :: l) = posted_or_0 x + postedTotal_of l.
Proof. unfold postedTotal_of at 1. simpl. by rewrite postedTotal_of_acc. Qed.

Lemma postedTotal_of_insert (l : list (option (Slot (R:=Result.t)))) c x :
  l !! c = Some None →
  postedTotal_of (<[c := x]> l) = postedTotal_of l + posted_or_0 x.
Proof.
  revert c. induction l as [|y l IH]; intros [|c] Hc; simplify_eq/=.
  - rewrite !postedTotal_of_cons. unfold posted_or_0 at 2. simpl. lia.
  - rewrite !postedTotal_of_cons, (IH c) by done. lia.
Qed.

Lemma posted_or_0_settle (o : Outcome Result.t) :
  posted_or_0 (Some (settle o)) =
  match o with Returned r => Result.posted r | Thrown _ => 0 end.
Proof.
  destruct o as [r|e]; unfold posted_or_0, number_or; simpl; [|done].
  destruct (Result.posted r =? 0) eqn:H0; [|done]. apply Z.eqb_eq in H0. lia.
Qed.

Section HandlerFacts.
Variable units : list (Source * User.t * World.t).

Local Abbreviation Pool := (@Pool (Source * User.t * World.t) Result.t State.t).
Local Abbreviation step := (step run_unit units).
Local Abbreviation run := (run run_unit units).

Lemma accounted_step base r (p : Pool) :
  Inv run_unit units p → Exclusive p → accounted base p → accounted base (step r p).
Proof.
  intros [Hlen _ _ Hawait _ _] [_ Hpending _ _] (extra & Hextra & Hcount & Hnone).
  unfold step.
  destruct (runners p !! r) as [[|c u|]|] eqn:Hr;
    [| | by exists extra | by exists extra].
  { destruct (units !! idx p); by exists extra. }
  pose proof (Hawait _ _ _ Hr) as Hu.
  pose proof (lookup_lt_Some _ _ _ Hu) as Hlt. rewrite <- Hlen in Hlt.
  assert (results p !! c = Some None) as Hc.
  { destruct (lookup_lt_is_Some_2 _ _ Hlt) as [[sl|] Hsl]; [|done].
    by apply (Hpending r c u sl) in Hr. }
  pose proof (run_unit_embeds u (world p)) as [Hmono Hreturned].
  destruct (run_unit u (world p)) as [o w'] eqn:Hw. cbn [fst snd] in *.
  unfold accounted. cbn [results world].
  rewrite (postedTotal_of_insert _ _ _ Hc), posted_or_0_settle.
  destruct o as [res|e].
  - exists extra. rewrite (Hreturned res eq_refl). split_and!; [done | lia |].
    intros Hno. apply Hnone. intros i e Hi.
    apply (Hno i e). rewrite list_lookup_insert_ne; [done|]. intros ->. congruence.
  - exists (extra + (embeds_delivered w' - embeds_delivered (world p))).
    split_and!; [lia | lia |].
    intros Hno. exfalso. apply (Hno c e). by apply list_lookup_insert_eq.
Qed.

Lemma accounted_run base schedule (p : Pool) :
  Inv run_unit units p → Exclusive p → accounted base p →
  accounted base (run schedule p).
Proof.
  revert p. induction schedule as [|r l IH]; intros p Hinv Hexcl Hp; simpl; [done|].
  apply IH; [by apply Inv_step | by apply Exclusive_step | by apply accounted_step].
Qed.

Lemma accounted_init concurrency s :
  accounted (embeds_delivered s) (init units concurrency s).
Proof.
  exists 0. unfold init. cbn [results world]. split_and!; [done | | done].
  assert (∀ n, postedTotal_of (replicate n None) = 0) as ->; [|lia].
  induction n as [|n IH]; [done|]. simpl. by rewrite postedTotal_of_cons, IH.
Qed.

End HandlerFacts.

(** X23. The totals [handler] returns when [MAX_CONCURRENCY] is 1, the
    configuration in which the batch is modelled. Once the batch resolves,
    the state is the one left by running the users one after the other in
    input order; the result says [ok: true] and counts the users given;
    [results] has one slot per user and no hole. The [postedTotal] never
    over-reports: it is at most the number of achievement embeds delivered
    during the batch, and it is exactly that number when no unit failed. *)
Theorem X23_handler_totals
    (src : Source) (env : Env.t) (users : list (User.t * World.t)) (s s' : State.t)
    (schedule : list nat) (res : HandlerResult.t) :
  handler src env users s schedule = Resolved res s' →
  MAX_CONCURRENCY env = 1 ∧
  s' = runs (map (λ uw, (src, uw.1, uw.2)) users) s ∧
  HandlerResult.ok res = true ∧
  HandlerResult.users res = Z.of_nat (length users) ∧
  length (HandlerResult.results res) = length users ∧
  Forall is_Some (HandlerResult.results res) ∧
  HandlerResult.postedTotal res ≤ embeds_delivered s' - embeds_delivered s ∧
  ((∀ i e, HandlerResult.results res !! i ≠ Some (Some (Failure e))) →
   HandlerResult.postedTotal res = embeds_delivered s' - embeds_delivered s).
Proof.
  unfold handler.
  destruct (MAX_CONCURRENCY env =? 1) eqn:Hone; [|done].
  apply Z.eqb_eq in Hone. rewrite Hone. cbv zeta.
  set (units := map _ users).
  set (p := run run_unit units schedule (init units 1 s)).
  destruct (settled p) eqn:Hs; [|done]. intros ?; simplify_eq.
  cbn [HandlerResult.ok HandlerResult.users HandlerResult.results
         HandlerResult.postedTotal].
  assert (Inv run_unit units p) as Hinv by apply Inv_run, Inv_init.
  assert (length (results p) = length users) as Hlen.
  { destruct Hinv as [Hlen _ _ _ _ _]. rewrite Hlen. subst units. apply length_map. }
  destruct (accounted_run units (embeds_delivered s) schedule _
              (Inv_init run_unit units 1 s) (Exclusive_init units 1 s)
              (accounted_init units 1 s))
    as (extra & Hextra & Hcount & Hnone).
  fold p in Hcount, Hnone.
  destruct (single_runner_sequential run_unit units s schedule Hs) as [_ Hworld].
  fold p in Hworld. rewrite sequential_run_unit in Hworld.
  split_and!; [done | done | done | done | done | | lia
               | intros Hno; rewrite (Hnone Hno) in Hcount; lia].
  apply Forall_lookup. intros i x Hi.
  pose proof (lookup_lt_Some _ _ _ Hi) as Hlt.
  destruct Hinv as [Hlen' _ _ _ _ _]. rewrite Hlen' in Hlt.
  destruct (lookup_lt_is_Some_2 _ _ Hlt) as [u Hu].
  assert (runners p ≠ []) as Hne.
  { intros Hnil. apply (f_equal length) in Hnil.
    subst p. rewrite run_runners_length in Hnil. simpl in Hnil.
    rewrite length_replicate in Hnil. lia. }
  destruct (Inv_settled run_unit units p i u (Inv_run _ _ _ _ (Inv_init _ _ _ _)) Hs Hne Hu)
    as [w0 Hw0].
  rewrite Hw0 in Hi. by simplify_eq.
Qed.

Lemma X23_witness :
  let env := Env.mk "https://discord.test/hook" "America/New_York" (Some 900) (Some 1)
               "https://i.imgur.com/8mQe7pD.jpeg" (Some 350000) None in
  let w := ex_world ex_now (Json (Some ex_two_recent)) ex_schema webhook_second_fails in
  let w' := ex_world ex_now (Json (Some ex_recent)) ex_schema webhook_ok in
  let users := [(ex_user, w); (User.mk "Sam" "76561198000000001" None None None, w')] in
  ∃ res s',
    handler index_mjs env users ex_state0 [0; 0; 0; 0; 0]%nat = Resolved res s' ∧
    HandlerResult.postedTotal res ≤ embeds_delivered s' - embeds_delivered ex_state0 ∧
    HandlerResult.postedTotal res = 1 ∧
    embeds_delivered s' = 2.
Proof.
  intros env w w' users.
  destruct (handler index_mjs env users ex_state0 [0; 0; 0; 0; 0]%nat)
    as [| |res s'] eqn:Hrun; [by vm_compute in Hrun..|].
  exists res, s'. split; [reflexivity|].
  pose proof (X23_handler_totals index_mjs env users ex_state0 s'
                [0; 0; 0; 0; 0]%nat res Hrun) as (_ & _ & _ & _ & _ & _ & Hle & _).
  split; [exact Hle|].
  vm_compute in Hrun. injection Hrun as <- <-. split; reflexivity.
Defined.

(* ------------------------------------------------------------------ *)
(** ** An invalid time zone *)

Lemma formatLocalDateFromUnix_invalid sec tz w s :
  sec ≠ 0 → World.toLocaleString w sec tz = None →
  formatLocalDateFromUnix sec tz w s =
  (Thrown ("Invalid time zone specified: " ++ tz)%string, s).
Proof.
  intros Hsec Hnone. unfold formatLocalDateFromUnix, bind, ask, throw.
  apply Z.eqb_neq in Hsec. by rewrite Hsec, Hnone.
Qed.

(** With a time zone the engine rejects, the posting loop stops while it
    builds its first embed. *)
Lemma postAll_invalid_time_zone c toPost announcedSet w s o s' :
  (∀ sec, World.toLocaleString w sec (Ctx.tz c) = None) →
  (∀ a, a ∈ toPost → Unlocked.unlocktime a ≠ 0) →
  postAll c toPost announcedSet w s = (o, s') →
  s' = s ∧ (toPost = [] ∨ ∃ e, o = Thrown e).
Proof.
  intros Htz Htimes. destruct toPost as [|a rest]; simpl.
  { unfold ret. intros; simplify_eq. by split; [|left]. }
  unfold bind at 1.
  rewrite formatLocalDateFromUnix_invalid by first [apply Htz | apply Htimes; left].
  intros; simplify_eq. split; [done|]. right. eauto.
Qed.

Lemma Part000_postAll_invalid_time_zone c toPost announcedSet w s o s' :
  (∀ sec, World.toLocaleString w sec (Ctx.tz c) = None) →
  (∀ a, a ∈ toPost → Unlocked.unlocktime a ≠ 0) →
  Part000.postAll c toPost announcedSet w s = (o, s') →
  s' = s ∧ (toPost = [] ∨ ∃ e, o = Thrown e).
Proof.
  intros Htz Htimes. destruct toPost as [|a rest]; simpl.
  { unfold ret. intros; simplify_eq. by split; [|left]. }
  unfold bind at 1.
  rewrite formatLocalDateFromUnix_invalid by first [apply Htz | apply Htimes; left].
  intros; simplify_eq. split; [done|]. right. eauto.
Qed.

Lemma toPost_of_unlocktime exists_ announcedSet unlocked cutoff a :
  a ∈ toPost_of exists_ announcedSet (unlockedRecent_of unlocked cutoff) →
  Unlocked.unlocktime a ≠ 0.
Proof.
  intros [Ha _]%elem_of_toPost_of. apply elem_of_unlockedRecent_of in Ha. lia.
Qed.

Lemma fetch_keeps_delivered {A} appid (k : Schema.t → option (gmap string float) → A)
    w s o s' :
  (schema <- getSchemaForApp appid ;;
   rarityMap <- getRarityForApp appid ;;
   ret (k schema rarityMap)) w s = (o, s') →
  State.delivered s' = State.delivered s.
Proof.
  intros [(e & H & _) | (schema & s1 & H & Hk)]%bind_inv.
  { by apply getSchemaForApp_ledger in H as [_ ?]. }
  apply getSchemaForApp_ledger in H as [_ Hd1].
  apply bind_inv in Hk as [(e & H & _) | (r & s2 & H & Hk)].
  - apply getRarityForApp_ledger in H as [_ ?]. congruence.
  - apply getRarityForApp_ledger in H as [_ ?]. unfold ret in Hk. simplify_eq. congruence.
Qed.

Lemma processOneUser_invalid_time_zone user w s o s' :
  (∀ sec, World.toLocaleString w sec
            (str_or (default "" (User.timezone user)) (Env.TIMEZONE (World.env w)))
          = None) →
  processOneUser user w s = (o, s') →
  State.delivered s' = State.delivered s.
Proof.
  intros Htz Hrun.
  unfold processOneUser in Hrun. unfold bind at 1, ask in Hrun.
  apply bind_inv in Hrun as [(e & H & ->) | (target & s1 & Htarget & Hrun)].
  { by apply resolveTargetGame_state in H as ->. }
  apply resolveTargetGame_state in Htarget as ->.
  destruct target as [target|]; [|by unfold ret in Hrun; simplify_eq].
  apply bind_inv in Hrun as [(e & H & ->) | (playerJson & s1 & Hplayer & Hrun)].
  { by apply steamGet_inv in H as [-> _]. }
  apply steamGet_inv in Hplayer as [-> _].
  apply bind_inv in Hrun as [(e & H & ->) | (st & s1 & Hst & Hrun)].
  { by apply getState_inv in H as [-> _]. }
  apply getState_inv in Hst as [-> _].
  apply bind_inv in Hrun as [(e & H & ->) | (f & s1 & Hf & Hrun)].
  { destruct (0 <? _); [by apply fetch_keeps_delivered in H | by unfold ret in H]. }
  assert (State.delivered s1 = State.delivered s) as Hd1.
  { destruct (0 <? _); [by apply fetch_keeps_delivered in Hf|].
    unfold ret in Hf. by simplify_eq. }
  destruct f as [[[schemaByApi totalCount] rarityMap] gameTitle].
  apply bind_inv in Hrun as [(e & H & ->) | (set & s2 & Hpost & Hrun)].
  { apply postAll_invalid_time_zone in H as [-> _];
      [done | exact Htz | intros a; apply toPost_of_unlocktime]. }
  apply postAll_invalid_time_zone in Hpost as [-> HtoPost];
    [| exact Htz | intros a; apply toPost_of_unlocktime].
  destruct HtoPost as [HtoPost | [e ?]]; [|done].
  rewrite HtoPost in Hrun. unfold shouldCelebrate in Hrun. cbn [length] in Hrun.
  change (0 <? Z.of_nat 0) with false in Hrun. cbn [andb] in Hrun.
  apply bind_inv in Hrun as [(e & H & ->) | (flag & s3 & Hflag & Hrun)];
    [by unfold ret in H|].
  unfold ret in Hflag. simplify_eq.
  apply bind_inv in Hrun as [(e & H & ->) | ([] & s4 & Hput & Hrun)].
  { apply putStateItem_inv in H as [(? & _ & -> & _) | (? & _)]; done. }
  unfold ret in Hrun. simplify_eq.
  apply putStateItem_inv in Hput as [(? & ? & _) | (_ & _ & _ & Hd4)]; [done|].
  congruence.
Qed.

Lemma Part000_processOneUser_invalid_time_zone user w s o s' :
  (∀ sec, World.toLocaleString w sec
            (str_or (default "" (User.timezone user)) (Env.TIMEZONE (World.env w)))
          = None) →
  Part000.processOneUser user w s = (o, s') →
  State.delivered s' = State.delivered s.
Proof.
  intros Htz Hrun.
  unfold Part000.processOneUser in Hrun. unfold bind at 1, ask in Hrun.
  apply bind_inv in Hrun as [(e & H & ->) | (target & s1 & Htarget & Hrun)].
  { by apply resolveTargetGame_state in H as ->. }
  apply resolveTargetGame_state in Htarget as ->.
  destruct target as [target|]; [|by unfold ret in Hrun; simplify_eq].
  apply bind_inv in Hrun as [(e & H & ->) | (schema & s0 & Hschema & Hrun)].
  { by apply getSchemaForApp_ledger in H as [_ ?]. }
  apply getSchemaForApp_ledger in Hschema as [_ Hd0].
  apply bind_inv in Hrun as [(e & H & ->) | (playerJson & s1 & Hplayer & Hrun)].
  { by apply steamGet_inv in H as [-> _]. }
  apply steamGet_inv in Hplayer as [-> _].
  apply bind_inv in Hrun as [(e & H & ->) | (st & s1 & Hst & Hrun)].
  { by apply getState_inv in H as [-> _]. }
  apply getState_inv in Hst as [-> _].
  apply bind_inv in Hrun as [(e & H & ->) | (set & s2 & Hpost & Hrun)].
  { apply Part000_postAll_invalid_time_zone in H as [-> _];
      [done | exact Htz | intros a; apply toPost_of_unlocktime]. }
  apply Part000_postAll_invalid_time_zone in Hpost as [-> HtoPost];
    [| exact Htz | intros a; apply toPost_of_unlocktime].
  destruct HtoPost as [HtoPost | [e ?]]; [|done].
  rewrite HtoPost in Hrun. unfold shouldCelebrate in Hrun. cbn [length] in Hrun.
  change (0 <? Z.of_nat 0) with false in Hrun. cbn [andb] in Hrun.
  apply bind_inv in Hrun as [(e & H & ->) | (flag & s3 & Hflag & Hrun)];
    [by unfold ret in H|].
  unfold ret in Hflag. simplify_eq.
  apply bind_inv in Hrun as [(e & H & ->) | ([] & s4 & Hput & Hrun)].
  { apply putStateItem_inv in H as [(? & _ & -> & _) | (? & _)]; done. }
  unfold ret in Hrun. simplify_eq.
  apply putStateItem_inv in Hput as [(? & ? & _) | (_ & _ & _ & Hd4)]; [done|].
  congruence.
Qed.

(** X24. A time zone the JavaScript engine rejects blocks every
    announcement of the unit: the date of the first embed cannot be
    formatted, so the run throws while it builds that embed. Whatever the
    outcome, nothing is delivered; and the ledger record is written only by
    a run that had nothing to post. *)
Theorem X24_invalid_time_zone_blocks_every_post
    (src : Source) (user : User.t) (w : World.t) (s : State.t) :
  let tz := str_or (default "" (User.timezone user)) (Env.TIMEZONE (World.env w)) in
  (∀ sec, World.toLocaleString w sec tz = None) →
  let run := processOneUser_in src user w s in
  State.delivered run.2 = State.delivered s ∧
  (State.table run.2 = State.table s ∨
   ∃ r, run.1 = Returned r ∧ Result.posted r = 0).
Proof.
  intros tz Htz run. subst run.
  destruct (processOneUser_in src user w s) as [o s'] eqn:Hrun. cbn [fst snd].
  assert (State.delivered s' = State.delivered s) as Hdel.
  { destruct src; cbn [processOneUser_in] in Hrun.
    - by eapply processOneUser_invalid_time_zone.
    - by eapply Part000_processOneUser_invalid_time_zone. }
  split; [exact Hdel|].
  apply processOneUser_in_anatomy in Hrun
    as [[[Ht _] _] | (target & playerJson & f & _ & _ & _ & Hrest)]; [by left|].
  cbv zeta in Hrest.
  destruct Hrest as (_ & [(e & k & _ & Ht & _) | (Hr & _ & _ & Hposts)]); [by left|].
  right. eexists. split; [exact Hr|]. cbn [Result.posted].
  set (d := diff_of _ _ _ _ _ _) in *.
  rewrite Hdel in Hposts.
  assert (embeds_in src (ctx_of (World.env w) user target d f) (Diff.toPost d)
            ++ celebration_of (World.env w) user d f = []) as Hnil.
  { apply (app_inv_head (State.delivered s)). by rewrite app_nil_r. }
  apply app_eq_nil in Hnil as [Hnil _].
  apply (f_equal (λ l, length (List.filter is_EmbedPayload l))) in Hnil.
  rewrite filter_embeds_in in Hnil. change (length (Diff.toPost d) = 0%nat) in Hnil.
  change (Z.of_nat (length (Diff.toPost d)) = 0). by rewrite Hnil.
Qed.

Lemma X24_witness :
  let w := World.mk ex_env ex_now
             (λ _, Json (Some (Player.mk (Some "440"%string)
                                 (Some "Team Fortress 2"%string))))
             (λ _, Json None) (λ _ _, Json (Some ex_recent)) (λ _, ex_schema)
             (λ _, Json None) webhook_ok (λ _, None) (λ _, None) (λ _, None)
             (λ _ _, None) in
  let user := User.mk "Ricky" "76561198000000000" None (Some "Mars/Olympus"%string)
                None in
  State.delivered (processOneUser user w ex_state0).2 = [] ∧
  State.delivered (Part000.processOneUser user w ex_state0).2 = [].
Proof.
  intros w user.
  destruct (X24_invalid_time_zone_blocks_every_post index_mjs user w ex_state0)
    as [H1 _]; [reflexivity|].
  destruct (X24_invalid_time_zone_blocks_every_post part_000 user w ex_state0)
    as [H2 _]; [reflexivity|].
  split; [exact H1 | exact H2].
Defined.

(** The run of the witness: the first embed is never built, and the ledger
    is left as it was. *)
Example invalid_time_zone_throws :
  let w := World.mk ex_env ex_now
             (λ _, Json (Some (Player.mk (Some "440"%string)
                                 (Some "Team Fortress 2"%string))))
             (λ _, Json None) (λ _ _, Json (Some ex_recent)) (λ _, ex_schema)
             (λ _, Json None) webhook_ok (λ _, None) (λ _, None) (λ _, None)
             (λ _ _, None) in
  let user := User.mk "Ricky" "76561198000000000" None (Some "Mars/Olympus"%string)
                None in
  (processOneUser user w ex_state0).1
  = Thrown "Invalid time zone specified: Mars/Olympus" ∧
  State.table (processOneUser user w ex_state0).2 = ∅ ∧
  (Part000.processOneUser user w ex_state0).1
  = Thrown "Invalid time zone specified: Mars/Olympus" ∧
  State.table (Part000.processOneUser user w ex_state0).2 = ∅.
Proof. intros w user. vm_compute. done. Qed.
